(** * A dependency-injection container with three object lifetimes

    Shallow embedding of the [Injector] class (registry, singleton cache,
    scope handles, recursive resolution), of the classes of its
    demonstration and of the [Logger] class, with proofs of their
    lifetime, error and frame properties. *)

From stdpp Require Import gmap strings list fin_maps.

(** ** Data model *)

(** [enum LifeStyle]. *)
Inductive LifeStyle := PerRequest | Scoped | Singleton.

#[global] Instance LifeStyle_eq_dec : EqDecision LifeStyle.
Proof. solve_decision. Defined.

(** [InjectionToken<T> = symbol].  The tokens of the program are made with
    [Symbol.for(key)], so a token is identified by its key. *)
Abbreviation InjectionToken := string (only parsing).

(** Values of type [any]: primitives, and references to objects, which are
    compared by identity (their address in the object heap). *)
Inductive Value :=
| VUndefined
| VString (s : string)
| VNumber (n : Z)
| VObject (addr : nat).

#[global] Instance Value_eq_dec : EqDecision Value.
Proof. solve_decision. Defined.

(** An object on the heap remembers the class that [new] was applied to
    and the argument list its constructor was invoked with. *)
Record Obj := mkObj { className : string; ctorArgs : list Value }.

#[global] Instance Obj_eq_dec : EqDecision Obj.
Proof. solve_decision. Defined.

(** Record of the builder invocations made so far: every call of a
    factory and every [new]. *)
Inductive BuilderCall :=
| CallFactory
| CallNew (c : string) (args : list Value).

(** How the body of a builder ends: it hands back a value that exists
    already ([return shared], [return 42], or no [return] at all, which
    is [undefined]), it hands back an object it has just made, or it
    throws. *)
Inductive Outcome :=
| Yield (v : Value)
| Fresh (o : Obj)
| Raise.

(** The body of a builder, a factory or a constructor, is code of the
    caller.  Before it ends it may resolve tokens through the injector it
    closes over, without scope ([injector.getInstance(token)]) or through
    a scope handle it holds ([scope.resolve(token)]), any number of
    times, and what it does may depend on the state its closure keeps,
    which is given here by the builder invocations made so far and by
    the objects that exist.  What such a resolution throws leaves the
    body; bodies that catch it, or that register tokens, are not
    described. *)
Inductive Prog :=
| Done (o : Outcome)
| Resolve (token : string) (scopeCache : option nat) (k : Value → Prog)
| Look (k : list BuilderCall → list Obj → Prog).

(** [ClassType<T> = new (...args: any[]) => T]: the body of the
    constructor, for each argument list. *)
Record ClassType := mkClass { cname : string; ctor : list Value → Prog }.

(** [Factory<T> = () => T]. *)
Definition Factory := Prog.

(** [interface Registration]. *)
Record Registration := mkRegistration {
  implementation : option ClassType;
  lifestyle : LifeStyle;
  dependencies : list InjectionToken;
  constructorParams : list Value;
  factory : option Factory
}.

(** A scope handle denotes the [Map] that [createScope] allocated for it. *)
Abbreviation ScopeId := nat (only parsing).

(** The two private maps of the [Injector], and the part of the store the
    injector works on: the scope caches handed out by [createScope], the
    object heap and the record of builder invocations. *)
Record State := mkState {
  container : gmap string Registration;
  singletons : gmap string Value;
  scopes : gmap nat (gmap string Value);
  heap : list Obj;
  calls : list BuilderCall
}.

Definition emptyState : State := mkState ∅ ∅ ∅ [] [].

Definition set_container (f : gmap string Registration → gmap string Registration)
    (st : State) : State :=
  mkState (f (container st)) (singletons st) (scopes st) (heap st) (calls st).

Definition set_singletons (f : gmap string Value → gmap string Value)
    (st : State) : State :=
  mkState (container st) (f (singletons st)) (scopes st) (heap st) (calls st).

Definition set_scopes
    (f : gmap nat (gmap string Value) → gmap nat (gmap string Value))
    (st : State) : State :=
  mkState (container st) (singletons st) (f (scopes st)) (heap st) (calls st).

Definition set_heap (f : list Obj → list Obj) (st : State) : State :=
  mkState (container st) (singletons st) (scopes st) (f (heap st)) (calls st).

Definition set_calls (f : list BuilderCall → list BuilderCall) (st : State) : State :=
  mkState (container st) (singletons st) (scopes st) (heap st) (f (calls st)).

(** The contents of the scope cache behind a handle. *)
Definition scopeOf (st : State) (s : nat) : gmap string Value :=
  default ∅ (scopes st !! s).

(** ** Errors and the resolution monad *)

Inductive Error :=
| NotRegistered (token : string)   (* "Dependency not registered: ..." *)
| NoActiveScope                    (* "Cannot resolve Scoped dependency outside scope" *)
| BuildFailure                     (* thrown by a factory or a constructor *)
| NotAConstructor                  (* [new null(...)] *)
| StackOverflow.                   (* recursion limit of the platform *)

#[global] Instance Error_eq_dec : EqDecision Error.
Proof. solve_decision. Defined.

Inductive Result (A : Type) :=
| Ok (a : A)
| Throw (e : Error).
Arguments Ok {A} a.
Arguments Throw {A} e.

(** A computation runs on the state and either returns or throws; the
    changes made before a throw stay. *)
Definition M (A : Type) : Type := State → Result A * State.

Definition ret {A} (a : A) : M A := fun st => (Ok a, st).
Definition throw {A} (e : Error) : M A := fun st => (Throw e, st).
Definition bind {A B} (m : M A) (k : A → M B) : M B :=
  fun st => match m st with
            | (Ok a, st') => k a st'
            | (Throw e, st') => (Throw e, st')
            end.
Definition gets {A} (f : State → A) : M A := fun st => (Ok (f st), st).
Definition modify (f : State → State) : M unit := fun st => (Ok tt, f st).

Declare Scope inj_scope.
Delimit Scope inj_scope with inj.
Notation "'let*' x ':=' m 'in' k" := (bind m (fun x => k))
  (at level 10, x name, m at level 100, k at level 200) : inj_scope.
Notation "'exec' m 'in' k" := (bind m (fun _ => k))
  (at level 10, m at level 100, k at level 200) : inj_scope.
Open Scope inj_scope.

(** [Array.prototype.map] with a callback that may throw: left to right,
    stopping at the first throw. *)
Fixpoint mapM {A B} (f : A → M B) (l : list A) : M (list B) :=
  match l with
  | [] => ret []
  | x :: xs => let* y := f x in let* ys := mapM f xs in ret (y :: ys)
  end.

(** ** The injector *)

(** [register(token, classType, lifestyle, dependencies, constructorParams)]. *)
Definition register (token : string) (classType : ClassType)
    (lifestyle : LifeStyle) (dependencies : list string)
    (constructorParams : list Value) (st : State) : State :=
  set_container
    (insert token (mkRegistration (Some classType) lifestyle dependencies
                                  constructorParams None)) st.

(** [registerFactory(token, factory, lifestyle)]. *)
Definition registerFactory (token : string) (f : Factory)
    (lifestyle : LifeStyle) (st : State) : State :=
  set_container
    (insert token (mkRegistration None lifestyle [] [] (Some f))) st.

(** Running the body of a builder; [getInstance] is the injector the body
    closes over.  What a nested resolution throws goes through the body
    to the caller of the builder. *)
Fixpoint runProg (getInstance : string → option nat → M Value) (p : Prog)
    : M Outcome :=
  match p with
  | Done o => ret o
  | Resolve token scopeCache k =>
      let* v := getInstance token scopeCache in runProg getInstance (k v)
  | Look k => fun st => runProg getInstance (k (calls st) (heap st)) st
  end.

Section Resolution.
(** The recursive call [this.getInstance]. *)
Variable getInstance : string → option nat → M Value.

(** [registration.factory()]. *)
Definition callFactory (f : Factory) : M Value :=
  exec modify (set_calls (fun l => l ++ [CallFactory])) in
  let* o := runProg getInstance f in
  match o with
  | Yield v => ret v
  | Fresh ob =>
      let* h := gets heap in
      exec modify (set_heap (fun _ => h ++ [ob])) in ret (VObject (length h))
  | Raise => throw BuildFailure
  end.

(** [new implementation(...args)]: the new object exists before the body
    of the constructor runs, and is the result unless the body returns
    an object of its own. *)
Definition construct (impl : option ClassType) (args : list Value) : M Value :=
  match impl with
  | None => throw NotAConstructor
  | Some c =>
      exec modify (set_calls (fun l => l ++ [CallNew (cname c) args])) in
      let* h := gets heap in
      exec modify (set_heap (fun _ => h ++ [mkObj (cname c) args])) in
      let* o := runProg getInstance (ctor c args) in
      match o with
      | Yield (VObject b) => ret (VObject b)
      | Yield _ => ret (VObject (length h))
      | Fresh ob =>
          let* h' := gets heap in
          exec modify (set_heap (fun _ => h' ++ [ob])) in
          ret (VObject (length h'))
      | Raise => throw BuildFailure
      end
  end.

Definition createInstance (registration : Registration)
    (scopeCache : option nat) : M Value :=
  match factory registration with
  | Some f => callFactory f
  | None =>
      let* resolvedDependencies :=
        mapM (fun depToken => getInstance depToken scopeCache)
             (dependencies registration) in
      construct (implementation registration)
                (resolvedDependencies ++ constructorParams registration)
  end.

Definition resolveSingleton (token : string) (registration : Registration)
    (scopeCache : option nat) : M Value :=
  let* has := gets (fun st => bool_decide (is_Some (singletons st !! token))) in
  exec (if negb has then
          let* v := createInstance registration scopeCache in
          modify (set_singletons (insert token v))
        else ret tt) in
  gets (fun st => default VUndefined (singletons st !! token)).

Definition resolveScoped (token : string) (registration : Registration)
    (scopeCache : nat) : M Value :=
  let* has := gets (fun st => bool_decide (is_Some (scopeOf st scopeCache !! token))) in
  exec (if negb has then
          let* v := createInstance registration (Some scopeCache) in
          modify (fun st =>
            set_scopes (insert scopeCache (<[token := v]> (scopeOf st scopeCache))) st)
        else ret tt) in
  gets (fun st => default VUndefined (scopeOf st scopeCache !! token)).

Definition getInstanceBody (token : string) (scopeCache : option nat) : M Value :=
  let* registration := gets (fun st => container st !! token) in
  match registration with
  | None => throw (NotRegistered token)
  | Some registration =>
      match lifestyle registration with
      | Singleton => resolveSingleton token registration scopeCache
      | Scoped =>
          match scopeCache with
          | None => throw NoActiveScope
          | Some sc => resolveScoped token registration sc
          end
      | PerRequest => createInstance registration scopeCache
      end
  end.
End Resolution.

(** [getInstance(token, scopeCache?)], with the depth of the call stack
    that is left; a resolution nested deeper than that overflows. *)
Fixpoint getInstance (depth : nat) (token : string) (scopeCache : option nat)
    : M Value :=
  match depth with
  | 0 => throw StackOverflow
  | S d => getInstanceBody (getInstance d) token scopeCache
  end.

(** [createScope()]: a fresh, empty cache and the handle bound to it. *)
Definition createScope (st : State) : nat * State :=
  let s := fresh (dom (scopes st)) in
  (s, set_scopes (insert s ∅) st).

(** ** The configurations of the demonstration *)

Definition IStorageToken : string := "IStorage".
Definition ILoggerToken : string := "ILogger".
Definition IProcessorToken : string := "IProcessor".

(** A class whose constructor only stores its parameters, as the classes
    of the demonstration do. *)
Definition plainClass (n : string) : ClassType :=
  mkClass n (fun _ => Done (Yield VUndefined)).

Definition configureProduction (st : State) : State :=
  register IProcessorToken (plainClass "AdvancedProcessor") Scoped
           [ILoggerToken; IStorageToken] []
    (register ILoggerToken (plainClass "FileLogger") Singleton [] [VString "prod.log"]
       (register IStorageToken (plainClass "FileStorage") Singleton []
                 [VString "prod.db"] st)).

Definition configureDebug (st : State) : State :=
  register IProcessorToken (plainClass "SimpleProcessor") PerRequest
           [ILoggerToken; IStorageToken] []
    (register ILoggerToken (plainClass "ConsoleLogger") PerRequest [] []
       (registerFactory IStorageToken (Done (Fresh (mkObj "DatabaseStorage" [])))
                        Singleton st)).

(** ** Sequences of operations on one container *)

Inductive Op :=
| OpRegister (token : string) (classType : ClassType) (lifestyle : LifeStyle)
             (dependencies : list string) (constructorParams : list Value)
| OpRegisterFactory (token : string) (f : Factory) (lifestyle : LifeStyle)
| OpCreateScope
| OpGetInstance (depth : nat) (token : string) (scopeCache : option nat).

Definition step (o : Op) (st : State) : State :=
  match o with
  | OpRegister t c l ds ps => register t c l ds ps st
  | OpRegisterFactory t f l => registerFactory t f l st
  | OpCreateScope => snd (createScope st)
  | OpGetInstance d t sc => snd (getInstance d t sc st)
  end.

Definition run (ops : list Op) (st : State) : State :=
  foldl (fun st o => step o st) st ops.

(** ** What a resolution may change *)

(** [ext st st'] : [st'] is [st] after some resolution steps.  The
    registry is the same, caches and records only grow, and they grow
    only where the lifestyle of a token says so. *)
Record ext (st st' : State) : Prop := mkExt {
  ext_container : container st' = container st;
  ext_singletons : ∀ t v,
    singletons st !! t = Some v → singletons st' !! t = Some v;
  ext_singletons_new : ∀ t,
    singletons st !! t = None → is_Some (singletons st' !! t) →
    ∃ r, container st !! t = Some r ∧ lifestyle r = Singleton;
  ext_scopes : ∀ s t v,
    scopeOf st s !! t = Some v → scopeOf st' s !! t = Some v;
  ext_scopes_new : ∀ s t,
    scopeOf st s !! t = None → is_Some (scopeOf st' s !! t) →
    ∃ r, container st !! t = Some r ∧ lifestyle r = Scoped;
  ext_scopes_dom : ∀ s, is_Some (scopes st !! s) → is_Some (scopes st' !! s);
  ext_heap : heap st `prefix_of` heap st';
  ext_calls : calls st `prefix_of` calls st'
}.

(** The token a registration operation writes. *)
Definition registeredToken (o : Op) : option string :=
  match o with
  | OpRegister t _ _ _ _ => Some t
  | OpRegisterFactory t _ _ => Some t
  | _ => None
  end.

(** The Registration a registration operation stores. *)
Definition registrationOf (o : Op) : option Registration :=
  match o with
  | OpRegister _ c l ds ps => Some (mkRegistration (Some c) l ds ps None)
  | OpRegisterFactory _ f l => Some (mkRegistration None l [] [] (Some f))
  | _ => None
  end.

(** The bodies a Registration can run: its factory, or the constructor
    of its class on some argument list. *)
Definition bodies (reg : Registration) (p : Prog) : Prop :=
  match factory reg with
  | Some f => p = f
  | None =>
      match implementation reg with
      | Some c => ∃ args, p = ctor c args
      | None => False
      end
  end.

(** A body that never resolves through the injector. *)
Fixpoint plainProg (p : Prog) : Prop :=
  match p with
  | Done _ => True
  | Resolve _ _ _ => False
  | Look k => ∀ l h, plainProg (k l h)
  end.

(** A registry none of whose builders resolves through the injector. *)
Definition plain (regs : gmap string Registration) : Prop :=
  ∀ t reg p, regs !! t = Some reg → bodies reg p → plainProg p.

(** A body that may resolve through the scope handle [s]. *)
Fixpoint usesScope (s : nat) (p : Prog) : Prop :=
  match p with
  | Done _ => False
  | Resolve _ scopeCache k => scopeCache = Some s ∨ ∃ v, usesScope s (k v)
  | Look k => ∃ l h, usesScope s (k l h)
  end.

(** A body that may resolve the token [t]. *)
Fixpoint asks (t : string) (p : Prog) : Prop :=
  match p with
  | Done _ => False
  | Resolve t' _ k => t' = t ∨ ∃ v, asks t (k v)
  | Look k => ∃ l h, asks t (k l h)
  end.

(** The scope handles the builders of a registry hold. *)
Definition builderScope (regs : gmap string Registration) (s : nat) : Prop :=
  ∃ t reg p, regs !! t = Some reg ∧ bodies reg p ∧ usesScope s p.

(** A registry none of whose builders holds a scope handle. *)
Definition scopeless (regs : gmap string Registration) : Prop :=
  ∀ s, ¬ builderScope regs s.

(** A body all of whose ends pass the given test. *)
Fixpoint ends (ok : Outcome → Prop) (p : Prog) : Prop :=
  match p with
  | Done o => ok o
  | Resolve _ _ k => ∀ v, ends ok (k v)
  | Look k => ∀ l h, ends ok (k l h)
  end.

(** An end that makes the result of the builder a new object: a factory
    hands back an object it has just made; a constructor does the same
    or returns no object, so that the object [new] made is the result. *)
Definition makesNew (viaNew : bool) (o : Outcome) : Prop :=
  match o with
  | Yield (VObject _) => False
  | Yield _ => viaNew = true
  | _ => True
  end.

(** A recipe that makes a new object whenever it completes. *)
Definition allocates (reg : Registration) : Prop :=
  match factory reg with
  | Some f => ends (makesNew false) f
  | None =>
      match implementation reg with
      | Some c => ∀ args, ends (makesNew true) (ctor c args)
      | None => True
      end
  end.

(** An end of a constructor that leaves the object [new] made as the
    result. *)
Definition keepsThis (o : Outcome) : Prop :=
  match o with
  | Yield (VObject _) => False
  | Fresh _ => False
  | _ => True
  end.

(** No Scoped registration is met when the declared dependencies of a
    token are followed to the given depth.  What the body of a builder
    resolves does not depend on the scope context of the caller. *)
Fixpoint scopeFree (depth : nat) (regs : gmap string Registration)
    (token : string) : bool :=
  match depth with
  | 0 => true
  | S d =>
      match regs !! token with
      | None => true
      | Some r =>
          match lifestyle r with
          | Scoped => false
          | _ =>
              match factory r with
              | Some _ => true
              | None => forallb (scopeFree d regs) (dependencies r)
              end
          end
      end
  end.

(** What an error says about the state the resolution started in. *)
Definition errSound (st : State) (e : Error) : Prop :=
  match e with
  | NotRegistered t => container st !! t = None
  | NoActiveScope =>
      ∃ t reg, container st !! t = Some reg ∧ lifestyle reg = Scoped
  | _ => True
  end.

(** ** Tokens whose build is under way *)

(** A token that a resolution has to build: nothing is cached for it where
    its lifestyle would look. *)
Definition uncached (sc : option nat) (st : State) (b : string)
    (reg : Registration) : Prop :=
  match lifestyle reg with
  | PerRequest => True
  | Singleton => singletons st !! b = None
  | Scoped => ∀ s, sc = Some s → scopeOf st s !! b = None
  end.

(** [leads sc st T b] : building [b] in [st] asks, through constructor
    dependencies that have to be built themselves, for [T]. *)
Inductive leads (sc : option nat) (st : State) (T : string) : string → Prop :=
| leads_direct b reg :
    container st !! b = Some reg → factory reg = None →
    uncached sc st b reg → T ∈ dependencies reg →
    leads sc st T b
| leads_via b reg dep :
    container st !! b = Some reg → factory reg = None →
    uncached sc st b reg → dep ∈ dependencies reg →
    leads sc st T dep →
    leads sc st T b.

(** A set of tokens each of which has to be built and depends on another
    member of the set. *)
Definition cyclic (B : string → Prop) (sc : option nat) (st : State) : Prop :=
  ∀ b, B b →
    ∃ reg dep, container st !! b = Some reg ∧ factory reg = None ∧
               uncached sc st b reg ∧ dep ∈ dependencies reg ∧ B dep.

(** A place where an instance can be cached: the singleton cache, or the
    cache of a scope. *)
Inductive CacheKey :=
| InSingletons (token : string)
| InScope (s : nat) (token : string).

Definition keyToken (k : CacheKey) : string :=
  match k with
  | InSingletons t => t
  | InScope _ t => t
  end.

Definition slot (k : CacheKey) (st : State) : option Value :=
  match k with
  | InSingletons t => singletons st !! t
  | InScope s t => scopeOf st s !! t
  end.

(** What a constructor gets for a dependency resolved in scope [s]: the
    cached singleton, or the instance cached in that scope. *)
Definition injected (s : nat) (st : State) (dep : string) (v : Value) : Prop :=
  ∀ r, container st !! dep = Some r →
    match lifestyle r with
    | Singleton => singletons st !! dep = Some v
    | Scoped => scopeOf st s !! dep = Some v
    | PerRequest => True
    end.

(** ** Concrete containers *)

Definition debugState : State := configureDebug emptyState.
Definition prodState : State := configureProduction emptyState.

(** The production container with two scopes created. *)
Definition prodScoped : State := snd (createScope (snd (createScope prodState))).

(** A factory that hands back one captured object:
    [const shared = new DatabaseStorage();
     injector.registerFactory(token, () => shared, lifestyle)]. *)
Definition sharedFactory : Factory := Done (Yield (VObject 0)).

Definition sharedState (l : LifeStyle) : State :=
  registerFactory "Shared" sharedFactory l
    (set_heap (fun _ => [mkObj "DatabaseStorage" []]) emptyState).

(** A class whose constructor returns one captured object:
    [const pooled = new AdvancedProcessor(logger, storage);
     class PooledProcessor { constructor(...) { return pooled; } }],
    registered in place of the processor of the production container,
    with two scopes created. *)
Definition PooledProcessor : ClassType :=
  mkClass "PooledProcessor" (fun _ => Done (Yield (VObject 0))).

Definition pooledState : State :=
  snd (createScope (snd (createScope
    (register IProcessorToken PooledProcessor Scoped
              [ILoggerToken; IStorageToken] []
       (configureProduction
          (set_heap (fun _ => [mkObj "AdvancedProcessor" []]) emptyState)))))).

(** A factory that, the first time it is called, resolves its own token
    through the injector:
    [let first = true;
     injector.registerFactory(X, () => {
       if (first) { first = false; return new Node(injector.getInstance(X)); }
       return new Node();
     }, Singleton)]. *)
Definition reentrantFactory : Factory :=
  Look (fun l _ =>
    if decide (length l ≤ 1) then
      Resolve "X" None (fun v => Done (Fresh (mkObj "Node" [v])))
    else Done (Fresh (mkObj "Node" []))).

Definition reentrantState : State :=
  registerFactory "X" reentrantFactory Singleton emptyState.

(** The same through a scope handle the factory holds:
    [const scope = injector.createScope();
     injector.registerFactory(X, () => {
       if (first) { first = false; return new Node(scope.resolve(X)); }
       return new Node();
     }, Scoped)]. *)
Definition reentrantScopedFactory : Factory :=
  Look (fun l _ =>
    if decide (length l ≤ 1) then
      Resolve "X" (Some 0) (fun v => Done (Fresh (mkObj "Node" [v])))
    else Done (Fresh (mkObj "Node" []))).

Definition reentrantScopedState : State :=
  registerFactory "X" reentrantScopedFactory Scoped
    (snd (createScope emptyState)).

(** A Scoped consumer of a Singleton logger whose factory, on its first
    call, resolves the consumer through the second of two scopes:
    [const other = injector.createScope();
     injector.registerFactory(ILogger, () => {
       if (first) { first = false; other.resolve(Consumer); }
       return new ConsoleLogger();
     }, Singleton)]. *)
Definition crossScopeState : State :=
  register "Consumer" (plainClass "Consumer") Scoped [ILoggerToken] []
    (registerFactory ILoggerToken
       (Look (fun l _ =>
          if decide (length l ≤ 1) then
            Resolve "Consumer" (Some 1)
                    (fun _ => Done (Fresh (mkObj "ConsoleLogger" [])))
          else Done (Fresh (mkObj "ConsoleLogger" []))))
       Singleton
       (snd (createScope (snd (createScope emptyState))))).

(** A Scoped handler on top of the production container that needs the
    Singleton logger and a Scoped session, with two scopes created. *)
Definition sessionState : State :=
  snd (createScope (snd (createScope
    (register "Handler" (plainClass "Handler") Scoped
              [ILoggerToken; "Session"] []
       (register "Session" (plainClass "Session") Scoped [] [] prodState))))).

(** A Singleton index on top of the production container that needs the
    logger and a token nobody registered. *)
Definition brokenState : State :=
  register "Index" (plainClass "Index") Singleton [ILoggerToken; "Missing"] []
    prodState.

(** A PerRequest report that needs a token nobody registered, a PerRequest
    job that needs a Scoped session, and a Singleton cache that needs the
    same Scoped session. *)
Definition danglingState : State :=
  register "Cache" (plainClass "Cache") Singleton ["Session"] []
    (register "Job" (plainClass "Job") PerRequest ["Session"] []
       (register "Session" (plainClass "Session") Scoped [] []
          (register "Report" (plainClass "Report") PerRequest ["Missing"] []
             emptyState))).

(** On top of these, with a scope created: a PerRequest factory that
    resolves the Scoped session without scope, and a PerRequest factory
    that resolves a token nobody registered:
    [injector.registerFactory(Relay, () => injector.getInstance(Session));
     injector.registerFactory(Probe, () => injector.getInstance(Missing))]. *)
Definition relayState : State :=
  registerFactory "Probe" (Resolve "Missing" None (fun v => Done (Yield v)))
                  PerRequest
    (registerFactory "Relay" (Resolve "Session" None (fun v => Done (Yield v)))
                     PerRequest
       (snd (createScope danglingState))).

(** A PerRequest class whose constructor returns one captured object. *)
Definition pooledRequestState : State :=
  register "Pooled" PooledProcessor PerRequest [] []
    (set_heap (fun _ => [mkObj "AdvancedProcessor" []]) emptyState).

(** A constructor-style Registration with two dependencies and one
    literal parameter, on top of the production container. *)
Definition taggedState : State :=
  register "Tagged" (plainClass "TaggedProcessor") PerRequest
           [ILoggerToken; IStorageToken] [VString "tag"] prodState.

(** ** Tokens a resolution does not come by *)

(** [avoids depth regs target from] : following the declared dependencies
    of constructor-style Registrations from [from], to the given depth,
    never meets [target].  It says nothing of what the bodies of the
    builders resolve. *)
Fixpoint avoids (depth : nat) (regs : gmap string Registration)
    (target from : string) : bool :=
  negb (bool_decide (from = target)) &&
  match depth with
  | 0 => true
  | S d =>
      match regs !! from with
      | None => true
      | Some r =>
          match factory r with
          | Some _ => true
          | None => forallb (avoids d regs target) (dependencies r)
          end
      end
  end.

(** ** The classes of the demonstration *)

(** A [private] constructor parameter of type [string], read back from the
    object.  [None] when the object was built with something else there,
    which the signatures of the classes do not allow. *)
Definition stringField (o : Obj) (i : nat) : option string :=
  match ctorArgs o !! i with
  | Some (VString s) => Some s
  | _ => None
  end.

Definition objectAt (h : list Obj) (v : Value) : option Obj :=
  match v with
  | VObject a => h !! a
  | _ => None
  end.

(** [logger.log(message)] for [ConsoleLogger] and [FileLogger]: the lines
    written to the console. *)
Definition ILogger_log (h : list Obj) (logger : Value) (message : string)
    : option (list string) :=
  match objectAt h logger with
  | Some o =>
      if decide (className o = "ConsoleLogger") then
        Some ["[Console]: " +:+ message]
      else if decide (className o = "FileLogger") then
        match stringField o 0 with
        | Some fileName => Some ["[File " +:+ fileName +:+ "]: " +:+ message]
        | None => None
        end
      else None
  | None => None
  end.

(** [storage.save(data)] for [FileStorage] and [DatabaseStorage]. *)
Definition IStorage_save (h : list Obj) (storage : Value) (data : string)
    : option (list string) :=
  match objectAt h storage with
  | Some o =>
      if decide (className o = "FileStorage") then
        match stringField o 0 with
        | Some path => Some ["Saving to file " +:+ path +:+ ": " +:+ data]
        | None => None
        end
      else if decide (className o = "DatabaseStorage") then
        Some ["Saving to database: " +:+ data]
      else None
  | None => None
  end.

(** [processor.process(data)] for [AdvancedProcessor]: it logs, then
    saves, through the logger and the storage it was constructed with. *)
Definition AdvancedProcessor_process (h : list Obj) (processor : Value)
    (data : string) : option (list string) :=
  match objectAt h processor with
  | Some o =>
      if decide (className o = "AdvancedProcessor") then
        match ctorArgs o !! 0, ctorArgs o !! 1 with
        | Some logger, Some storage =>
            match ILogger_log h logger ("Advanced processing: " +:+ data),
                  IStorage_save h storage ("[PROCESSED] " +:+ data) with
            | Some l1, Some l2 => Some (l1 ++ l2)
            | _, _ => None
            end
        | _, _ => None
        end
      else None
  | None => None
  end.

(** ** The logger *)

(** What the logger and its handlers do to the outside. *)
Inductive Output :=
| ConsoleLog (line : string)
| ConsoleError (line : string)
| Effect (channel data : string).

(** [String.prototype.includes]. *)
Fixpoint includes (text pattern : string) : bool :=
  String.prefix pattern text ||
  match text with
  | EmptyString => false
  | String _ rest => includes rest pattern
  end.

(** [interface ILogFilter]. *)
Record ILogFilter := mkFilter { match_ : string → bool }.

Definition SimpleLogFilter (pattern : string) : ILogFilter :=
  mkFilter (fun text => includes text pattern).

(** [ReLogFilter]: the regular expression is given by its [test], for
    an expression without the flags that make [test] keep a position
    between calls. *)
Definition ReLogFilter (regex : string → bool) : ILogFilter :=
  mkFilter regex.

(** How a call of [handle] ends: it returns; it throws a value whose
    [message] the template of the logger renders as the given text (for
    a value without [message], as "undefined"); or it throws [null] or
    [undefined], of which no property can be read. *)
Inductive HandlerEnd :=
| Returned
| Threw (message : string)
| ThrewNullish.

(** [interface ILogHandler]: what a handler does to the outside, and how
    the call ends. *)
Record ILogHandler := mkHandler { handle : string → list Output * HandlerEnd }.

Definition ConsoleHandler : ILogHandler :=
  mkHandler (fun text => ([ConsoleLog ("[Console] " +:+ text)], Returned)).

(** [class Logger]. *)
Record Logger := mkLogger {
  filters : list ILogFilter;
  handlers : list ILogHandler
}.

(** [filters.length === 0 || filters.some(filter => filter.match(text))]. *)
Definition passed (l : Logger) (text : string) : bool :=
  (length (filters l) =? 0) || existsb (fun filter => match_ filter text) (filters l).

(** How a call of [log] ends: it returns, or the [TypeError] of reading
    [err.message] of [null] or [undefined] leaves the [catch] block. *)
Inductive LogEnd :=
| Completed
| Aborted.

(** One round of [try { handler.handle(text) } catch (err) { ... }]. *)
Definition tryHandle (handler : ILogHandler) (text : string)
    : list Output * LogEnd :=
  match handle handler text with
  | (out, Returned) => (out, Completed)
  | (out, Threw message) =>
      (out ++ [ConsoleError ("[Logger] Ошибка обработчика: " +:+ message)],
       Completed)
  | (out, ThrewNullish) => (out, Aborted)
  end.

(** [this.handlers.forEach((handler) => { try ... catch ... })]: what
    leaves the [catch] block ends the loop. *)
Fixpoint deliver (hs : list ILogHandler) (text : string)
    : list Output * LogEnd :=
  match hs with
  | [] => ([], Completed)
  | handler :: rest =>
      match tryHandle handler text with
      | (out, Completed) =>
          let (out', e) := deliver rest text in (out ++ out', e)
      | (out, Aborted) => (out, Aborted)
      end
  end.

(** [log(text)]. *)
Definition log (l : Logger) (text : string) : list Output * LogEnd :=
  if passed l text then deliver (handlers l) text
  else ([ConsoleLog ("[Logger] Сообщение отфильтровано: " +:+ text)], Completed).

(** [addFilter(filter)] and [addHandler(handler)]. *)
Definition addFilter (filter : ILogFilter) (l : Logger) : Logger :=
  mkLogger (filters l ++ [filter]) (handlers l).

Definition addHandler (handler : ILogHandler) (l : Logger) : Logger :=
  mkLogger (filters l) (handlers l ++ [handler]).

(** ** Concrete containers with cycles, and concrete loggers *)

(** Two constructor-style Registrations that name each other first. *)
Definition cycleState : State :=
  register "A" (plainClass "A") PerRequest ["B"] []
    (register "B" (plainClass "B") Singleton ["A"] [] emptyState).

(** A Registration that asks for itself after a dependency that can be
    built. *)
Definition loopState : State :=
  register "Node" (plainClass "Node") PerRequest ["Leaf"; "Node"] []
    (register "Leaf" (plainClass "Leaf") PerRequest [] [] emptyState).

(** The rank of the production tokens: the processor above its two
    dependencies. *)
Definition prodRank (t : string) : nat :=
  if decide (t = IProcessorToken) then 1 else 0.

(** A handler that writes to a file and then fails. *)
Definition failingHandler : ILogHandler :=
  mkHandler (fun text => ([Effect "file" text], Threw "disk full")).

Definition errorLogger : Logger :=
  mkLogger [SimpleLogFilter "ERROR"] [failingHandler; ConsoleHandler].

(** A handler that writes to a socket and then throws [null]. *)
Definition nullHandler : ILogHandler :=
  mkHandler (fun text => ([Effect "socket" text], ThrewNullish)).

Definition abortingLogger : Logger :=
  mkLogger [] [failingHandler; nullHandler; ConsoleHandler].

(** * Properties *)

Lemma ext_refl st : ext st st.
Proof.
  split; auto.
  - intros t Hn [v Hv]. congruence.
  - intros s t Hn [v Hv]. congruence.
Qed.

Lemma ext_trans st1 st2 st3 : ext st1 st2 → ext st2 st3 → ext st1 st3.
Proof.
  intros H12 H23. split.
  - rewrite (ext_container _ _ H23). apply (ext_container _ _ H12).
  - intros t v Hv. eapply ext_singletons; [exact H23|].
    eapply ext_singletons; [exact H12|exact Hv].
  - intros t Hn Hs.
    destruct (singletons st2 !! t) as [v|] eqn:E2.
    + eapply ext_singletons_new; [exact H12|exact Hn|]. rewrite E2. eauto.
    + destruct (ext_singletons_new _ _ H23 t E2 Hs) as (r & Hr & Hl).
      rewrite (ext_container _ _ H12) in Hr. eauto.
  - intros s t v Hv. eapply ext_scopes; [exact H23|].
    eapply ext_scopes; [exact H12|exact Hv].
  - intros s t Hn Hs.
    destruct (scopeOf st2 s !! t) as [v|] eqn:E2.
    + eapply ext_scopes_new; [exact H12|exact Hn|]. rewrite E2. eauto.
    + destruct (ext_scopes_new _ _ H23 s t E2 Hs) as (r & Hr & Hl).
      rewrite (ext_container _ _ H12) in Hr. eauto.
  - intros s Hs. apply (ext_scopes_dom _ _ H23), (ext_scopes_dom _ _ H12), Hs.
  - etrans; [apply (ext_heap _ _ H12)|apply (ext_heap _ _ H23)].
  - etrans; [apply (ext_calls _ _ H12)|apply (ext_calls _ _ H23)].
Qed.

(** Inversion of a sequenced computation. *)
Lemma bind_inv {A B} (m : M A) (k : A → M B) st r st' :
  bind m k st = (r, st') →
  (∃ a st1, m st = (Ok a, st1) ∧ k a st1 = (r, st')) ∨
  (∃ e, m st = (Throw e, st') ∧ r = Throw e).
Proof.
  unfold bind. destruct (m st) as [[a|e] st1]; intros H.
  - left. eauto.
  - right. inversion H; subst. eauto.
Qed.

Lemma bind_ok {A B} (m : M A) (k : A → M B) st a st1 :
  m st = (Ok a, st1) → bind m k st = k a st1.
Proof. unfold bind. by intros ->. Qed.

Lemma bind_throw {A B} (m : M A) (k : A → M B) st e st1 :
  m st = (Throw e, st1) → bind m k st = (Throw e, st1).
Proof. unfold bind. by intros ->. Qed.

(** Recording a call and allocating an object extend the state. *)
Lemma ext_log st c : ext st (set_calls (fun l => l ++ [c]) st).
Proof.
  split; simpl; auto.
  - intros t Hn [v Hv]. congruence.
  - intros s t Hn [v Hv]. unfold scopeOf in *. simpl in *. congruence.
  - by apply prefix_app_r.
Qed.

Lemma ext_alloc st o : ext st (set_heap (fun _ => heap st ++ [o]) st).
Proof.
  split; simpl; auto.
  - intros t Hn [v Hv]. congruence.
  - intros s t Hn [v Hv]. unfold scopeOf in *. simpl in *. congruence.
  - by apply prefix_app_r.
Qed.

(** ** The two builders, case by case *)

(** The state in which the body of a factory starts, and the state in
    which the body of a constructor starts. *)
Lemma callFactory_eq rec f st :
  callFactory rec f st =
  match runProg rec f (set_calls (fun l => l ++ [CallFactory]) st) with
  | (Ok (Yield v), st1) => (Ok v, st1)
  | (Ok (Fresh ob), st1) =>
      (Ok (VObject (length (heap st1))), set_heap (fun _ => heap st1 ++ [ob]) st1)
  | (Ok Raise, st1) => (Throw BuildFailure, st1)
  | (Throw e, st1) => (Throw e, st1)
  end.
Proof.
  unfold callFactory, bind, modify, gets, ret, throw. simpl.
  destruct (runProg rec f _) as [[[v|ob|]|e] st1]; done.
Qed.

Lemma construct_eq rec c args st :
  construct rec (Some c) args st =
  match runProg rec (ctor c args)
          (set_heap (fun _ => heap st ++ [mkObj (cname c) args])
             (set_calls (fun l => l ++ [CallNew (cname c) args]) st)) with
  | (Ok (Yield (VObject b)), st1) => (Ok (VObject b), st1)
  | (Ok (Yield _), st1) => (Ok (VObject (length (heap st))), st1)
  | (Ok (Fresh ob), st1) =>
      (Ok (VObject (length (heap st1))), set_heap (fun _ => heap st1 ++ [ob]) st1)
  | (Ok Raise, st1) => (Throw BuildFailure, st1)
  | (Throw e, st1) => (Throw e, st1)
  end.
Proof.
  unfold construct, bind, modify, gets, ret, throw. simpl.
  destruct (runProg rec (ctor c args) _) as [[[v|ob|]|e] st1]; try done.
  by destruct v.
Qed.

Lemma construct_none rec args st :
  construct rec None args st = (Throw NotAConstructor, st).
Proof. done. Qed.

(** ** A resolution only extends the state *)

Section ResolutionExt.
Variable rec : string → option nat → M Value.
Hypothesis rec_ext : ∀ t sc st r st', rec t sc st = (r, st') → ext st st'.

Lemma runProg_ext p st r st' :
  runProg rec p st = (r, st') → ext st st'.
Proof.
  revert st r st'. induction p as [o|t sc k IH|k IH]; intros st r st' H;
    simpl in H.
  - inversion H; subst. apply ext_refl.
  - apply bind_inv in H as [(v & st1 & H1 & H2)|(e & H1 & ->)].
    + eapply ext_trans; [by eapply rec_ext|by eapply IH].
    + by eapply rec_ext.
  - by eapply IH.
Qed.

Lemma callFactory_ext f st r st' :
  callFactory rec f st = (r, st') → ext st st'.
Proof.
  rewrite callFactory_eq.
  destruct (runProg rec f _) as [[[v|ob|]|e] st1] eqn:E;
    apply runProg_ext in E; intros H; inversion H; subst; clear H;
    (eapply ext_trans; [apply ext_log|]); try done.
  eapply ext_trans; [exact E|apply ext_alloc].
Qed.

Lemma construct_ext impl args st r st' :
  construct rec impl args st = (r, st') → ext st st'.
Proof.
  destruct impl as [c|].
  2:{ intros H. inversion H; subst. apply ext_refl. }
  rewrite construct_eq.
  assert (H0 : ext st (set_heap (fun _ => heap st ++ [mkObj (cname c) args])
                  (set_calls (fun l => l ++ [CallNew (cname c) args]) st))).
  { eapply ext_trans; [apply ext_log|]. apply (ext_alloc (set_calls _ st)). }
  destruct (runProg rec (ctor c args) _) as [[[v|ob|]|e] st1] eqn:E;
    apply runProg_ext in E.
  - destruct v; intros H; inversion H; subst; by eapply ext_trans.
  - intros H; inversion H; subst.
    eapply ext_trans; [exact H0|]. eapply ext_trans; [exact E|apply ext_alloc].
  - intros H; inversion H; subst; by eapply ext_trans.
  - intros H; inversion H; subst; by eapply ext_trans.
Qed.

Lemma mapM_ext sc ds st r st' :
  mapM (fun d => rec d sc) ds st = (r, st') → ext st st'.
Proof.
  revert st r st'. induction ds as [|d ds IH]; intros st r st' H; simpl in H.
  - inversion H; subst. apply ext_refl.
  - apply bind_inv in H as [(a & st1 & H1 & H2)|(e & H1 & ->)].
    + apply rec_ext in H1.
      apply bind_inv in H2 as [(b & st2 & H2 & H3)|(e & H2 & ->)].
      * inversion H3; subst. eapply ext_trans; eauto.
      * eapply ext_trans; eauto.
    + eauto.
Qed.

Lemma createInstance_ext reg sc st r st' :
  createInstance rec reg sc st = (r, st') → ext st st'.
Proof.
  unfold createInstance. destruct (factory reg) as [f|].
  - apply callFactory_ext.
  - intros H. apply bind_inv in H as [(a & st1 & H1 & H2)|(e & H1 & ->)].
    + eapply ext_trans; [eapply mapM_ext; eauto|eapply construct_ext; eauto].
    + eapply mapM_ext; eauto.
Qed.
End ResolutionExt.

Lemma ext_cache_singleton st st1 t reg v :
  ext st st1 →
  container st !! t = Some reg → lifestyle reg = Singleton →
  singletons st !! t = None →
  ext st (set_singletons (insert t v) st1).
Proof.
  intros H Hreg Hl Hn. split; simpl.
  - apply (ext_container _ _ H).
  - intros t' v' Hv'. destruct (decide (t = t')) as [<-|Hne]; [congruence|].
    rewrite lookup_insert_ne by done. by apply (ext_singletons _ _ H).
  - intros t' Hn' Hs. destruct (decide (t = t')) as [<-|Hne]; [eauto|].
    rewrite lookup_insert_ne in Hs by done.
    by apply (ext_singletons_new _ _ H).
  - apply (ext_scopes _ _ H).
  - apply (ext_scopes_new _ _ H).
  - apply (ext_scopes_dom _ _ H).
  - apply (ext_heap _ _ H).
  - apply (ext_calls _ _ H).
Qed.

Lemma scopeOf_set_scopes_insert st s m s' :
  scopeOf (set_scopes (insert s m) st) s' = if decide (s = s') then m else scopeOf st s'.
Proof.
  unfold scopeOf. simpl. case_decide as E.
  - subst. by rewrite lookup_insert_eq.
  - by rewrite lookup_insert_ne.
Qed.

Lemma ext_cache_scoped s st st1 t reg v :
  ext st st1 →
  container st !! t = Some reg → lifestyle reg = Scoped →
  scopeOf st s !! t = None →
  ext st (set_scopes (insert s (<[t := v]> (scopeOf st1 s))) st1).
Proof.
  intros H Hreg Hl Hn. split; try (simpl; apply H).
  - intros s' t' v' Hv'. rewrite scopeOf_set_scopes_insert.
    case_decide as E; [subst s'|by apply (ext_scopes _ _ H)].
    destruct (decide (t = t')) as [<-|Hne]; [congruence|].
    rewrite lookup_insert_ne by done. by apply (ext_scopes _ _ H).
  - intros s' t' Hn' Hs. rewrite scopeOf_set_scopes_insert in Hs.
    case_decide as E; [subst s'|by apply (ext_scopes_new _ _ H s')].
    destruct (decide (t = t')) as [<-|Hne]; [eauto|].
    rewrite lookup_insert_ne in Hs by done.
    by apply (ext_scopes_new _ _ H s).
  - intros s' Hs'. simpl. destruct (decide (s = s')) as [<-|Hne].
    + rewrite lookup_insert_eq. eauto.
    + rewrite lookup_insert_ne by done. by apply (ext_scopes_dom _ _ H).
Qed.

Lemma resolveScoped_eq rec t reg s st :
  resolveScoped rec t reg s st =
  match scopeOf st s !! t with
  | Some v => (Ok v, st)
  | None =>
      match createInstance rec reg (Some s) st with
      | (Ok v, st1) =>
          (Ok v, set_scopes (insert s (<[t := v]> (scopeOf st1 s))) st1)
      | (Throw e, st1) => (Throw e, st1)
      end
  end.
Proof.
  unfold resolveScoped, bind, gets, modify, ret. simpl.
  destruct (scopeOf st s !! t) as [v|] eqn:E.
  - rewrite bool_decide_true by eauto. simpl. by rewrite E.
  - rewrite bool_decide_false by (by intros [? ?]). simpl.
    destruct (createInstance rec reg (Some s) st) as [[v|e] st1]; [|done].
    simpl. rewrite scopeOf_set_scopes_insert, decide_True by done.
    by rewrite lookup_insert_eq.
Qed.

Lemma getInstanceBody_eq rec t sc st :
  getInstanceBody rec t sc st =
  match container st !! t with
  | None => (Throw (NotRegistered t), st)
  | Some reg =>
      match lifestyle reg with
      | Singleton => resolveSingleton rec t reg sc st
      | Scoped =>
          match sc with
          | None => (Throw NoActiveScope, st)
          | Some s => resolveScoped rec t reg s st
          end
      | PerRequest => createInstance rec reg sc st
      end
  end.
Proof.
  unfold getInstanceBody, bind, gets, throw. simpl.
  destruct (container st !! t) as [reg|]; [|done].
  destruct (lifestyle reg); try done. by destruct sc.
Qed.

Lemma resolveSingleton_eq rec t reg sc st :
  resolveSingleton rec t reg sc st =
  match singletons st !! t with
  | Some v => (Ok v, st)
  | None =>
      match createInstance rec reg sc st with
      | (Ok v, st1) => (Ok v, set_singletons (insert t v) st1)
      | (Throw e, st1) => (Throw e, st1)
      end
  end.
Proof.
  unfold resolveSingleton, bind, gets, modify, ret. simpl.
  destruct (singletons st !! t) as [v|] eqn:E.
  - rewrite bool_decide_true by eauto. simpl. by rewrite E.
  - rewrite bool_decide_false by (by intros [? ?]). simpl.
    destruct (createInstance rec reg sc st) as [[v|e] st1]; [|done].
    simpl. by rewrite lookup_insert_eq.
Qed.

Section ResolutionExt2.
Variable rec : string → option nat → M Value.
Hypothesis rec_ext : ∀ t sc st r st', rec t sc st = (r, st') → ext st st'.

Lemma resolveSingleton_ext t reg sc st r st' :
  container st !! t = Some reg → lifestyle reg = Singleton →
  resolveSingleton rec t reg sc st = (r, st') → ext st st'.
Proof.
  intros Hreg Hl. rewrite resolveSingleton_eq.
  destruct (singletons st !! t) as [w|] eqn:Hn.
  - intros H. inversion H; subst. apply ext_refl.
  - destruct (createInstance rec reg sc st) as [[w|e] st1] eqn:Hb;
      apply createInstance_ext in Hb; try done;
      intros H; inversion H; subst; [|done].
    by eapply ext_cache_singleton.
Qed.

Lemma resolveScoped_ext t reg s st r st' :
  container st !! t = Some reg → lifestyle reg = Scoped →
  resolveScoped rec t reg s st = (r, st') → ext st st'.
Proof.
  intros Hreg Hl. rewrite resolveScoped_eq.
  destruct (scopeOf st s !! t) as [w|] eqn:Hn.
  - intros H. inversion H; subst. apply ext_refl.
  - destruct (createInstance rec reg (Some s) st) as [[w|e] st1] eqn:Hb;
      apply createInstance_ext in Hb; try done;
      intros H; inversion H; subst; [|done].
    by apply (ext_cache_scoped s st st1 t reg).
Qed.

Lemma getInstanceBody_ext t sc st r st' :
  getInstanceBody rec t sc st = (r, st') → ext st st'.
Proof.
  rewrite getInstanceBody_eq.
  destruct (container st !! t) as [reg|] eqn:Hreg.
  - destruct (lifestyle reg) eqn:Hl.
    + by apply createInstance_ext.
    + destruct sc as [s|].
      * by eapply resolveScoped_ext.
      * intros H. inversion H; subst. apply ext_refl.
    + by eapply resolveSingleton_ext.
  - intros H. inversion H; subst. apply ext_refl.
Qed.
End ResolutionExt2.

Lemma getInstance_ext d t sc st r st' :
  getInstance d t sc st = (r, st') → ext st st'.
Proof.
  revert t sc st r st'. induction d as [|d IH]; intros t sc st r st'; simpl.
  - intros H. inversion H; subst. apply ext_refl.
  - by apply getInstanceBody_ext.
Qed.

Lemma getInstance_rec_ext d :
  ∀ t sc st r st', getInstance d t sc st = (r, st') → ext st st'.
Proof. intros. by eapply getInstance_ext. Qed.

(** ** Which scope caches a resolution writes *)

Lemma usesScope_registered regs t reg p s :
  regs !! t = Some reg → bodies reg p → usesScope s p → builderScope regs s.
Proof. intros. exists t, reg, p. done. Qed.

Section ResolutionTouch.
Variable regs : gmap string Registration.
Variable rec : string → option nat → M Value.
Hypothesis rec_ext : ∀ t sc st r st', rec t sc st = (r, st') → ext st st'.
Hypothesis rec_touch : ∀ t sc st r st' s t',
  container st = regs → rec t sc st = (r, st') →
  scopeOf st s !! t' = None → is_Some (scopeOf st' s !! t') →
  sc = Some s ∨ builderScope regs s.

Lemma runProg_touch p st r st' s t' :
  container st = regs → (∀ s0, usesScope s0 p → builderScope regs s0) →
  runProg rec p st = (r, st') →
  scopeOf st s !! t' = None → is_Some (scopeOf st' s !! t') →
  builderScope regs s.
Proof.
  revert st r st'. induction p as [o|t sc k IH|k IH];
    intros st r st' Hst Hp H Hn Hs; simpl in H.
  - injection H as <- <-. destruct Hs as [w Hw]. congruence.
  - assert (Hfirst : ∀ r1 st1, rec t sc st = (r1, st1) →
              is_Some (scopeOf st1 s !! t') → builderScope regs s).
    { intros r1 st1 H1 Hs1.
      destruct (rec_touch _ _ _ _ _ _ _ Hst H1 Hn Hs1) as [->|]; [|done].
      apply Hp. simpl. by left. }
    apply bind_inv in H as [(v & st1 & H1 & H2)|(e & H1 & ->)];
      [|by eapply Hfirst].
    destruct (scopeOf st1 s !! t') as [w|] eqn:E1.
    { eapply Hfirst; [exact H1|]. rewrite E1. eauto. }
    eapply (IH v st1); eauto.
    + by rewrite (ext_container _ _ (rec_ext _ _ _ _ _ H1)).
    + intros s0 Hs0. apply Hp. simpl. eauto.
  - eapply (IH (calls st) (heap st)); eauto.
    intros s0 Hs0. apply Hp. simpl. eauto.
Qed.

Lemma callFactory_touch f st r st' s t' :
  container st = regs → (∀ s0, usesScope s0 f → builderScope regs s0) →
  callFactory rec f st = (r, st') →
  scopeOf st s !! t' = None → is_Some (scopeOf st' s !! t') →
  builderScope regs s.
Proof.
  intros Hst Hp. rewrite callFactory_eq.
  destruct (runProg rec f _) as [[[v|ob|]|e] st1] eqn:E;
    intros H Hn Hs; injection H as <- <-;
    refine (runProg_touch f (set_calls _ st) _ _ s t' Hst Hp E _ _); done.
Qed.

Lemma construct_touch impl args st r st' s t' :
  container st = regs →
  (∀ c s0, impl = Some c → usesScope s0 (ctor c args) → builderScope regs s0) →
  construct rec impl args st = (r, st') →
  scopeOf st s !! t' = None → is_Some (scopeOf st' s !! t') →
  builderScope regs s.
Proof.
  intros Hst Hp. destruct impl as [c|].
  2:{ intros H Hn [w Hw]. injection H as <- <-. congruence. }
  rewrite construct_eq.
  destruct (runProg rec (ctor c args) _) as [[[v|ob|]|e] st1] eqn:E;
    intros H Hn Hs.
  - assert (st' = st1) by (destruct v; by inversion H). subst st'. clear H.
    refine (runProg_touch _ (set_heap _ (set_calls _ st)) _ _ s t' Hst
              (fun s0 => Hp c s0 eq_refl) E _ _); done.
  - injection H as <- <-.
    refine (runProg_touch _ (set_heap _ (set_calls _ st)) _ _ s t' Hst
              (fun s0 => Hp c s0 eq_refl) E _ _); done.
  - injection H as <- <-.
    refine (runProg_touch _ (set_heap _ (set_calls _ st)) _ _ s t' Hst
              (fun s0 => Hp c s0 eq_refl) E _ _); done.
  - injection H as <- <-.
    refine (runProg_touch _ (set_heap _ (set_calls _ st)) _ _ s t' Hst
              (fun s0 => Hp c s0 eq_refl) E _ _); done.
Qed.

Lemma mapM_touch sc ds st r st' s t' :
  container st = regs →
  mapM (fun d => rec d sc) ds st = (r, st') →
  scopeOf st s !! t' = None → is_Some (scopeOf st' s !! t') →
  sc = Some s ∨ builderScope regs s.
Proof.
  revert st r st'. induction ds as [|d ds IH]; intros st r st' Hst H Hn Hs;
    simpl in H.
  - injection H as <- <-. destruct Hs as [w Hw]. congruence.
  - apply bind_inv in H as [(a & st1 & H1 & H2)|(e & H1 & ->)];
      [|by eapply rec_touch].
    destruct (scopeOf st1 s !! t') as [w|] eqn:E1.
    { eapply rec_touch; [exact Hst|exact H1|exact Hn|]. rewrite E1. eauto. }
    assert (Hst1 : container st1 = regs)
      by (by rewrite (ext_container _ _ (rec_ext _ _ _ _ _ H1))).
    apply bind_inv in H2 as [(b & st2 & H2 & H3)|(e & H2 & ->)].
    + injection H3 as <- <-. by eapply (IH st1).
    + by eapply (IH st1).
Qed.

Lemma createInstance_touch t reg sc st r st' s t' :
  container st = regs → regs !! t = Some reg →
  createInstance rec reg sc st = (r, st') →
  scopeOf st s !! t' = None → is_Some (scopeOf st' s !! t') →
  sc = Some s ∨ builderScope regs s.
Proof.
  intros Hst Hreg. unfold createInstance.
  destruct (factory reg) as [f|] eqn:Hf.
  - intros H Hn Hs. right. eapply callFactory_touch; eauto.
    intros s0. apply (usesScope_registered _ _ _ _ _ Hreg).
    unfold bodies. by rewrite Hf.
  - intros H Hn Hs.
    assert (Hc : ∀ args c s0, implementation reg = Some c →
                   usesScope s0 (ctor c args) → builderScope regs s0).
    { intros args c s0 Hc. apply (usesScope_registered _ _ _ _ _ Hreg).
      unfold bodies. rewrite Hf, Hc. eauto. }
    apply bind_inv in H as [(vs & st1 & H1 & H2)|(e & H1 & ->)];
      [|by eapply mapM_touch].
    destruct (scopeOf st1 s !! t') as [w|] eqn:E1.
    { eapply mapM_touch; [exact Hst|exact H1|exact Hn|]. rewrite E1. eauto. }
    right. eapply construct_touch; [| |exact H2|exact E1|exact Hs].
    + by rewrite (ext_container _ _ (mapM_ext _ rec_ext _ _ _ _ _ H1)).
    + intros c s0. apply Hc.
Qed.

Lemma getInstanceBody_touch t sc st r st' s t' :
  container st = regs →
  getInstanceBody rec t sc st = (r, st') →
  scopeOf st s !! t' = None → is_Some (scopeOf st' s !! t') →
  sc = Some s ∨ builderScope regs s.
Proof.
  intros Hst. rewrite getInstanceBody_eq, Hst.
  destruct (regs !! t) as [reg|] eqn:Hreg.
  2:{ intros H Hn [w Hw]. injection H as <- <-. congruence. }
  destruct (lifestyle reg) eqn:Hl.
  - by eapply createInstance_touch.
  - destruct sc as [s1|].
    2:{ intros H Hn [w Hw]. injection H as <- <-. congruence. }
    rewrite resolveScoped_eq.
    destruct (scopeOf st s1 !! t) as [w|] eqn:Ew.
    { intros H Hn [w' Hw']. injection H as <- <-. congruence. }
    destruct (createInstance rec reg (Some s1) st) as [[w|e] st1] eqn:Hb;
      intros H Hn Hs; injection H as <- <-;
      [|by eapply createInstance_touch].
    destruct (decide (s1 = s)) as [->|Hne]; [by left|].
    rewrite scopeOf_set_scopes_insert, decide_False in Hs by done.
    by eapply createInstance_touch.
  - rewrite resolveSingleton_eq.
    destruct (singletons st !! t) as [w|] eqn:Ew.
    { intros H Hn [w' Hw']. injection H as <- <-. congruence. }
    destruct (createInstance rec reg sc st) as [[w|e] st1] eqn:Hb;
      intros H Hn Hs; injection H as <- <-;
      by eapply createInstance_touch.
Qed.
End ResolutionTouch.

(** A resolution adds entries only to the scope cache it was given and
    to the scope caches the builders of the registry hold. *)
Lemma getInstance_touch d t sc st r st' s t' :
  getInstance d t sc st = (r, st') →
  scopeOf st s !! t' = None → is_Some (scopeOf st' s !! t') →
  sc = Some s ∨ builderScope (container st) s.
Proof.
  remember (container st) as regs eqn:Hregs. symmetry in Hregs.
  revert t sc st r st' s t' Hregs.
  induction d as [|d IH]; intros t sc st r st' s t' Hregs; simpl.
  - intros H Hn [w Hw]. injection H as <- <-. congruence.
  - apply getInstanceBody_touch; [apply getInstance_rec_ext| |done].
    intros t0 sc0 st0 r0 st0' s0 t0' Hst0. by apply IH.
Qed.

(** With builders that hold no scope handle, a resolution without scope
    leaves every scope cache as it was. *)
Lemma getInstance_none_scopes d t st r st' s t' :
  scopeless (container st) →
  getInstance d t None st = (r, st') →
  scopeOf st' s !! t' = scopeOf st s !! t'.
Proof.
  intros Hless H. pose proof (getInstance_ext _ _ _ _ _ _ H) as He.
  destruct (scopeOf st s !! t') as [w|] eqn:E.
  - by apply (ext_scopes _ _ He).
  - destruct (scopeOf st' s !! t') as [w|] eqn:E'; [|done].
    destruct (getInstance_touch _ _ _ _ _ _ s t' H E) as [?|Hb];
      [rewrite E'; eauto|done|by destruct (Hless s)].
Qed.

Lemma plainProg_usesScope s p : plainProg p → ¬ usesScope s p.
Proof.
  induction p as [o|t sc k IH|k IH]; simpl; [tauto|tauto|].
  intros Hp (l & h & Hu). by apply (IH l h).
Qed.

Lemma plain_scopeless regs : plain regs → scopeless regs.
Proof.
  intros Hp s (t & reg & p & Hreg & Hb & Hu).
  by apply (plainProg_usesScope s p (Hp t reg p Hreg Hb)).
Qed.

(** ** How the body of a builder ends *)

Lemma runProg_ends rec ok p st o st' :
  ends ok p → runProg rec p st = (Ok o, st') → ok o.
Proof.
  revert st. induction p as [o'|t sc k IH|k IH]; intros st Hp H; simpl in *.
  - by injection H as <- <-.
  - apply bind_inv in H as [(v & st1 & H1 & H2)|(e & H1 & ?)]; [|done].
    by eapply IH.
  - by eapply IH.
Qed.

(** A body that does not resolve through the injector returns, and
    leaves the state as it was. *)
Lemma runProg_plain rec p st :
  plainProg p → ∃ o, runProg rec p st = (Ok o, st).
Proof.
  induction p as [o|t sc k IH|k IH]; simpl; intros Hp; [by eexists|done|].
  apply IH, Hp.
Qed.

Lemma runProg_plain_inv rec p st r st' :
  plainProg p → runProg rec p st = (r, st') → st' = st ∧ ∃ o, r = Ok o.
Proof.
  intros Hp H. destruct (runProg_plain rec p st Hp) as [o Ho].
  rewrite Ho in H. injection H as <- <-. eauto.
Qed.

Lemma runProg_plain_eq rec1 rec2 p st :
  plainProg p → runProg rec1 p st = runProg rec2 p st.
Proof.
  induction p as [o|t sc k IH|k IH]; simpl; intros Hp; [done|done|].
  apply IH, Hp.
Qed.

(** Builders that do not resolve through the injector touch no cache. *)
Lemma callFactory_plain_caches rec f st r st' :
  plainProg f → callFactory rec f st = (r, st') →
  container st' = container st ∧ singletons st' = singletons st ∧
  scopes st' = scopes st.
Proof.
  intros Hp. rewrite callFactory_eq.
  destruct (runProg_plain rec f (set_calls (fun l => l ++ [CallFactory]) st) Hp)
    as [o ->].
  destruct o; intros H; by injection H as <- <-.
Qed.

Lemma construct_plain_caches rec impl args st r st' :
  (∀ c, impl = Some c → plainProg (ctor c args)) →
  construct rec impl args st = (r, st') →
  container st' = container st ∧ singletons st' = singletons st ∧
  scopes st' = scopes st.
Proof.
  intros Hp. destruct impl as [c|]; [|intros H; by injection H as <- <-].
  rewrite construct_eq.
  destruct (runProg_plain rec (ctor c args)
              (set_heap (fun _ => heap st ++ [mkObj (cname c) args])
                 (set_calls (fun l => l ++ [CallNew (cname c) args]) st))
              (Hp c eq_refl)) as [o ->].
  destruct o as [[]| |]; intros H; by injection H as <- <-.
Qed.

(** ** Builders leave a trace *)

Section ResolutionBuild.
Variable rec : string → option nat → M Value.
Hypothesis rec_ext : ∀ t sc st r st', rec t sc st = (r, st') → ext st st'.

Lemma callFactory_calls f st r st' :
  callFactory rec f st = (r, st') →
  (calls st ++ [CallFactory]) `prefix_of` calls st'.
Proof.
  rewrite callFactory_eq.
  destruct (runProg rec f _) as [[o|e] st1] eqn:E;
    apply (runProg_ext rec rec_ext) in E; apply ext_calls in E; simpl in E.
  - destruct o; intros H; by injection H as <- <-.
  - intros H; by injection H as <- <-.
Qed.

(** [new] makes its object before the body of the constructor runs; the
    object stays where it is. *)
Lemma construct_trace c args st r st' :
  construct rec (Some c) args st = (r, st') →
  (calls st ++ [CallNew (cname c) args]) `prefix_of` calls st' ∧
  (heap st ++ [mkObj (cname c) args]) `prefix_of` heap st'.
Proof.
  rewrite construct_eq.
  destruct (runProg rec (ctor c args) _) as [[o|e] st1] eqn:E;
    apply (runProg_ext rec rec_ext) in E;
    pose proof (ext_calls _ _ E) as Hc; pose proof (ext_heap _ _ E) as Hh;
    simpl in Hc, Hh.
  - destruct o as [[]|ob|]; intros H; injection H as <- <-; try done.
    split; [done|]. simpl. etrans; [exact Hh|by apply prefix_app_r].
  - intros H; by injection H as <- <-.
Qed.

Lemma construct_ok_heap c args st v st' :
  construct rec (Some c) args st = (Ok v, st') →
  heap st' !! length (heap st) = Some (mkObj (cname c) args).
Proof.
  intros H. apply construct_trace in H as [_ Hh].
  eapply prefix_lookup_Some; [|exact Hh].
  by rewrite lookup_app_r, Nat.sub_diag by done.
Qed.

(** A constructor that returns no object of its own leaves the object
    [new] made as the result. *)
Lemma construct_ok_this c args st v st' :
  ends keepsThis (ctor c args) →
  construct rec (Some c) args st = (Ok v, st') →
  v = VObject (length (heap st)).
Proof.
  intros Hk. rewrite construct_eq.
  destruct (runProg rec (ctor c args) _) as [[o|e] st1] eqn:E; [|done].
  pose proof (runProg_ends _ _ _ _ _ _ Hk E) as Ho.
  destruct o as [[]|ob|]; intros H; try done; by injection H as <- <-.
Qed.

(** A completed build has invoked a builder. *)
Lemma createInstance_ok_calls reg sc st v st' :
  createInstance rec reg sc st = (Ok v, st') →
  length (calls st) < length (calls st').
Proof.
  unfold createInstance. destruct (factory reg) as [f|].
  - intros H. apply callFactory_calls, prefix_length in H.
    rewrite length_app in H. simpl in H. lia.
  - intros H. apply bind_inv in H as [(a & st1 & H1 & H2)|(e & H1 & ?)]; [|done].
    apply mapM_ext in H1; [|done].
    destruct (implementation reg) as [c|]; [|done].
    apply construct_trace in H2 as [Hc _]. apply prefix_length in Hc.
    rewrite length_app in Hc. simpl in Hc.
    pose proof (prefix_length _ _ (ext_calls _ _ H1)). lia.
Qed.

(** A completed constructor-style build has resolved the dependencies,
    and has applied [new] to them and the literal parameters. *)
Lemma createInstance_ok_new reg sc st v st' :
  factory reg = None →
  createInstance rec reg sc st = (Ok v, st') →
  ∃ c vs st1,
    implementation reg = Some c ∧
    mapM (fun d => rec d sc) (dependencies reg) st = (Ok vs, st1) ∧
    construct rec (Some c) (vs ++ constructorParams reg) st1 = (Ok v, st') ∧
    ext st st1 ∧ ext st1 st' ∧
    heap st' !! length (heap st1)
      = Some (mkObj (cname c) (vs ++ constructorParams reg)).
Proof.
  unfold createInstance. intros ->.
  intros H. apply bind_inv in H as [(vs & st1 & H1 & H2)|(e & H1 & ?)]; [|done].
  destruct (implementation reg) as [c|]; [|done].
  exists c, vs, st1. do 3 (split; [done|]).
  split; [by eapply mapM_ext|].
  split; [by eapply construct_ext|by eapply construct_ok_heap].
Qed.

(** A completed build by a recipe that makes a new object returns an
    object that did not exist when the build started. *)
Lemma createInstance_ok_fresh reg sc st v st' :
  allocates reg →
  createInstance rec reg sc st = (Ok v, st') →
  ∃ a, v = VObject a ∧ length (heap st) ≤ a ∧ a < length (heap st').
Proof.
  unfold allocates, createInstance.
  destruct (factory reg) as [f|] eqn:Hf.
  - intros Ha. rewrite callFactory_eq.
    destruct (runProg rec f _) as [[o|e] st1] eqn:E; [|done].
    pose proof (runProg_ends _ _ _ _ _ _ Ha E) as Ho.
    apply (runProg_ext rec rec_ext) in E. apply ext_heap, prefix_length in E.
    simpl in E.
    destruct o as [[]|ob|]; intros H; try done. injection H as <- <-.
    eexists. split; [done|]. simpl. rewrite length_app. simpl. lia.
  - intros Ha H.
    apply bind_inv in H as [(vs & st1 & H1 & H2)|(e & H1 & ?)]; [|done].
    apply mapM_ext, ext_heap, prefix_length in H1; [|done].
    destruct (implementation reg) as [c|]; [|done].
    pose proof (construct_ok_heap _ _ _ _ _ H2) as Hthis.
    apply lookup_lt_Some in Hthis.
    revert H2. rewrite construct_eq.
    destruct (runProg rec (ctor c _) _) as [[o|e] st2] eqn:E; [|done].
    pose proof (runProg_ends _ _ _ _ _ _ (Ha _) E) as Ho.
    apply (runProg_ext rec rec_ext) in E. apply ext_heap, prefix_length in E.
    simpl in E. rewrite length_app in E. simpl in E.
    destruct o as [[]|ob|]; intros H; try done; injection H as <- <-.
    + eexists. split; [done|]. lia.
    + eexists. split; [done|]. lia.
    + eexists. split; [done|]. lia.
    + eexists. split; [done|]. simpl. rewrite length_app. simpl. lia.
Qed.

Lemma resolveSingleton_ok t reg sc st v st' :
  resolveSingleton rec t reg sc st = (Ok v, st') →
  singletons st' !! t = Some v ∧
  (singletons st !! t = None → length (calls st) < length (calls st')).
Proof.
  rewrite resolveSingleton_eq.
  destruct (singletons st !! t) as [w|] eqn:Ew.
  - intros H. injection H as <- <-. by rewrite Ew.
  - destruct (createInstance rec reg sc st) as [[w|e] st1] eqn:Hb; [|done].
    intros H. injection H as <- <-. simpl. rewrite lookup_insert_eq.
    split; [done|]. intros _. by eapply createInstance_ok_calls.
Qed.

Lemma resolveSingleton_hit t reg sc st v :
  singletons st !! t = Some v →
  resolveSingleton rec t reg sc st = (Ok v, st).
Proof. intros Hv. by rewrite resolveSingleton_eq, Hv. Qed.

Lemma resolveScoped_ok t reg s st v st' :
  resolveScoped rec t reg s st = (Ok v, st') →
  scopeOf st' s !! t = Some v.
Proof.
  rewrite resolveScoped_eq.
  destruct (scopeOf st s !! t) as [w|] eqn:Ew.
  - intros H. injection H as <- <-. by rewrite Ew.
  - destruct (createInstance rec reg (Some s) st) as [[w|e] st1] eqn:Hb; [|done].
    intros H. injection H as <- <-.
    rewrite scopeOf_set_scopes_insert, decide_True by done.
    by rewrite lookup_insert_eq.
Qed.

Lemma resolveScoped_hit t reg s st v :
  scopeOf st s !! t = Some v →
  resolveScoped rec t reg s st = (Ok v, st).
Proof. intros Hv. by rewrite resolveScoped_eq, Hv. Qed.

Lemma resolveScoped_miss t reg s st v st' :
  scopeOf st s !! t = None →
  resolveScoped rec t reg s st = (Ok v, st') →
  ∃ stx, createInstance rec reg (Some s) st = (Ok v, stx) ∧
         st' = set_scopes (insert s (<[t := v]> (scopeOf stx s))) stx.
Proof.
  intros Hn. rewrite resolveScoped_eq, Hn.
  destruct (createInstance rec reg (Some s) st) as [[w|e] st1] eqn:Hb; [|done].
  intros H. injection H as <- <-. eauto.
Qed.
End ResolutionBuild.

Lemma getInstance_singleton_ok d t sc st v st' reg :
  container st !! t = Some reg → lifestyle reg = Singleton →
  getInstance d t sc st = (Ok v, st') →
  singletons st' !! t = Some v ∧
  (singletons st !! t = None → length (calls st) < length (calls st')).
Proof.
  intros Hreg Hl. destruct d as [|d]; [done|]. simpl.
  rewrite getInstanceBody_eq, Hreg, Hl.
  apply resolveSingleton_ok. apply getInstance_rec_ext.
Qed.

Lemma getInstance_singleton_hit d t sc st v reg :
  container st !! t = Some reg → lifestyle reg = Singleton →
  singletons st !! t = Some v →
  getInstance (S d) t sc st = (Ok v, st).
Proof.
  intros Hreg Hl Hv. simpl. rewrite getInstanceBody_eq, Hreg, Hl.
  by apply resolveSingleton_hit.
Qed.

Lemma getInstance_scoped_ok d t s st v st' reg :
  container st !! t = Some reg → lifestyle reg = Scoped →
  getInstance d t (Some s) st = (Ok v, st') →
  scopeOf st' s !! t = Some v.
Proof.
  intros Hreg Hl. destruct d as [|d]; [done|]. simpl.
  rewrite getInstanceBody_eq, Hreg, Hl. apply resolveScoped_ok.
Qed.

Lemma getInstance_scoped_hit d t s st v reg :
  container st !! t = Some reg → lifestyle reg = Scoped →
  scopeOf st s !! t = Some v →
  getInstance (S d) t (Some s) st = (Ok v, st).
Proof.
  intros Hreg Hl Hv. simpl. rewrite getInstanceBody_eq, Hreg, Hl.
  by apply resolveScoped_hit.
Qed.

Lemma getInstance_scoped_miss d t s st v st' reg :
  container st !! t = Some reg → lifestyle reg = Scoped →
  scopeOf st s !! t = None →
  getInstance d t (Some s) st = (Ok v, st') →
  ∃ d0 stx, d = S d0 ∧
    createInstance (getInstance d0) reg (Some s) st = (Ok v, stx) ∧
    st' = set_scopes (insert s (<[t := v]> (scopeOf stx s))) stx.
Proof.
  intros Hreg Hl Hn. destruct d as [|d0]; [done|]. simpl.
  rewrite getInstanceBody_eq, Hreg, Hl.
  intros H. apply resolveScoped_miss in H as (stx & H1 & H2); eauto.
Qed.

Lemma getInstance_singleton_miss d t sc st v st' reg :
  container st !! t = Some reg → lifestyle reg = Singleton →
  singletons st !! t = None →
  getInstance d t sc st = (Ok v, st') →
  ∃ d0 stx, d = S d0 ∧
    createInstance (getInstance d0) reg sc st = (Ok v, stx) ∧
    st' = set_singletons (insert t v) stx.
Proof.
  intros Hreg Hl Hn. destruct d as [|d0]; [done|]. simpl.
  rewrite getInstanceBody_eq, Hreg, Hl, resolveSingleton_eq, Hn.
  destruct (createInstance (getInstance d0) reg sc st) as [[w|e] stx] eqn:Hb;
    [|done].
  intros H. injection H as <- <-. by exists d0, stx.
Qed.

Lemma getInstance_perRequest d t sc st r st' reg :
  container st !! t = Some reg → lifestyle reg = PerRequest →
  getInstance d t sc st = (r, st') →
  (d = 0 ∧ r = Throw StackOverflow ∧ st' = st) ∨
  ∃ d0, d = S d0 ∧ createInstance (getInstance d0) reg sc st = (r, st').
Proof.
  intros Hreg Hl. destruct d as [|d0]; simpl.
  - intros H. inversion H. by left.
  - rewrite getInstanceBody_eq, Hreg, Hl. eauto.
Qed.

(** ** No operation of the container drops a singleton *)

Lemma step_singletons o st t v :
  singletons st !! t = Some v → singletons (step o st) !! t = Some v.
Proof.
  destruct o as [t' c l ds ps|t' f l| |d t' sc]; simpl; try done.
  intros Hv. destruct (getInstance d t' sc st) as [r st'] eqn:E. simpl.
  by apply (ext_singletons _ _ (getInstance_ext _ _ _ _ _ _ E)).
Qed.

Lemma run_singletons ops st t v :
  singletons st !! t = Some v → singletons (run ops st) !! t = Some v.
Proof.
  revert st. induction ops as [|o ops IH]; intros st Hv; simpl; [done|].
  apply IH. by apply step_singletons.
Qed.

(** ** A build that asks for itself never completes *)

Lemma cyclic_frame B sc st st' :
  container st' = container st → singletons st' = singletons st →
  scopes st' = scopes st →
  cyclic B sc st → cyclic B sc st'.
Proof.
  intros Hc Hs Hsc Hcyc b Hb.
  destruct (Hcyc b Hb) as (reg & dep & Hreg & Hf & Hu & Hin & Hdep).
  exists reg, dep. rewrite Hc. repeat split; try done.
  unfold uncached, scopeOf in *. rewrite Hs, Hsc. done.
Qed.

Lemma cyclic_cache_singleton B sc st t v :
  ¬ B t → cyclic B sc st → cyclic B sc (set_singletons (insert t v) st).
Proof.
  intros Hnt Hcyc b Hb.
  destruct (Hcyc b Hb) as (reg & dep & Hreg & Hf & Hu & Hin & Hdep).
  exists reg, dep. repeat split; try done.
  unfold uncached in *. destruct (lifestyle reg); try done.
  simpl. rewrite lookup_insert_ne; [done|]. by intros ->.
Qed.

Lemma cyclic_cache_scoped B s st t v :
  ¬ B t → cyclic B (Some s) st →
  cyclic B (Some s) (set_scopes (insert s (<[t := v]> (scopeOf st s))) st).
Proof.
  intros Hnt Hcyc b Hb.
  destruct (Hcyc b Hb) as (reg & dep & Hreg & Hf & Hu & Hin & Hdep).
  exists reg, dep. repeat split; try done.
  unfold uncached in *. destruct (lifestyle reg); try done.
  intros s' [= <-]. rewrite scopeOf_set_scopes_insert, decide_True by done.
  rewrite lookup_insert_ne; [by apply Hu|]. by intros ->.
Qed.

Section Blocked.
Variable B : string → Prop.
Variable sc : option nat.
Variable regs : gmap string Registration.
Variable rec : string → option nat → M Value.
Hypothesis builders_here : ∀ s, builderScope regs s → sc = Some s.
Hypothesis rec_ext : ∀ t sc st r st', rec t sc st = (r, st') → ext st st'.
Hypothesis rec_blocked : ∀ sc0 t st r st',
  sc0 = sc ∨ sc0 = None → container st = regs →
  cyclic B sc st → rec t sc0 st = (r, st') →
  cyclic B sc st' ∧ (B t → ∀ v, r ≠ Ok v).

Lemma runProg_blocked p st r st' :
  (∀ s, usesScope s p → builderScope regs s) → container st = regs →
  cyclic B sc st → runProg rec p st = (r, st') → cyclic B sc st'.
Proof.
  revert st r st'. induction p as [o|t sc' k IH|k IH];
    intros st r st' Hp Hst Hcyc H; simpl in H.
  - by injection H as <- <-.
  - assert (Hsc' : sc' = sc ∨ sc' = None).
    { destruct sc' as [s|]; [left|by right].
      symmetry. apply builders_here, Hp. simpl. by left. }
    apply bind_inv in H as [(v & st1 & H1 & H2)|(e & H1 & ->)].
    + destruct (rec_blocked _ _ _ _ _ Hsc' Hst Hcyc H1) as [Hcyc1 _].
      eapply (IH v st1); eauto.
      * intros s Hs. apply Hp. simpl. eauto.
      * by rewrite (ext_container _ _ (rec_ext _ _ _ _ _ H1)).
    + by destruct (rec_blocked _ _ _ _ _ Hsc' Hst Hcyc H1).
  - eapply (IH (calls st) (heap st)); eauto.
    intros s Hs. apply Hp. simpl. eauto.
Qed.

Lemma callFactory_blocked f st r st' :
  (∀ s, usesScope s f → builderScope regs s) → container st = regs →
  cyclic B sc st → callFactory rec f st = (r, st') → cyclic B sc st'.
Proof.
  intros Hp Hst Hcyc. rewrite callFactory_eq.
  assert (Hcyc0 : cyclic B sc (set_calls (fun l => l ++ [CallFactory]) st))
    by (by eapply cyclic_frame; [..|exact Hcyc]).
  destruct (runProg rec f _) as [[o|e] st1] eqn:E;
    apply (runProg_blocked f (set_calls _ st) _ _ Hp Hst Hcyc0) in E.
  - destruct o; intros H; injection H as <- <-;
      first [done|by eapply cyclic_frame; [..|exact E]].
  - intros H; by injection H as <- <-.
Qed.

Lemma construct_blocked impl args st r st' :
  (∀ c s, impl = Some c → usesScope s (ctor c args) → builderScope regs s) →
  container st = regs →
  cyclic B sc st → construct rec impl args st = (r, st') → cyclic B sc st'.
Proof.
  intros Hp Hst Hcyc. destruct impl as [c|];
    [|intros H; by injection H as <- <-].
  rewrite construct_eq.
  assert (Hcyc0 : cyclic B sc
            (set_heap (fun _ => heap st ++ [mkObj (cname c) args])
               (set_calls (fun l => l ++ [CallNew (cname c) args]) st)))
    by (by eapply cyclic_frame; [..|exact Hcyc]).
  destruct (runProg rec (ctor c args) _) as [[o|e] st1] eqn:E;
    apply (runProg_blocked _ (set_heap _ (set_calls _ st)) _ _
             (fun s => Hp c s eq_refl) Hst Hcyc0) in E.
  - destruct o as [[]|ob|]; intros H; injection H as <- <-;
      first [done|by eapply cyclic_frame; [..|exact E]].
  - intros H; by injection H as <- <-.
Qed.

Lemma mapM_blocked sc0 ds st r st' :
  sc0 = sc ∨ sc0 = None → container st = regs →
  cyclic B sc st → mapM (fun dep => rec dep sc0) ds st = (r, st') →
  cyclic B sc st' ∧ (∀ dep, dep ∈ ds → B dep → ∀ vs, r ≠ Ok vs).
Proof.
  intros Hsc0.
  revert st r st'. induction ds as [|dep0 ds IH]; intros st r st' Hst Hcyc H;
    simpl in H.
  - injection H as <- <-. split; [done|].
    intros dep Hin. by apply elem_of_nil in Hin.
  - apply bind_inv in H as [(a & sta & H1 & H2)|(e & H1 & ->)].
    + destruct (rec_blocked _ _ _ _ _ Hsc0 Hst Hcyc H1) as [Hcyca Hnot0].
      assert (Hsta : container sta = regs)
        by (by rewrite (ext_container _ _ (rec_ext _ _ _ _ _ H1))).
      apply bind_inv in H2 as [(b & stb & H2 & H3)|(e & H2 & ->)].
      * destruct (IH _ _ _ Hsta Hcyca H2) as [Hcycb Hnot].
        injection H3 as <- <-. split; [done|].
        intros dep Hin HB vs _. apply elem_of_cons in Hin as [->|Hin].
        -- by apply (Hnot0 HB a).
        -- by apply (Hnot dep Hin HB b).
      * destruct (IH _ _ _ Hsta Hcyca H2) as [Hcycb _]. by split.
    + destruct (rec_blocked _ _ _ _ _ Hsc0 Hst Hcyc H1) as [Hcyca _]. by split.
Qed.

Lemma createInstance_blocked sc0 t reg st r st' :
  sc0 = sc ∨ sc0 = None → container st = regs → regs !! t = Some reg →
  cyclic B sc st → createInstance rec reg sc0 st = (r, st') →
  cyclic B sc st' ∧
  (factory reg = None → ∀ dep, dep ∈ dependencies reg → B dep → ∀ v, r ≠ Ok v).
Proof.
  intros Hsc0 Hst Hreg Hcyc. unfold createInstance.
  destruct (factory reg) as [f|] eqn:Hf.
  - intros H. split; [|done]. eapply callFactory_blocked; eauto.
    intros s. apply (usesScope_registered _ _ _ _ _ Hreg).
    unfold bodies. by rewrite Hf.
  - intros H. apply bind_inv in H as [(vs & st1 & H1 & H2)|(e & H1 & ->)].
    + destruct (mapM_blocked _ _ _ _ _ Hsc0 Hst Hcyc H1) as [Hcyc1 Hnot].
      split.
      * eapply construct_blocked; [| |exact Hcyc1|exact H2].
        -- intros c s Hc. apply (usesScope_registered _ _ _ _ _ Hreg).
           unfold bodies. rewrite Hf, Hc. eauto.
        -- by rewrite (ext_container _ _ (mapM_ext _ rec_ext _ _ _ _ _ H1)).
      * intros _ dep Hin HB. by destruct (Hnot dep Hin HB vs).
    + destruct (mapM_blocked _ _ _ _ _ Hsc0 Hst Hcyc H1) as [Hcyc1 _]. by split.
Qed.

Lemma blocked_not_built sc0 t reg st r st' :
  sc0 = sc ∨ sc0 = None → container st = regs → regs !! t = Some reg →
  cyclic B sc st → createInstance rec reg sc0 st = (r, st') →
  B t → ∀ v, r ≠ Ok v.
Proof.
  intros Hsc0 Hst Hreg Hcyc H HB.
  destruct (Hcyc t HB) as (reg' & dep & Hreg' & Hf & _ & Hin & Hdep).
  rewrite Hst in Hreg'.
  assert (reg' = reg) by congruence. subst reg'.
  destruct (createInstance_blocked _ _ _ _ _ _ Hsc0 Hst Hreg Hcyc H) as [_ Hnot].
  by apply (Hnot Hf dep).
Qed.

Lemma resolveScoped_blocked t reg s st r st' :
  sc = Some s → container st = regs → regs !! t = Some reg →
  lifestyle reg = Scoped →
  cyclic B sc st → resolveScoped rec t reg s st = (r, st') →
  cyclic B sc st' ∧ (B t → ∀ v, r ≠ Ok v).
Proof.
  intros Esc Hst Hreg Hl Hcyc. rewrite resolveScoped_eq, <- Esc.
  assert (Hsc0 : sc = sc ∨ sc = None) by (by left).
  destruct (scopeOf st s !! t) as [w|] eqn:Ew.
  - intros H. injection H as <- <-. split; [done|].
    intros HB. destruct (Hcyc t HB) as (reg' & dep & Hreg' & _ & Hu & _).
    rewrite Hst in Hreg'.
    assert (reg' = reg) by congruence. subst reg'.
    unfold uncached in Hu. rewrite Hl in Hu. rewrite (Hu s Esc) in Ew. done.
  - destruct (createInstance rec reg sc st) as [[w|e] st1] eqn:Hb.
    + pose proof (blocked_not_built _ _ _ _ _ _ Hsc0 Hst Hreg Hcyc Hb) as Hnot.
      destruct (createInstance_blocked _ _ _ _ _ _ Hsc0 Hst Hreg Hcyc Hb)
        as [Hcyc1 _].
      assert (HnB : ¬ B t) by (intros HB; by apply (Hnot HB w)).
      intros H. injection H as <- <-. split; [|done].
      rewrite Esc in Hcyc1 |- *. by apply cyclic_cache_scoped.
    + destruct (createInstance_blocked _ _ _ _ _ _ Hsc0 Hst Hreg Hcyc Hb)
        as [Hcyc1 _].
      intros H. injection H as <- <-. by split.
Qed.

Lemma resolveSingleton_blocked sc0 t reg st r st' :
  sc0 = sc ∨ sc0 = None → container st = regs → regs !! t = Some reg →
  lifestyle reg = Singleton →
  cyclic B sc st → resolveSingleton rec t reg sc0 st = (r, st') →
  cyclic B sc st' ∧ (B t → ∀ v, r ≠ Ok v).
Proof.
  intros Hsc0 Hst Hreg Hl Hcyc. rewrite resolveSingleton_eq.
  destruct (singletons st !! t) as [w|] eqn:Ew.
  - intros H. injection H as <- <-. split; [done|].
    intros HB. destruct (Hcyc t HB) as (reg' & dep & Hreg' & _ & Hu & _).
    rewrite Hst in Hreg'.
    assert (reg' = reg) by congruence. subst reg'.
    unfold uncached in Hu. rewrite Hl in Hu. congruence.
  - destruct (createInstance rec reg sc0 st) as [[w|e] st1] eqn:Hb.
    + pose proof (blocked_not_built _ _ _ _ _ _ Hsc0 Hst Hreg Hcyc Hb) as Hnot.
      destruct (createInstance_blocked _ _ _ _ _ _ Hsc0 Hst Hreg Hcyc Hb)
        as [Hcyc1 _].
      assert (HnB : ¬ B t) by (intros HB; by apply (Hnot HB w)).
      intros H. injection H as <- <-. split; [|done].
      by apply cyclic_cache_singleton.
    + destruct (createInstance_blocked _ _ _ _ _ _ Hsc0 Hst Hreg Hcyc Hb)
        as [Hcyc1 _].
      intros H. injection H as <- <-. by split.
Qed.

Lemma getInstanceBody_blocked sc0 t st r st' :
  sc0 = sc ∨ sc0 = None → container st = regs →
  cyclic B sc st → getInstanceBody rec t sc0 st = (r, st') →
  cyclic B sc st' ∧ (B t → ∀ v, r ≠ Ok v).
Proof.
  intros Hsc0 Hst Hcyc. rewrite getInstanceBody_eq, Hst.
  destruct (regs !! t) as [reg|] eqn:Hreg.
  2:{ intros H. injection H as <- <-. by split. }
  destruct (lifestyle reg) eqn:Hl.
  - intros H. split; [|by eapply blocked_not_built].
    by destruct (createInstance_blocked _ _ _ _ _ _ Hsc0 Hst Hreg Hcyc H).
  - destruct sc0 as [s|].
    + destruct Hsc0 as [Esc|?]; [|done]. by eapply resolveScoped_blocked.
    + intros H. injection H as <- <-. by split.
  - by eapply resolveSingleton_blocked.
Qed.
End Blocked.

Lemma getInstance_blocked B sc d sc0 t st r st' :
  (∀ s, builderScope (container st) s → sc = Some s) →
  sc0 = sc ∨ sc0 = None →
  cyclic B sc st → getInstance d t sc0 st = (r, st') →
  cyclic B sc st' ∧ (B t → ∀ v, r ≠ Ok v).
Proof.
  remember (container st) as regs eqn:Hregs. symmetry in Hregs.
  intros Hhere. revert sc0 t st r st' Hregs.
  induction d as [|d IH]; intros sc0 t st r st' Hregs Hsc0 Hcyc; simpl.
  - intros H. injection H as <- <-. by split.
  - apply (getInstanceBody_blocked B sc regs); try done.
    + apply getInstance_rec_ext.
    + intros sc1 t1 st1 r1 st1' Hsc1 Hst1. by apply IH.
Qed.

Lemma createInstance_cyclic B sc d0 t reg st r st' :
  (∀ s, builderScope (container st) s → sc = Some s) →
  container st !! t = Some reg →
  cyclic B sc st → createInstance (getInstance d0) reg sc st = (r, st') →
  cyclic B sc st'.
Proof.
  intros Hhere Hreg Hcyc H.
  refine (proj1 (createInstance_blocked B sc (container st) (getInstance d0)
                   Hhere (getInstance_rec_ext d0) _ sc t reg st r st'
                   (or_introl eq_refl) eq_refl Hreg Hcyc H)).
  intros sc1 t1 st1 r1 st1' Hsc1 Hst1. apply getInstance_blocked; [|done].
  by rewrite Hst1.
Qed.

(** ** A singleton cached during a build was asked for by that build *)

Lemma uncached_ext sc st0 st t reg :
  ext st0 st → uncached sc st t reg → uncached sc st0 t reg.
Proof.
  intros He. unfold uncached. destruct (lifestyle reg); [done| |].
  - intros Hu s Hs. specialize (Hu s Hs).
    destruct (scopeOf st0 s !! t) as [w|] eqn:E; [|done].
    rewrite (ext_scopes _ _ He _ _ _ E) in Hu. done.
  - intros Hu. destruct (singletons st0 !! t) as [w|] eqn:E; [|done].
    rewrite (ext_singletons _ _ He _ _ E) in Hu. done.
Qed.

Lemma slot_ext st st' k v :
  ext st st' → slot k st = Some v → slot k st' = Some v.
Proof.
  intros He. destruct k as [t|s t]; simpl.
  - apply (ext_singletons _ _ He).
  - apply (ext_scopes _ _ He).
Qed.

Lemma slot_frame k st st' :
  singletons st' = singletons st → scopes st' = scopes st →
  slot k st' = slot k st.
Proof.
  intros Hs Hsc. destruct k as [t|s t]; simpl; unfold scopeOf; congruence.
Qed.

Lemma slot_cache_singleton k st t v :
  slot k st = None → is_Some (slot k (set_singletons (insert t v) st)) →
  k = InSingletons t.
Proof.
  destruct k as [t'|s t']; simpl.
  - intros Hn [w Hw]. destruct (decide (t = t')) as [->|Hne]; [done|].
    rewrite lookup_insert_ne in Hw by done. congruence.
  - unfold scopeOf. simpl. intros Hn [w Hw]. congruence.
Qed.

Lemma slot_cache_scoped k st s t v :
  slot k st = None →
  is_Some (slot k (set_scopes (insert s (<[t := v]> (scopeOf st s))) st)) →
  k = InScope s t.
Proof.
  destruct k as [t'|s' t']; simpl.
  - intros Hn [w Hw]. congruence.
  - rewrite scopeOf_set_scopes_insert. intros Hn [w Hw].
    case_decide as Es; [subst s'|congruence].
    destruct (decide (t = t')) as [->|Hne]; [done|].
    rewrite lookup_insert_ne in Hw by done. congruence.
Qed.

Section Reach.
Variable sc : option nat.
Variable st0 : State.
Variable k : CacheKey.
Variable rec : string → option nat → M Value.
Hypothesis quiet :
  plain (container st0) ∨
  (scopeless (container st0) ∧ ∃ s t, k = InScope s t).
Hypothesis rec_ext : ∀ t sc st r st', rec t sc st = (r, st') → ext st st'.
Hypothesis rec_none : ∀ t st r st' s t',
  scopeless (container st) → rec t None st = (r, st') →
  scopeOf st' s !! t' = scopeOf st s !! t'.
Hypothesis rec_reach : ∀ t st r st',
  ext st0 st → rec t sc st = (r, st') →
  slot k st = None → is_Some (slot k st') →
  t = keyToken k ∨ leads sc st0 (keyToken k) t.

(** The body of a builder does not write the cache in question. *)
Lemma runProg_quiet p st r st' :
  container st = container st0 →
  plainProg p ∨ ((∀ s, ¬ usesScope s p) ∧ ∃ s t, k = InScope s t) →
  runProg rec p st = (r, st') → slot k st' = slot k st.
Proof.
  intros Hst [Hp|[Hp (s & t & Hk)]] H.
  { by apply runProg_plain_inv in H as [-> _]. }
  revert st r st' Hst H. induction p as [o|t1 sc' p1 IH|p1 IH];
    intros st r st' Hst H; simpl in H.
  - by injection H as <- <-.
  - assert (sc' = None) as ->.
    { destruct sc' as [s'|]; [|done]. destruct (Hp s'). simpl. by left. }
    assert (Hless : scopeless (container st)).
    { rewrite Hst. destruct quiet as [Hq|[Hq _]]; [by apply plain_scopeless|done]. }
    assert (Hstep : ∀ r1 st1, rec t1 None st = (r1, st1) → slot k st1 = slot k st).
    { intros r1 st1 H1. rewrite Hk. simpl. by eapply rec_none. }
    apply bind_inv in H as [(v & st1 & H1 & H2)|(e & H1 & ->)]; [|by eapply Hstep].
    rewrite <- (Hstep _ _ H1). eapply (IH v); [| |exact H2].
    + intros s' Hs'. apply (Hp s'). simpl. eauto.
    + by rewrite (ext_container _ _ (rec_ext _ _ _ _ _ H1)).
  - eapply (IH (calls st) (heap st)); [|done|exact H].
    intros s' Hs'. apply (Hp s'). simpl. eauto.
Qed.

Lemma registered_quiet t reg p :
  container st0 !! t = Some reg → bodies reg p →
  plainProg p ∨ ((∀ s, ¬ usesScope s p) ∧ ∃ s t, k = InScope s t).
Proof.
  intros Hreg Hb. destruct quiet as [Hq|[Hq Hk]].
  - left. by eapply Hq.
  - right. split; [|done]. intros s Hs. apply (Hq s).
    by eapply usesScope_registered.
Qed.

Lemma callFactory_quiet t reg f st r st' :
  container st = container st0 →
  container st0 !! t = Some reg → factory reg = Some f →
  callFactory rec f st = (r, st') → slot k st' = slot k st.
Proof.
  intros Hst Hreg Hf. rewrite callFactory_eq.
  assert (Hq : plainProg f ∨ ((∀ s, ¬ usesScope s f) ∧ ∃ s t, k = InScope s t)).
  { apply (registered_quiet t reg); [done|]. unfold bodies. by rewrite Hf. }
  destruct (runProg rec f _) as [[o|e] st1] eqn:E;
    apply (runProg_quiet f (set_calls _ st) _ _ Hst Hq) in E.
  - destruct o; intros H; injection H as <- <-; exact E.
  - intros H; injection H as <- <-. exact E.
Qed.

Lemma construct_quiet t reg impl args st r st' :
  container st = container st0 →
  container st0 !! t = Some reg → factory reg = None →
  implementation reg = impl →
  construct rec impl args st = (r, st') → slot k st' = slot k st.
Proof.
  intros Hst Hreg Hf Hi. destruct impl as [c|];
    [|intros H; by injection H as <- <-].
  rewrite construct_eq.
  assert (Hq : plainProg (ctor c args) ∨
               ((∀ s, ¬ usesScope s (ctor c args)) ∧ ∃ s t, k = InScope s t)).
  { apply (registered_quiet t reg); [done|]. unfold bodies. rewrite Hf, Hi. eauto. }
  destruct (runProg rec (ctor c args) _) as [[o|e] st1] eqn:E;
    apply (runProg_quiet _ (set_heap _ (set_calls _ st)) _ _ Hst Hq) in E.
  - destruct o as [[]|ob|]; intros H; injection H as <- <-; exact E.
  - intros H; injection H as <- <-. exact E.
Qed.

Lemma mapM_reach ds st r st' :
  ext st0 st → mapM (fun dep => rec dep sc) ds st = (r, st') →
  slot k st = None → is_Some (slot k st') →
  ∃ dep, dep ∈ ds ∧ (dep = keyToken k ∨ leads sc st0 (keyToken k) dep).
Proof.
  revert st r st'. induction ds as [|dep0 ds IH]; intros st r st' He H Hn Hs;
    simpl in H.
  - injection H as <- <-. destruct Hs as [w Hw]. congruence.
  - assert (Hfirst : ∀ r1 st1, rec dep0 sc st = (r1, st1) →
              is_Some (slot k st1) →
              ∃ dep, dep ∈ dep0 :: ds ∧
                     (dep = keyToken k ∨ leads sc st0 (keyToken k) dep)).
    { intros r1 st1 H1 Hs1. exists dep0. split; [by left|].
      by apply (rec_reach _ _ _ _ He H1). }
    apply bind_inv in H as [(a & sta & H1 & H2)|(e & H1 & ->)];
      [|by eapply Hfirst].
    destruct (slot k sta) as [w|] eqn:Ea.
    { eapply Hfirst; [exact H1|]. rewrite Ea. eauto. }
    assert (Hea : ext st0 sta)
      by (eapply ext_trans; [exact He|by eapply rec_ext]).
    assert (Hrest : ∀ r2 st2, mapM (fun dep => rec dep sc) ds sta = (r2, st2) →
              is_Some (slot k st2) →
              ∃ dep, dep ∈ dep0 :: ds ∧
                     (dep = keyToken k ∨ leads sc st0 (keyToken k) dep)).
    { intros r2 st2 H2' Hs2.
      destruct (IH _ _ _ Hea H2' Ea Hs2) as (dep & Hin & Hdep).
      exists dep. split; [by right|done]. }
    apply bind_inv in H2 as [(b & stb & H2 & H3)|(e & H2 & ->)].
    + injection H3 as <- <-. by eapply Hrest.
    + by eapply Hrest.
Qed.

Lemma createInstance_reach t reg st r st' :
  container st0 !! t = Some reg →
  ext st0 st → createInstance rec reg sc st = (r, st') →
  slot k st = None → is_Some (slot k st') →
  factory reg = None ∧
  ∃ dep, dep ∈ dependencies reg ∧
         (dep = keyToken k ∨ leads sc st0 (keyToken k) dep).
Proof.
  intros Hreg He. unfold createInstance.
  pose proof (ext_container _ _ He) as Hst.
  destruct (factory reg) as [f|] eqn:Hf.
  - intros H Hn [w Hw].
    rewrite (callFactory_quiet _ _ _ _ _ _ Hst Hreg Hf H) in Hw. congruence.
  - intros H Hn Hs. split; [done|].
    apply bind_inv in H as [(vs & st1 & H1 & H2)|(e & H1 & ->)].
    + assert (Hst1 : container st1 = container st0).
      { rewrite <- Hst.
        apply (ext_container _ _ (mapM_ext _ rec_ext _ _ _ _ _ H1)). }
      rewrite (construct_quiet t reg _ _ st1 _ _ Hst1 Hreg Hf eq_refl H2) in Hs.
      by eapply mapM_reach.
    + by eapply mapM_reach.
Qed.

Lemma leads_of_build t reg st r st' :
  container st !! t = Some reg → uncached sc st t reg →
  ext st0 st → createInstance rec reg sc st = (r, st') →
  slot k st = None → is_Some (slot k st') →
  leads sc st0 (keyToken k) t.
Proof.
  intros Hreg Hu He H Hn Hs.
  rewrite (ext_container _ _ He) in Hreg.
  destruct (createInstance_reach _ _ _ _ _ Hreg He H Hn Hs)
    as (Hf & dep & Hin & Hdep).
  apply (uncached_ext _ _ _ _ _ He) in Hu.
  destruct Hdep as [->|Hdep].
  - by eapply leads_direct.
  - by eapply leads_via.
Qed.

Lemma getInstanceBody_reach t st r st' :
  ext st0 st → getInstanceBody rec t sc st = (r, st') →
  slot k st = None → is_Some (slot k st') →
  t = keyToken k ∨ leads sc st0 (keyToken k) t.
Proof.
  intros He. rewrite getInstanceBody_eq.
  destruct (container st !! t) as [reg|] eqn:Hreg.
  2:{ intros H Hn [w Hw]. injection H as <- <-. congruence. }
  destruct (lifestyle reg) eqn:Hl.
  - intros H Hn Hs. right. eapply leads_of_build; eauto.
    unfold uncached. by rewrite Hl.
  - assert (Hcase : sc = None ∨ ∃ s, sc = Some s) by (destruct sc; eauto).
    destruct Hcase as [Esc|[s Esc]]; intros H Hn Hs; rewrite Esc in H.
    { injection H as <- <-. destruct Hs as [w Hw]. congruence. }
    rewrite resolveScoped_eq, <- Esc in H.
    destruct (scopeOf st s !! t) as [w|] eqn:Ew.
    { injection H as <- <-. destruct Hs as [w' Hw']. congruence. }
    assert (Hu : uncached sc st t reg).
    { unfold uncached. rewrite Hl. intros s' Es'. congruence. }
    destruct (createInstance rec reg sc st) as [[w|e] st1] eqn:Hb;
      injection H as <- <-; [|right; eapply leads_of_build; eauto].
    destruct (slot k st1) as [w'|] eqn:Ek.
    + right. eapply leads_of_build; eauto.
    + left. by rewrite (slot_cache_scoped _ _ _ _ _ Ek Hs).
  - intros H Hn Hs. rewrite resolveSingleton_eq in H.
    destruct (singletons st !! t) as [w|] eqn:Ew.
    { injection H as <- <-. destruct Hs as [w' Hw']. congruence. }
    assert (Hu : uncached sc st t reg).
    { unfold uncached. by rewrite Hl. }
    destruct (createInstance rec reg sc st) as [[w|e] st1] eqn:Hb;
      injection H as <- <-; [|right; eapply leads_of_build; eauto].
    destruct (slot k st1) as [w'|] eqn:Ek.
    + right. eapply leads_of_build; eauto.
    + left. by rewrite (slot_cache_singleton _ _ _ _ Ek Hs).
Qed.
End Reach.

Lemma getInstance_reach sc st0 k d t st r st' :
  plain (container st0) ∨
  (scopeless (container st0) ∧ ∃ s t, k = InScope s t) →
  ext st0 st → getInstance d t sc st = (r, st') →
  slot k st = None → is_Some (slot k st') →
  t = keyToken k ∨ leads sc st0 (keyToken k) t.
Proof.
  intros Hq. revert t st r st'.
  induction d as [|d IH]; intros t st r st' He; simpl.
  - intros H Hn [w Hw]. injection H as <- <-. congruence.
  - apply getInstanceBody_reach; try done.
    + apply getInstance_rec_ext.
    + intros t1 st1 r1 st1' s t' Hless H1.
      by eapply getInstance_none_scopes.
Qed.

Lemma leads_cyclic sc st T :
  leads sc st T T → cyclic (leads sc st T) sc st.
Proof.
  intros HT b Hb. destruct Hb as [b reg Hreg Hf Hu Hin|b reg dep Hreg Hf Hu Hin Hdep].
  - exists reg, T. by repeat split.
  - exists reg, dep. by repeat split.
Qed.

(** A build has cached no instance of the token it builds when it
    returns, whether with an instance or with an error. *)
Lemma build_caches_no_own_instance d0 T k sc st r stx reg :
  plain (container st) ∨
  (scopeless (container st) ∧ ∃ s t, k = InScope s t) →
  keyToken k = T →
  container st !! T = Some reg → uncached sc st T reg →
  (∀ st1, uncached sc st1 T reg → slot k st1 = None) →
  createInstance (getInstance d0) reg sc st = (r, stx) →
  slot k stx = None.
Proof.
  intros Hq Hk Hreg Hu Hslot Hb. subst T.
  destruct (slot k stx) as [w|] eqn:Ex; [|done]. exfalso.
  assert (HT : leads sc st (keyToken k) (keyToken k)).
  { eapply (leads_of_build sc st k (getInstance d0) Hq); eauto.
    - apply getInstance_rec_ext.
    - intros t1 st1 r1 st1' s t' Hless H1. by eapply getInstance_none_scopes.
    - intros t st1 r1 st1'. by apply getInstance_reach.
    - apply ext_refl. }
  assert (Hless : scopeless (container st)).
  { destruct Hq as [Hq|[Hq _]]; [by apply plain_scopeless|done]. }
  assert (Hcyc : cyclic (leads sc st (keyToken k)) sc stx).
  { eapply createInstance_cyclic; [|exact Hreg|by apply leads_cyclic|exact Hb].
    intros s Hs. by destruct (Hless s). }
  destruct (Hcyc _ HT) as (reg' & dep & Hreg' & _ & Hu' & _).
  rewrite (ext_container _ _
             (createInstance_ext _ (getInstance_rec_ext d0) _ _ _ _ _ Hb))
    in Hreg'.
  assert (reg' = reg) by congruence. subst reg'.
  rewrite (Hslot _ Hu') in Ex. done.
Qed.

(** With builders that do not resolve through the injector, the first
    resolution of a Singleton token completes one build of it: no entry
    for the token is in the cache when that build returns. *)
Lemma getInstance_singleton_first d T sc st v st' reg :
  plain (container st) →
  container st !! T = Some reg → lifestyle reg = Singleton →
  singletons st !! T = None →
  getInstance d T sc st = (Ok v, st') →
  ∃ d0 stx, d = S d0 ∧
    createInstance (getInstance d0) reg sc st = (Ok v, stx) ∧
    singletons stx !! T = None ∧
    st' = set_singletons (insert T v) stx.
Proof.
  intros Hp Hreg Hl Hn H.
  destruct (getInstance_singleton_miss _ _ _ _ _ _ _ Hreg Hl Hn H)
    as (d0 & stx & -> & Hb & ->).
  exists d0, stx. repeat split; try done.
  apply (build_caches_no_own_instance d0 T (InSingletons T) sc st (Ok v) stx reg);
    try done.
  - by left.
  - unfold uncached. by rewrite Hl.
  - intros st1 Hu. unfold uncached in Hu. by rewrite Hl in Hu.
Qed.

(** With builders that hold no scope handle, the same for the first
    resolution of a Scoped token in a scope. *)
Lemma getInstance_scoped_first d T s st v st' reg :
  scopeless (container st) →
  container st !! T = Some reg → lifestyle reg = Scoped →
  scopeOf st s !! T = None →
  getInstance d T (Some s) st = (Ok v, st') →
  ∃ d0 stx, d = S d0 ∧
    createInstance (getInstance d0) reg (Some s) st = (Ok v, stx) ∧
    scopeOf stx s !! T = None ∧
    st' = set_scopes (insert s (<[T := v]> (scopeOf stx s))) stx.
Proof.
  intros Hless Hreg Hl Hn H.
  destruct (getInstance_scoped_miss _ _ _ _ _ _ _ Hreg Hl Hn H)
    as (d0 & stx & -> & Hb & ->).
  exists d0, stx. repeat split; try done.
  apply (build_caches_no_own_instance d0 T (InScope s T) (Some s) st (Ok v) stx reg);
    try done.
  - right. eauto.
  - unfold uncached. rewrite Hl. by intros s' [= <-].
  - intros st1 Hu. unfold uncached in Hu. rewrite Hl in Hu. by apply Hu.
Qed.

(** ** Singleton lifetime *)

(** C1, in the form that holds. Once a resolution of a Singleton token
    has returned an instance to the caller of the container, every later
    resolution of that token on the same container, directly or through
    any scope handle and after any other operations, returns that same
    instance without invoking any builder or changing anything.  A
    resolution that found nothing cached ran the recipe from the state it
    started in and stored the result of the recipe over whatever the
    cache held for the token when the recipe returned; with builders
    that do not resolve through the injector nothing was cached for the
    token at that moment, so that the instance was built exactly once. *)
Theorem singleton_identical_instance
    (d : nat) (T : string) (sc : option nat) (st st1 : State)
    (v : Value) (reg : Registration) :
  container st !! T = Some reg → lifestyle reg = Singleton →
  getInstance d T sc st = (Ok v, st1) →
  singletons st1 !! T = Some v ∧
  (singletons st !! T = None →
   ∃ (d0 : nat) (stx : State),
     d = S d0 ∧
     createInstance (getInstance d0) reg sc st = (Ok v, stx) ∧
     st1 = set_singletons (insert T v) stx ∧
     length (calls st) < length (calls st1) ∧
     (plain (container st) → singletons stx !! T = None)) ∧
  ∀ (ops : list Op) (d' : nat) (sc' : option nat) (reg' : Registration),
    container (run ops st1) !! T = Some reg' → lifestyle reg' = Singleton →
    getInstance (S d') T sc' (run ops st1) = (Ok v, run ops st1).
Proof.
  intros Hreg Hl H.
  destruct (getInstance_singleton_ok _ _ _ _ _ _ _ Hreg Hl H) as [Hv Hb].
  split; [done|]. split.
  - intros Hn.
    destruct (getInstance_singleton_miss _ _ _ _ _ _ _ Hreg Hl Hn H)
      as (d0 & stx & -> & Hc & ->).
    exists d0, stx. do 3 (split; [done|]). split; [by apply Hb|].
    intros Hp.
    destruct (getInstance_singleton_first _ _ _ _ _ _ _ Hp Hreg Hl Hn H)
      as (d1 & stx' & [= <-] & Hc' & Hx & _).
    rewrite Hc in Hc'. by injection Hc' as <-.
  - intros ops d' sc' reg' Hreg' Hl'.
    eapply getInstance_singleton_hit; eauto. by apply (run_singletons ops st1).
Qed.

(** C9, in the form that holds. A singleton cache entry that is in the
    cache when an operation of the container starts survives the
    operation, re-registration of its token included, and is what every
    later resolution of the token returns while its lifestyle is
    Singleton.  The resolution that creates the entry writes it when
    its build returns, over whatever the cache holds for the token
    then. *)
Theorem singleton_entry_retained
    (T : string) (v : Value) (st : State) (ops : list Op) :
  singletons st !! T = Some v →
  singletons (run ops st) !! T = Some v ∧
  (∀ (d : nat) (sc : option nat) (reg : Registration),
     container (run ops st) !! T = Some reg → lifestyle reg = Singleton →
     getInstance (S d) T sc (run ops st) = (Ok v, run ops st)) ∧
  (∀ (d : nat) (sc : option nat) (reg : Registration) (st0 st' : State)
     (w : Value),
     container st0 !! T = Some reg → lifestyle reg = Singleton →
     singletons st0 !! T = None →
     getInstance d T sc st0 = (Ok w, st') →
     ∃ (d0 : nat) (stx : State),
       d = S d0 ∧
       createInstance (getInstance d0) reg sc st0 = (Ok w, stx) ∧
       st' = set_singletons (insert T w) stx).
Proof.
  intros Hv. pose proof (run_singletons ops _ _ _ Hv) as Hv'.
  split; [done|]. split.
  - intros d sc reg Hreg Hl. by eapply getInstance_singleton_hit.
  - intros d sc reg st0 st' w. apply getInstance_singleton_miss.
Qed.

(** ** Registration *)

(** C8. Registering a token twice, with [register] or [registerFactory]
    in any combination, stores the Registration of the second call and
    nothing of the first: the container is exactly as the second
    registration alone would leave it, every resolution behaves the
    same, and a resolution of the token acts on the lifestyle and the
    recipe of the second Registration. *)
Theorem registration_overwrites
    (T : string) (o1 o2 : Op) (st : State) :
  registeredToken o1 = Some T → registeredToken o2 = Some T →
  ∃ r2 : Registration,
    registrationOf o2 = Some r2 ∧
    container (step o2 (step o1 st)) !! T = Some r2 ∧
    step o2 (step o1 st) = step o2 st ∧
    (∀ (d : nat) (t : string) (sc : option nat),
       getInstance d t sc (step o2 (step o1 st))
       = getInstance d t sc (step o2 st)) ∧
    (∀ (d : nat) (sc : option nat),
       getInstance (S d) T sc (step o2 (step o1 st))
       = match lifestyle r2 with
         | Singleton =>
             resolveSingleton (getInstance d) T r2 sc (step o2 (step o1 st))
         | Scoped =>
             match sc with
             | None => (Throw NoActiveScope, step o2 (step o1 st))
             | Some s =>
                 resolveScoped (getInstance d) T r2 s (step o2 (step o1 st))
             end
         | PerRequest =>
             createInstance (getInstance d) r2 sc (step o2 (step o1 st))
         end).
Proof.
  intros H1 H2.
  assert (E : step o2 (step o1 st) = step o2 st).
  { destruct o1, o2; simpl in *; try done; simplify_eq;
      unfold register, registerFactory, set_container; simpl;
      by rewrite insert_insert_eq. }
  assert (Hr : ∃ r2, registrationOf o2 = Some r2 ∧
                 container (step o2 (step o1 st)) !! T = Some r2).
  { rewrite E. destruct o2; simpl in *; try done; simplify_eq;
      eexists; (split; [done|]); simpl; by rewrite lookup_insert_eq. }
  destruct Hr as (r2 & Hr2 & Hin). exists r2.
  do 3 (split; [done|]). split.
  - intros. by rewrite E.
  - intros d sc. simpl. by rewrite getInstanceBody_eq, Hin.
Qed.

(** ** Frame *)

(** C10. A resolution leaves the registry as it was; a scope cache
    changes only by gaining entries, only for tokens registered as
    Scoped, and only if it is the cache supplied to the call or one a
    builder of the registry holds the handle of; the requested token
    itself gets no entry when its lifestyle is Singleton or
    PerRequest. *)
Theorem resolution_frame
    (d : nat) (t : string) (sc : option nat) (st st' : State) (r : Result Value) :
  getInstance d t sc st = (r, st') →
  container st' = container st ∧
  (∀ (s : nat) (t' : string),
     scopeOf st' s !! t' ≠ scopeOf st s !! t' →
     (sc = Some s ∨ builderScope (container st) s) ∧
     scopeOf st s !! t' = None ∧
     ∃ reg, container st !! t' = Some reg ∧ lifestyle reg = Scoped) ∧
  (∀ (s : nat) (reg : Registration),
     container st !! t = Some reg → lifestyle reg ≠ Scoped →
     scopeOf st' s !! t = scopeOf st s !! t).
Proof.
  intros H0. pose proof (getInstance_ext _ _ _ _ _ _ H0) as H.
  assert (Hch : ∀ s t', scopeOf st' s !! t' ≠ scopeOf st s !! t' →
     (sc = Some s ∨ builderScope (container st) s) ∧
     scopeOf st s !! t' = None ∧
     ∃ reg, container st !! t' = Some reg ∧ lifestyle reg = Scoped).
  { intros s t' Hne.
    destruct (scopeOf st s !! t') as [v|] eqn:E.
    - destruct Hne. by apply (ext_scopes _ _ H).
    - destruct (scopeOf st' s !! t') as [v|] eqn:E'; [|done].
      split; [|split; [done|]].
      + eapply getInstance_touch; [exact H0|exact E|]. rewrite E'. eauto.
      + apply (ext_scopes_new _ _ H s t' E). rewrite E'. eauto. }
  split; [apply (ext_container _ _ H)|]. split; [done|].
  intros s reg Hreg Hl.
  destruct (decide (scopeOf st' s !! t = scopeOf st s !! t)) as [|Hne]; [done|].
  destruct (Hch s t Hne) as (_ & _ & reg' & Hreg' & Hl'). congruence.
Qed.

(** ** Where errors come from *)

Lemma errSound_ext st st1 e : ext st st1 → errSound st1 e → errSound st e.
Proof.
  intros H. destruct e; simpl; try done.
  - by rewrite (ext_container _ _ H).
  - by rewrite (ext_container _ _ H).
Qed.

Section ResolutionErrors.
Variable rec : string → option nat → M Value.
Hypothesis rec_ext : ∀ t sc st r st', rec t sc st = (r, st') → ext st st'.
Hypothesis rec_err : ∀ t sc st e st',
  rec t sc st = (Throw e, st') → errSound st e.

(** What leaves the body of a builder was thrown by a resolution the body
    asked for. *)
Lemma runProg_err p st e st' :
  runProg rec p st = (Throw e, st') → errSound st e.
Proof.
  revert st. induction p as [o|t sc k IH|k IH]; intros st H; simpl in H.
  - done.
  - apply bind_inv in H as [(v & st1 & H1 & H2)|(e' & H1 & [= <-])].
    + eapply errSound_ext; [by eapply rec_ext|by eapply IH].
    + by eapply rec_err.
  - by eapply IH.
Qed.

Lemma callFactory_err f st e st' :
  callFactory rec f st = (Throw e, st') → errSound st e.
Proof.
  rewrite callFactory_eq.
  destruct (runProg rec f _) as [[o|e'] st1] eqn:E.
  - destruct o; intros H; inversion H; done.
  - intros H. injection H as <- <-.
    eapply errSound_ext; [apply ext_log|by eapply runProg_err].
Qed.

Lemma construct_err impl args st e st' :
  construct rec impl args st = (Throw e, st') → errSound st e.
Proof.
  destruct impl as [c|]; [|intros H; by injection H as <- <-].
  rewrite construct_eq.
  destruct (runProg rec (ctor c args) _) as [[o|e'] st1] eqn:E.
  - destruct o as [[]|ob|]; intros H; inversion H; done.
  - intros H. injection H as <- <-.
    eapply errSound_ext; [|by eapply runProg_err].
    eapply ext_trans; [apply ext_log|]. apply (ext_alloc (set_calls _ st)).
Qed.

Lemma mapM_err sc ds st e st' :
  mapM (fun d => rec d sc) ds st = (Throw e, st') → errSound st e.
Proof.
  revert st. induction ds as [|d ds IH]; intros st H; simpl in H; [done|].
  apply bind_inv in H as [(a & st1 & H1 & H2)|(e' & H1 & He)].
  - apply bind_inv in H2 as [(b & st2 & H2 & H3)|(e' & H2 & He)]; [done|].
    inversion He; subst e'.
    eapply errSound_ext; [by eapply rec_ext|]. by apply IH.
  - inversion He; subst e'. by eapply rec_err.
Qed.

Lemma createInstance_err reg sc st e st' :
  createInstance rec reg sc st = (Throw e, st') → errSound st e.
Proof.
  unfold createInstance. destruct (factory reg) as [f|].
  - apply callFactory_err.
  - intros H. apply bind_inv in H as [(a & st1 & H1 & H2)|(e' & H1 & He)].
    + eapply errSound_ext; [by eapply mapM_ext|by eapply construct_err].
    + inversion He; subst e'. by eapply mapM_err.
Qed.

Lemma getInstanceBody_err t sc st e st' :
  getInstanceBody rec t sc st = (Throw e, st') → errSound st e.
Proof.
  rewrite getInstanceBody_eq.
  destruct (container st !! t) as [reg|] eqn:Hreg.
  - destruct (lifestyle reg) eqn:Hl.
    + apply createInstance_err.
    + destruct sc as [s|].
      * rewrite resolveScoped_eq. destruct (scopeOf st s !! t); [done|].
        destruct (createInstance rec reg (Some s) st) as [[w|e'] st1] eqn:Hb;
          [done|].
        intros H. injection H as <- <-. by eapply createInstance_err.
      * intros H. injection H as <- <-. simpl. eauto.
    + rewrite resolveSingleton_eq. destruct (singletons st !! t); [done|].
      destruct (createInstance rec reg sc st) as [[w|e'] st1] eqn:Hb; [done|].
      intros H. injection H as <- <-. by eapply createInstance_err.
  - intros H. by injection H as <- <-.
Qed.
End ResolutionErrors.

Lemma getInstance_err d t sc st e st' :
  getInstance d t sc st = (Throw e, st') → errSound st e.
Proof.
  revert t sc st e st'. induction d as [|d IH]; intros t sc st e st'; simpl.
  - intros H. by injection H as <- <-.
  - apply getInstanceBody_err; [apply getInstance_rec_ext|exact IH].
Qed.

(** The two checks made before anything is built. *)
Lemma getInstance_unregistered d t sc st :
  container st !! t = None →
  getInstance (S d) t sc st = (Throw (NotRegistered t), st).
Proof. intros Hn. simpl. by rewrite getInstanceBody_eq, Hn. Qed.

Lemma getInstance_scoped_no_scope d t st reg :
  container st !! t = Some reg → lifestyle reg = Scoped →
  getInstance (S d) t None st = (Throw NoActiveScope, st).
Proof. intros Hreg Hl. simpl. by rewrite getInstanceBody_eq, Hreg, Hl. Qed.

(** ** Errors *)


(** [createScope] hands out a handle to an empty cache that no other
    handle denotes, and touches nothing else. *)
Lemma createScope_spec st s st' :
  createScope st = (s, st') →
  scopes st !! s = None ∧ scopeOf st' s = ∅ ∧
  (∀ s', s' ≠ s → scopeOf st' s' = scopeOf st s') ∧
  scopes st' !! s = Some ∅ ∧
  container st' = container st ∧ singletons st' = singletons st ∧
  heap st' = heap st ∧ calls st' = calls st.
Proof.
  unfold createScope. intros H. inversion H; subst; clear H.
  set (s := fresh (dom (scopes st))).
  assert (Hs : scopes st !! s = None).
  { apply not_elem_of_dom. apply is_fresh. }
  repeat split; try done.
  - rewrite scopeOf_set_scopes_insert. by rewrite decide_True.
  - intros s' Hne. rewrite scopeOf_set_scopes_insert. by rewrite decide_False.
  - simpl. by rewrite lookup_insert_eq.
Qed.

(** ** Scope caches across operations *)

Lemma scopeOf_Some_dom st s t v :
  scopeOf st s !! t = Some v → is_Some (scopes st !! s).
Proof.
  unfold scopeOf. destruct (scopes st !! s); [eauto|]. simpl.
  by rewrite lookup_empty.
Qed.

Lemma createScope_keeps st s t v :
  scopeOf st s !! t = Some v → scopeOf (snd (createScope st)) s !! t = Some v.
Proof.
  intros Hv. destruct (createScope st) as [s' st'] eqn:E. simpl.
  destruct (createScope_spec _ _ _ E) as (Hfresh & _ & Hother & _).
  rewrite Hother; [done|]. intros ->.
  destruct (scopeOf_Some_dom _ _ _ _ Hv) as [m Hm]. congruence.
Qed.

Lemma step_scopes o st s t v :
  scopeOf st s !! t = Some v → scopeOf (step o st) s !! t = Some v.
Proof.
  destruct o as [t' c l ds ps|t' f l| |d t' sc]; simpl; try done.
  - apply createScope_keeps.
  - intros Hv. destruct (getInstance d t' sc st) as [r st'] eqn:E. simpl.
    by apply (ext_scopes _ _ (getInstance_ext _ _ _ _ _ _ E)).
Qed.

Lemma run_scopes ops st s t v :
  scopeOf st s !! t = Some v → scopeOf (run ops st) s !! t = Some v.
Proof.
  revert st. induction ops as [|o ops IH]; intros st Hv; simpl; [done|].
  apply IH. by apply step_scopes.
Qed.

Lemma step_scopes_dom o st s :
  is_Some (scopes st !! s) → is_Some (scopes (step o st) !! s).
Proof.
  destruct o as [t' c l ds ps|t' f l| |d t' sc]; simpl; try done.
  - intros Hs. destruct (decide (fresh (dom (scopes st)) = s)) as [<-|Hne].
    + rewrite lookup_insert_eq. eauto.
    + by rewrite lookup_insert_ne.
  - intros Hs. destruct (getInstance d t' sc st) as [r st'] eqn:E. simpl.
    by apply (ext_scopes_dom _ _ (getInstance_ext _ _ _ _ _ _ E)).
Qed.

Lemma run_scopes_dom ops st s :
  is_Some (scopes st !! s) → is_Some (scopes (run ops st) !! s).
Proof.
  revert st. induction ops as [|o ops IH]; intros st Hs; simpl; [done|].
  apply IH. by apply step_scopes_dom.
Qed.

(** ** The heap across operations *)

Lemma step_heap o st : heap st `prefix_of` heap (step o st).
Proof.
  destruct o as [t' c l ds ps|t' f l| |d t' sc]; simpl; try done.
  destruct (getInstance d t' sc st) as [r st'] eqn:E. simpl.
  apply (ext_heap _ _ (getInstance_ext _ _ _ _ _ _ E)).
Qed.

Lemma run_heap ops st : heap st `prefix_of` heap (run ops st).
Proof.
  revert st. induction ops as [|o ops IH]; intros st; simpl; [done|].
  etrans; [apply step_heap|apply IH].
Qed.

(** ** Scoped lifetime *)

(** C2, in the form that holds. Once a resolution of a Scoped token
    through a scope handle has returned an instance to the caller of the
    container, every later resolution through that handle returns the
    same instance; a resolution that found nothing cached stored the
    result of the recipe over whatever the scope cache held for the
    token when the recipe returned; handles from different [createScope]
    calls are different and start empty; and when the recipes make a new
    object on each build, a later resolution through a handle that holds
    no entry for the token returns a different instance. *)
Theorem scoped_one_per_scope
    (d : nat) (T : string) (reg : Registration) (s1 : nat)
    (st st1 : State) (v1 : Value) :
  container st !! T = Some reg → lifestyle reg = Scoped →
  getInstance d T (Some s1) st = (Ok v1, st1) →
  (∀ (ops : list Op) (d' : nat) (reg' : Registration),
     container (run ops st1) !! T = Some reg' → lifestyle reg' = Scoped →
     getInstance (S d') T (Some s1) (run ops st1) = (Ok v1, run ops st1)) ∧
  (scopeOf st s1 !! T = None →
   ∃ (d0 : nat) (stx : State),
     d = S d0 ∧
     createInstance (getInstance d0) reg (Some s1) st = (Ok v1, stx) ∧
     st1 = set_scopes (insert s1 (<[T := v1]> (scopeOf stx s1))) stx ∧
     (scopeless (container st) → scopeOf stx s1 !! T = None)) ∧
  (∀ (ops : list Op) (s2 d' : nat) (reg' : Registration)
     (v2 : Value) (st2 : State),
     allocates reg → scopeOf st s1 !! T = None →
     container (run ops st1) !! T = Some reg' → lifestyle reg' = Scoped →
     allocates reg' → scopeOf (run ops st1) s2 !! T = None →
     getInstance d' T (Some s2) (run ops st1) = (Ok v2, st2) →
     s2 ≠ s1 ∧ v2 ≠ v1) ∧
  (∀ (st0 sta stb : State) (sa sb : nat) (ops : list Op),
     createScope st0 = (sa, sta) → createScope (run ops sta) = (sb, stb) →
     sb ≠ sa ∧ scopeOf sta sa = ∅ ∧ scopeOf stb sb = ∅).
Proof.
  intros Hreg Hl H.
  pose proof (getInstance_scoped_ok _ _ _ _ _ _ _ Hreg Hl H) as Hc.
  split; [|split; [|split]].
  - intros ops d' reg' Hreg' Hl'.
    eapply getInstance_scoped_hit; eauto.
    by apply (run_scopes ops st1).
  - intros Hn.
    destruct (getInstance_scoped_miss _ _ _ _ _ _ _ Hreg Hl Hn H)
      as (d0 & stx & -> & Hb & ->).
    exists d0, stx. do 3 (split; [done|]). intros Hless.
    destruct (getInstance_scoped_first _ _ _ _ _ _ _ Hless Hreg Hl Hn H)
      as (d1 & stx' & [= <-] & Hb' & Hx & _).
    rewrite Hb in Hb'. by injection Hb' as <-.
  - intros ops s2 d' reg' v2 st2 Ha Hn1 Hreg' Hl' Ha' Hn2 H2.
    split.
    { intros ->. apply (run_scopes ops) in Hc. congruence. }
    destruct (getInstance_scoped_miss _ _ _ _ _ _ _ Hreg Hl Hn1 H)
      as (d0 & stx & -> & Hc1 & Est1).
    apply createInstance_ok_fresh in Hc1 as (a1 & -> & _ & Hlt1);
      [|apply getInstance_rec_ext|done].
    destruct (getInstance_scoped_miss _ _ _ _ _ _ _ Hreg' Hl' Hn2 H2)
      as (d0' & sty & -> & Hc2 & ->).
    apply createInstance_ok_fresh in Hc2 as (a2 & -> & Hle2 & _);
      [|apply getInstance_rec_ext|done].
    pose proof (prefix_length _ _ (run_heap ops st1)) as Hlen.
    rewrite Est1 in Hlen at 1. simpl in Hlen.
    intros [= ->]. lia.
  - intros st0 sta stb sa sb ops Ha Hb.
    destruct (createScope_spec _ _ _ Ha) as (_ & Hea & _ & Hsa & _).
    destruct (createScope_spec _ _ _ Hb) as (Hfb & Heb & _).
    split; [|done].
    intros ->. destruct (run_scopes_dom ops sta sa) as [m Hm]; [eauto|].
    congruence.
Qed.

(** ** Tokens that are not cached *)

Lemma ext_singleton_unchanged st st' t reg :
  ext st st' → container st !! t = Some reg → lifestyle reg ≠ Singleton →
  singletons st' !! t = singletons st !! t.
Proof.
  intros H Hreg Hl. destruct (singletons st !! t) as [v|] eqn:E.
  - by apply (ext_singletons _ _ H).
  - destruct (singletons st' !! t) as [v|] eqn:E'; [|done].
    destruct (ext_singletons_new _ _ H t E) as (r & Hr & Hlr); [eauto|].
    congruence.
Qed.

Lemma ext_scoped_unchanged st st' s t reg :
  ext st st' → container st !! t = Some reg → lifestyle reg ≠ Scoped →
  scopeOf st' s !! t = scopeOf st s !! t.
Proof.
  intros H Hreg Hl. destruct (scopeOf st s !! t) as [v|] eqn:E.
  - by apply (ext_scopes _ _ H).
  - destruct (scopeOf st' s !! t) as [v|] eqn:E'; [|done].
    destruct (ext_scopes_new _ _ H s t E) as (r & Hr & Hlr); [eauto|].
    congruence.
Qed.

(** ** PerRequest lifetime *)

(** C5, in the form that holds. Every successful resolution of a
    PerRequest token invokes a builder and leaves no cache entry for the
    token; two consecutive resolutions return distinct instances
    whenever the recipe makes a new object on each build. *)
Theorem perRequest_always_builds
    (d d' : nat) (T : string) (reg : Registration) (sc sc' : option nat)
    (st st1 st2 : State) (v1 v2 : Value) :
  container st !! T = Some reg → lifestyle reg = PerRequest →
  getInstance d T sc st = (Ok v1, st1) →
  getInstance d' T sc' st1 = (Ok v2, st2) →
  length (calls st) < length (calls st1) ∧
  length (calls st1) < length (calls st2) ∧
  singletons st2 !! T = singletons st !! T ∧
  (∀ s : nat, scopeOf st2 s !! T = scopeOf st s !! T) ∧
  (allocates reg → v2 ≠ v1).
Proof.
  intros Hreg Hl H1 H2.
  pose proof (getInstance_ext _ _ _ _ _ _ H1) as He1.
  pose proof (getInstance_ext _ _ _ _ _ _ H2) as He2.
  assert (Hreg1 : container st1 !! T = Some reg)
    by (by rewrite (ext_container _ _ He1)).
  assert (Hl1 : lifestyle reg ≠ Singleton) by (rewrite Hl; done).
  assert (Hl2 : lifestyle reg ≠ Scoped) by (rewrite Hl; done).
  destruct (getInstance_perRequest _ _ _ _ _ _ _ Hreg Hl H1)
    as [(_ & ? & _)|(d0 & -> & Hc1)]; [done|].
  destruct (getInstance_perRequest _ _ _ _ _ _ _ Hreg1 Hl H2)
    as [(_ & ? & _)|(d0' & -> & Hc2)]; [done|].
  repeat split.
  - eapply createInstance_ok_calls; [apply getInstance_rec_ext|exact Hc1].
  - eapply createInstance_ok_calls; [apply getInstance_rec_ext|exact Hc2].
  - rewrite (ext_singleton_unchanged _ _ _ _ He2 Hreg1 Hl1).
    apply (ext_singleton_unchanged _ _ _ _ He1 Hreg Hl1).
  - intros s. rewrite (ext_scoped_unchanged _ _ s _ _ He2 Hreg1 Hl2).
    apply (ext_scoped_unchanged _ _ s _ _ He1 Hreg Hl2).
  - intros Ha.
    apply createInstance_ok_fresh in Hc1 as (a1 & -> & _ & Hlt1);
      [|apply getInstance_rec_ext|done].
    apply createInstance_ok_fresh in Hc2 as (a2 & -> & Hle2 & _);
      [|apply getInstance_rec_ext|done].
    intros [= ->]. lia.
Qed.

(** ** What a scoped consumer is built from *)

Lemma injected_ext s st st' dep v :
  ext st st' → injected s st dep v → injected s st' dep v.
Proof.
  intros He Hi r Hr. rewrite (ext_container _ _ He) in Hr.
  specialize (Hi r Hr). destruct (lifestyle r); [done| |].
  - by apply (ext_scopes _ _ He).
  - by apply (ext_singletons _ _ He).
Qed.

Lemma injected_cache_scoped s st t w dep v :
  scopeOf st s !! t = None → injected s st dep v →
  injected s (set_scopes (insert s (<[t := w]> (scopeOf st s))) st) dep v.
Proof.
  intros Hn Hi r Hr. specialize (Hi r Hr).
  destruct (lifestyle r); [done| |done].
  rewrite scopeOf_set_scopes_insert, decide_True by done.
  rewrite lookup_insert_ne; [done|]. intros ->. congruence.
Qed.

Lemma injected_cache_singleton s st t w dep v :
  singletons st !! t = None → injected s st dep v →
  injected s (set_singletons (insert t w) st) dep v.
Proof.
  intros Hn Hi r Hr. specialize (Hi r Hr).
  destruct (lifestyle r); [done|done|].
  simpl. rewrite lookup_insert_ne; [done|]. intros ->. congruence.
Qed.

(** Every dependency is resolved in the scope of the caller. *)
Lemma mapM_injected d0 s ds st vs st' :
  mapM (fun dep => getInstance d0 dep (Some s)) ds st = (Ok vs, st') →
  Forall2 (injected s st') ds vs.
Proof.
  revert st vs. induction ds as [|dep ds IH]; intros st vs H; simpl in H.
  - inversion H; subst. constructor.
  - apply bind_inv in H as [(a & sta & H1 & H2)|(e & H1 & ?)]; [|done].
    apply bind_inv in H2 as [(b & stb & H2 & H3)|(e & H2 & ?)]; [|done].
    inversion H3; subst vs st'; clear H3.
    pose proof (getInstance_ext _ _ _ _ _ _ H1) as He1.
    pose proof (mapM_ext _ (getInstance_rec_ext d0) _ _ _ _ _ H2) as He2.
    constructor; [|by apply (IH sta)].
    apply (injected_ext _ _ _ _ _ He2).
    intros r Hr. rewrite (ext_container _ _ He1) in Hr.
    destruct (lifestyle r) eqn:Hl; [done| |].
    + by apply (getInstance_scoped_ok _ _ _ _ _ _ _ Hr Hl H1).
    + by apply (getInstance_singleton_ok _ _ _ _ _ _ _ Hr Hl H1).
Qed.

Lemma Forall2_same_left {A C} (P Q : A → C → Prop) l k1 k2 :
  Forall2 P l k1 → Forall2 Q l k2 →
  (∀ x y z, x ∈ l → P x y → Q x z → y = z) →
  k1 = k2.
Proof.
  intros H1. revert k2. induction H1 as [|x y l k Hxy _ IH]; intros k2 H2 Hfun.
  - by inversion H2.
  - inversion H2 as [|? z ? k' Hxz H2']; subst. f_equal.
    + apply (Hfun x); [by left|done..].
    + apply IH; [done|]. intros x' y' z' Hin. apply Hfun. by right.
Qed.

(** C3, in the form that holds. A constructor-style build resolves every
    dependency with the scope context of its caller.  With builders that
    hold no scope handle, a Scoped token resolved twice in scope S1 is
    one instance; resolved in another scope S2 it is built again, by
    another [new], and the instance is another one when the constructor
    returns no object that existed already; each [new] was applied to
    what its own scope resolves the dependencies to (for a Scoped
    dependency the instance cached in that scope, for a Singleton
    dependency the cached singleton) followed by the literal parameters;
    and when all dependencies are Singleton, the two were applied to the
    same dependency objects. *)
Theorem scoped_consumer_shares_singletons
    (d : nat) (P : string) (reg : Registration) (s1 s2 : nat)
    (st st1 st2 st3 : State) (p1 p1' p2 : Value) :
  container st !! P = Some reg → lifestyle reg = Scoped → factory reg = None →
  scopeless (container st) →
  s1 ≠ s2 → scopeOf st s1 !! P = None → scopeOf st s2 !! P = None →
  getInstance d P (Some s1) st = (Ok p1, st1) →
  getInstance d P (Some s1) st1 = (Ok p1', st2) →
  getInstance d P (Some s2) st2 = (Ok p2, st3) →
  p1' = p1 ∧ (allocates reg → p2 ≠ p1) ∧
  ∃ (d0 n1 n2 : nat) (c : ClassType) (vs1 vs2 : list Value) (sta stb : State),
    d = S d0 ∧ implementation reg = Some c ∧
    mapM (fun dep => getInstance d0 dep (Some s1)) (dependencies reg) st
      = (Ok vs1, sta) ∧
    mapM (fun dep => getInstance d0 dep (Some s2)) (dependencies reg) st2
      = (Ok vs2, stb) ∧
    n1 = length (heap sta) ∧ n2 = length (heap stb) ∧ n1 < n2 ∧
    heap st3 !! n1 = Some (mkObj (cname c) (vs1 ++ constructorParams reg)) ∧
    heap st3 !! n2 = Some (mkObj (cname c) (vs2 ++ constructorParams reg)) ∧
    Forall2 (injected s1 st3) (dependencies reg) vs1 ∧
    Forall2 (injected s2 st3) (dependencies reg) vs2 ∧
    ((∀ args, ends keepsThis (ctor c args)) →
     p1 = VObject n1 ∧ p2 = VObject n2) ∧
    ((∀ dep, dep ∈ dependencies reg →
        ∃ r, container st !! dep = Some r ∧ lifestyle r = Singleton) →
     vs1 = vs2).
Proof.
  intros Hreg Hl Hf Hless Hne Hn1 Hn2 H1 H2 H3.
  pose proof (getInstance_ext _ _ _ _ _ _ H1) as He1.
  pose proof (getInstance_ext _ _ _ _ _ _ H3) as He3.
  pose proof (getInstance_scoped_ok _ _ _ _ _ _ _ Hreg Hl H1) as Hc1.
  assert (Hreg1 : container st1 !! P = Some reg)
    by (by rewrite (ext_container _ _ He1)).
  assert (Hless1 : scopeless (container st1))
    by (by rewrite (ext_container _ _ He1)).
  destruct (getInstance_scoped_first _ _ _ _ _ _ _ Hless Hreg Hl Hn1 H1)
    as (d0 & stx & -> & Hb1 & Hx1 & Est1).
  rewrite (getInstance_scoped_hit _ _ _ _ _ _ Hreg1 Hl Hc1) in H2.
  inversion H2; subst p1' st2; clear H2.
  assert (Hn2' : scopeOf st1 s2 !! P = None).
  { destruct (scopeOf st1 s2 !! P) eqn:E; [|done].
    destruct (getInstance_touch _ _ _ _ _ _ s2 P H1 Hn2) as [[= ?]|Hb];
      [rewrite E; eauto|done|by destruct (Hless s2)]. }
  destruct (getInstance_scoped_first _ _ _ _ _ _ _ Hless1 Hreg1 Hl Hn2' H3)
    as (d0' & sty & [= <-] & Hb2 & Hx2 & Est3).
  split; [done|]. split.
  { intros Ha.
    apply createInstance_ok_fresh in Hb1 as (a1 & -> & _ & Hlt1);
      [|apply getInstance_rec_ext|done].
    apply createInstance_ok_fresh in Hb2 as (a2 & -> & Hle2 & _);
      [|apply getInstance_rec_ext|done].
    rewrite Est1 in Hle2. simpl in Hle2. intros [= ->]. lia. }
  apply createInstance_ok_new in Hb1 as
    (c & vs1 & sta & Hc & Hm1 & Hk1 & Hea & Hex & Hh1);
    [|apply getInstance_rec_ext|done].
  apply createInstance_ok_new in Hb2 as
    (c' & vs2 & stb & Hc' & Hm2 & Hk2 & Heb & Hey & Hh2);
    [|apply getInstance_rec_ext|done].
  assert (c' = c) by congruence. subst c'.
  assert (Hheap1 : heap st1 = heap stx) by (by rewrite Est1).
  assert (Hheap3 : heap st3 = heap sty) by (by rewrite Est3).
  assert (HF1 : Forall2 (injected s1 st3) (dependencies reg) vs1).
  { eapply Forall2_impl; [exact (mapM_injected _ _ _ _ _ _ Hm1)|].
    intros dep v Hi. simpl in Hi.
    apply (injected_ext _ _ _ _ _ He3). rewrite Est1.
    apply injected_cache_scoped; [done|].
    by apply (injected_ext _ sta). }
  assert (HF2 : Forall2 (injected s2 st3) (dependencies reg) vs2).
  { eapply Forall2_impl; [exact (mapM_injected _ _ _ _ _ _ Hm2)|].
    intros dep v Hi. simpl in Hi. rewrite Est3.
    apply injected_cache_scoped; [done|].
    by apply (injected_ext _ stb). }
  pose proof (lookup_lt_Some _ _ _ Hh1) as Hlt1.
  pose proof (prefix_length _ _ (ext_heap _ _ Heb)) as Hle2.
  rewrite Hheap1 in Hle2.
  exists d0, (length (heap sta)), (length (heap stb)), c, vs1, vs2, sta, stb.
  do 6 (split; [done|]). split; [lia|].
  split.
  { eapply prefix_lookup_Some; [exact Hh1|].
    rewrite <- Hheap1. apply (ext_heap _ _ He3). }
  split; [by rewrite Hheap3|]. split; [done|]. split; [done|]. split.
  - intros Hk. split.
    + by apply (construct_ok_this _ _ _ _ _ _ (Hk _) Hk1).
    + by apply (construct_ok_this _ _ _ _ _ _ (Hk _) Hk2).
  - intros Hdeps. eapply Forall2_same_left; [exact HF1|exact HF2|].
    intros dep v v' Hin Hv Hv'.
    destruct (Hdeps dep Hin) as (r & Hr & Hlr).
    assert (Hr3 : container st3 !! dep = Some r).
    { by rewrite (ext_container _ _ He3), (ext_container _ _ He1). }
    specialize (Hv r Hr3). specialize (Hv' r Hr3).
    rewrite Hlr in Hv, Hv'. congruence.
Qed.

(** ** Order of constructor arguments *)

(** C6. Building a constructor-style Registration with dependency tokens
    [A; B] and literal parameters [p] resolves A, then B in the state A
    left, and applies [new] to the argument list
    (resolved A, resolved B, p): the call is recorded with these
    arguments, as the last call when the constructor does not resolve
    through the injector, the object [new] makes holds them in that
    order, and it is the result when the constructor only stores
    them. *)
Theorem dependency_order
    (d : nat) (reg : Registration) (c : ClassType) (A B : string) (p : Value)
    (sc : option nat) (st st1 st2 : State) (a b : Value) :
  factory reg = None → implementation reg = Some c →
  dependencies reg = [A; B] → constructorParams reg = [p] →
  getInstance d A sc st = (Ok a, st1) →
  getInstance d B sc st1 = (Ok b, st2) →
  ∃ (r : Result Value) (st' : State),
    createInstance (getInstance d) reg sc st = (r, st') ∧
    construct (getInstance d) (Some c) [a; b; p] st2 = (r, st') ∧
    (calls st2 ++ [CallNew (cname c) [a; b; p]]) `prefix_of` calls st' ∧
    (heap st2 ++ [mkObj (cname c) [a; b; p]]) `prefix_of` heap st' ∧
    (plainProg (ctor c [a; b; p]) →
     calls st' = calls st2 ++ [CallNew (cname c) [a; b; p]]) ∧
    (ctor c [a; b; p] = Done (Yield VUndefined) →
     r = Ok (VObject (length (heap st2))) ∧
     calls st' = calls st2 ++ [CallNew (cname c) [a; b; p]] ∧
     heap st' = heap st2 ++ [mkObj (cname c) [a; b; p]]).
Proof.
  intros Hf Hc Hd Hp HA HB.
  assert (E : createInstance (getInstance d) reg sc st
              = construct (getInstance d) (Some c) [a; b; p] st2).
  { unfold createInstance. rewrite Hf, Hd, Hp, Hc. simpl.
    rewrite (bind_ok _ _ st [a; b] st2); [done|].
    rewrite (bind_ok _ _ _ _ _ HA). rewrite (bind_ok _ _ st1 [b] st2); [done|].
    by rewrite (bind_ok _ _ _ _ _ HB). }
  destruct (construct (getInstance d) (Some c) [a; b; p] st2) as [r st'] eqn:Hk.
  exists r, st'. do 2 (split; [done|]).
  destruct (construct_trace _ (getInstance_rec_ext d) _ _ _ _ _ Hk) as [Hcalls Hheap].
  do 2 (split; [done|]). split.
  - intros Hplain. rewrite construct_eq in Hk.
    destruct (runProg_plain (getInstance d) (ctor c [a; b; p])
                (set_heap (fun _ => heap st2 ++ [mkObj (cname c) [a; b; p]])
                   (set_calls (fun l => l ++ [CallNew (cname c) [a; b; p]]) st2))
                Hplain) as [o Ho].
    rewrite Ho in Hk.
    destruct o as [[]|ob|]; by injection Hk as <- <-.
  - intros Hbody. rewrite construct_eq, Hbody in Hk. simpl in Hk.
    by injection Hk as <- <-.
Qed.

(** ** Singleton resolution and the scope context *)

Section ScopeIndependence.
Variable rec : string → option nat → M Value.
Variable regs : gmap string Registration.
Variable free : string → bool.
Hypothesis rec_ext : ∀ t sc st r st', rec t sc st = (r, st') → ext st st'.
Hypothesis rec_indep : ∀ t sc sc' st,
  container st = regs → free t = true → rec t sc st = rec t sc' st.

Lemma mapM_indep sc sc' ds st :
  container st = regs → forallb free ds = true →
  mapM (fun dep => rec dep sc) ds st = mapM (fun dep => rec dep sc') ds st.
Proof.
  revert st. induction ds as [|dep ds IH]; intros st Hst Hall; simpl; [done|].
  simpl in Hall. apply andb_true_iff in Hall as [Hdep Hall].
  unfold bind at 1 3. rewrite <- (rec_indep dep sc sc' st Hst Hdep).
  destruct (rec dep sc st) as [[a|e] st1] eqn:E; [|done].
  apply rec_ext in E. unfold bind.
  rewrite IH; [done| |done]. by rewrite (ext_container _ _ E).
Qed.

Lemma createInstance_indep reg sc sc' st :
  container st = regs →
  match factory reg with
  | Some _ => true
  | None => forallb free (dependencies reg)
  end = true →
  createInstance rec reg sc st = createInstance rec reg sc' st.
Proof.
  intros Hst Hall. unfold createInstance.
  destruct (factory reg) as [f|]; [done|].
  unfold bind. by rewrite (mapM_indep sc sc').
Qed.
End ScopeIndependence.

Lemma getInstance_scopeFree d t sc sc' st :
  scopeFree d (container st) t = true →
  getInstance d t sc st = getInstance d t sc' st.
Proof.
  revert t sc sc' st. induction d as [|d IH]; intros t sc sc' st Hfree; [done|].
  simpl in *. rewrite !getInstanceBody_eq.
  destruct (container st !! t) as [reg|] eqn:Hreg; [|done].
  assert (Hci : ∀ l, lifestyle reg = l → l ≠ Scoped →
    createInstance (getInstance d) reg sc st
    = createInstance (getInstance d) reg sc' st).
  { intros l Hl Hne.
    apply (createInstance_indep _ (container st) (scopeFree d (container st))).
    - apply getInstance_rec_ext.
    - intros t0 sc0 sc0' st0 Hst0 Ht0. apply IH. by rewrite Hst0.
    - done.
    - rewrite Hl in Hfree. by destruct l. }
  destruct (lifestyle reg) eqn:Hl.
  - by apply (Hci PerRequest).
  - done.
  - rewrite !resolveSingleton_eq. by rewrite (Hci Singleton).
Qed.

(** C7, in the form that holds. Resolving a Singleton token does not depend on the
    scope context when its instance is cached already, and when no Scoped
    Registration is met along its declared dependencies: result, failure
    and resulting state are then the same for every scope context,
    supplied or not. *)
Theorem singleton_scope_independence
    (d : nat) (T : string) (reg : Registration) (sc sc' : option nat)
    (st : State) :
  container st !! T = Some reg → lifestyle reg = Singleton →
  (∀ v : Value, singletons st !! T = Some v →
     getInstance (S d) T sc st = (Ok v, st) ∧
     getInstance (S d) T sc' st = (Ok v, st)) ∧
  (scopeFree d (container st) T = true →
     getInstance d T sc st = getInstance d T sc' st).
Proof.
  intros Hreg Hl. split.
  - intros v Hv. split; by eapply getInstance_singleton_hit.
  - apply getInstance_scopeFree.
Qed.

(** ** Registries whose builders do not resolve through the injector *)

Lemma plain_empty : plain ∅.
Proof. intros t reg p Hreg. by rewrite lookup_empty in Hreg. Qed.

Lemma plain_register t c l ds ps st :
  (∀ args, plainProg (ctor c args)) → plain (container st) →
  plain (container (register t c l ds ps st)).
Proof.
  intros Hc Hp t' reg p. simpl.
  destruct (decide (t = t')) as [<-|Hne].
  - rewrite lookup_insert_eq. intros [= <-]. unfold bodies. simpl.
    intros [args ->]. apply Hc.
  - rewrite lookup_insert_ne by done. apply Hp.
Qed.

Lemma plain_registerFactory t f l st :
  plainProg f → plain (container st) →
  plain (container (registerFactory t f l st)).
Proof.
  intros Hf Hp t' reg p. simpl.
  destruct (decide (t = t')) as [<-|Hne].
  - rewrite lookup_insert_eq. intros [= <-]. unfold bodies. simpl.
    by intros ->.
  - rewrite lookup_insert_ne by done. apply Hp.
Qed.

Lemma plain_configureProduction st :
  plain (container st) → plain (container (configureProduction st)).
Proof. intros Hp. unfold configureProduction. by repeat apply plain_register. Qed.

Lemma plain_configureDebug st :
  plain (container st) → plain (container (configureDebug st)).
Proof.
  intros Hp. unfold configureDebug. repeat apply plain_register; try done.
  by apply plain_registerFactory.
Qed.

Lemma plain_prodState : plain (container prodState).
Proof. apply plain_configureProduction, plain_empty. Qed.

Lemma plain_debugState : plain (container debugState).
Proof. apply plain_configureDebug, plain_empty. Qed.

Lemma plain_sessionState : plain (container sessionState).
Proof.
  change (plain (container
    (register "Handler" (plainClass "Handler") Scoped
              [ILoggerToken; "Session"] []
       (register "Session" (plainClass "Session") Scoped [] [] prodState)))).
  repeat apply plain_register; done.
Qed.

(** ** The theorems at work on concrete containers *)

Lemma singleton_identical_instance_witness :
  let st1 := snd (getInstance 2 IStorageToken None debugState) in
  let ops := [OpCreateScope; OpGetInstance 3 IProcessorToken (Some 0);
              OpRegister IStorageToken (plainClass "FileStorage") Singleton []
                         [VString "x"]] in
  getInstance 2 IStorageToken None debugState = (Ok (VObject 0), st1) ∧
  (∃ stx : State,
     createInstance (getInstance 1)
       (mkRegistration None Singleton [] []
          (Some (Done (Fresh (mkObj "DatabaseStorage" [])))))
       None debugState = (Ok (VObject 0), stx) ∧
     singletons stx !! IStorageToken = None) ∧
  getInstance 1 IStorageToken (Some 0) (run ops st1) = (Ok (VObject 0), run ops st1).
Proof.
  intros st1 ops.
  assert (H : getInstance 2 IStorageToken None debugState = (Ok (VObject 0), st1))
    by (vm_compute; reflexivity).
  destruct (singleton_identical_instance 2 IStorageToken None debugState st1
              (VObject 0) _ eq_refl eq_refl H) as (_ & Hfirst & Hlater).
  split; [exact H|]. split.
  - destruct (Hfirst eq_refl) as (d0 & stx & Hd & Hb & _ & _ & Hx).
    injection Hd as <-. exists stx. split; [exact Hb|].
    apply Hx, plain_debugState.
  - eapply Hlater; vm_compute; reflexivity.
Defined.

Lemma singleton_entry_retained_witness :
  let st := snd (getInstance 2 IStorageToken None debugState) in
  let ops := [OpRegisterFactory IStorageToken sharedFactory Singleton;
              OpCreateScope; OpGetInstance 2 IStorageToken (Some 0)] in
  singletons st !! IStorageToken = Some (VObject 0) ∧
  singletons (run ops st) !! IStorageToken = Some (VObject 0) ∧
  getInstance 1 IStorageToken None (run ops st) = (Ok (VObject 0), run ops st).
Proof.
  intros st ops.
  assert (H : singletons st !! IStorageToken = Some (VObject 0))
    by (vm_compute; reflexivity).
  destruct (singleton_entry_retained IStorageToken (VObject 0) st ops H)
    as (Hkept & Hres & _).
  split; [exact H|]. split; [exact Hkept|].
  eapply Hres; vm_compute; reflexivity.
Defined.

Lemma registration_overwrites_witness :
  let o1 := OpRegister IStorageToken (plainClass "FileStorage") Singleton []
                       [VString "prod.db"] in
  let o2 := OpRegisterFactory IStorageToken
              (Done (Fresh (mkObj "DatabaseStorage" []))) PerRequest in
  let st := step o2 (step o1 emptyState) in
  registeredToken o1 = Some IStorageToken ∧
  registeredToken o2 = Some IStorageToken ∧
  container st !! IStorageToken
    = Some (mkRegistration None PerRequest [] []
              (Some (Done (Fresh (mkObj "DatabaseStorage" []))))) ∧
  st = step o2 emptyState ∧
  getInstance 1 IStorageToken None st
    = (Ok (VObject 0),
       set_heap (fun _ => [mkObj "DatabaseStorage" []])
         (set_calls (fun _ => [CallFactory]) st)).
Proof.
  intros o1 o2 st.
  destruct (registration_overwrites IStorageToken o1 o2 emptyState
              eq_refl eq_refl) as (r2 & Hr2 & Hin & Hsame & _ & Hres).
  injection Hr2 as <-.
  split; [reflexivity|]. split; [reflexivity|]. split; [exact Hin|].
  split; [exact Hsame|].
  etrans; [exact (Hres 0 None)|]. vm_compute; reflexivity.
Defined.

Lemma resolution_frame_witness :
  let st' := snd (getInstance 3 IProcessorToken (Some 0) prodScoped) in
  getInstance 3 IProcessorToken (Some 0) prodScoped = (Ok (VObject 2), st') ∧
  container st' = container prodScoped ∧
  scopeOf st' 0 !! ILoggerToken = scopeOf prodScoped 0 !! ILoggerToken ∧
  scopeOf st' 1 = scopeOf prodScoped 1.
Proof.
  intros st'.
  assert (H : getInstance 3 IProcessorToken (Some 0) prodScoped
              = (Ok (VObject 2), st')) by (vm_compute; reflexivity).
  destruct (resolution_frame 3 IProcessorToken (Some 0) prodScoped st' _ H)
    as (Hreg & Hchanged & _).
  split; [exact H|]. split; [exact Hreg|]. split.
  - destruct (decide (scopeOf st' 0 !! ILoggerToken
                      = scopeOf prodScoped 0 !! ILoggerToken)) as [E|E]; [exact E|].
    destruct (Hchanged 0 ILoggerToken E) as (_ & _ & reg & Hr & Hl).
    vm_compute in Hr. inversion Hr; subst reg. discriminate Hl.
  - apply map_eq. intros t'.
    destruct (decide (scopeOf st' 1 !! t' = scopeOf prodScoped 1 !! t'))
      as [E|E]; [exact E|].
    destruct (Hchanged 1 t' E) as ([Hsc|Hb] & _); [discriminate Hsc|].
    destruct (plain_scopeless _ plain_prodState 1 Hb).
Defined.


Lemma scoped_one_per_scope_witness :
  let st1 := snd (getInstance 3 IProcessorToken (Some 0) prodScoped) in
  let st2 := snd (getInstance 3 IProcessorToken (Some 1) st1) in
  createScope prodState = (0, snd (createScope prodState)) ∧
  createScope (snd (createScope prodState)) = (1, prodScoped) ∧
  getInstance 3 IProcessorToken (Some 0) prodScoped = (Ok (VObject 2), st1) ∧
  getInstance 1 IProcessorToken (Some 0) st1 = (Ok (VObject 2), st1) ∧
  getInstance 3 IProcessorToken (Some 1) st1 = (Ok (VObject 3), st2) ∧
  VObject 3 ≠ VObject 2.
Proof.
  intros st1 st2.
  assert (H1 : getInstance 3 IProcessorToken (Some 0) prodScoped
               = (Ok (VObject 2), st1)) by (vm_compute; reflexivity).
  assert (H2 : getInstance 3 IProcessorToken (Some 1) st1
               = (Ok (VObject 3), st2)) by (vm_compute; reflexivity).
  destruct (scoped_one_per_scope 3 IProcessorToken _ 0 prodScoped st1 (VObject 2)
              eq_refl eq_refl H1)
    as (Hsame & _ & Hother & _).
  split; [vm_compute; reflexivity|]. split; [vm_compute; reflexivity|].
  split; [exact H1|]. split; [|split; [exact H2|]].
  - apply (Hsame [] 0 _ ltac:(vm_compute; reflexivity)). vm_compute; reflexivity.
  - apply (Hother [] 1 3 _ (VObject 3) st2 (fun _ => eq_refl)
             ltac:(vm_compute; reflexivity)
             ltac:(vm_compute; reflexivity) ltac:(vm_compute; reflexivity)
             (fun _ => eq_refl)
             ltac:(vm_compute; reflexivity) H2).
Defined.

Lemma perRequest_always_builds_witness :
  let st1 := snd (getInstance 3 IProcessorToken None debugState) in
  let st2 := snd (getInstance 3 IProcessorToken None st1) in
  getInstance 3 IProcessorToken None debugState = (Ok (VObject 2), st1) ∧
  getInstance 3 IProcessorToken None st1 = (Ok (VObject 4), st2) ∧
  VObject 4 ≠ VObject 2 ∧
  singletons st2 !! IProcessorToken = singletons debugState !! IProcessorToken.
Proof.
  intros st1 st2.
  assert (H1 : getInstance 3 IProcessorToken None debugState
               = (Ok (VObject 2), st1)) by (vm_compute; reflexivity).
  assert (H2 : getInstance 3 IProcessorToken None st1
               = (Ok (VObject 4), st2)) by (vm_compute; reflexivity).
  destruct (perRequest_always_builds 3 3 IProcessorToken _ None None
              debugState st1 st2 (VObject 2) (VObject 4)
              eq_refl eq_refl H1 H2)
    as (_ & _ & Hs & _ & Hne).
  split; [exact H1|]. split; [exact H2|].
  split; [apply Hne; exact (fun _ => eq_refl)|exact Hs].
Defined.

Lemma scoped_consumer_shares_singletons_witness :
  (let st1 := snd (getInstance 3 IProcessorToken (Some 0) prodScoped) in
   let st3 := snd (getInstance 3 IProcessorToken (Some 1) st1) in
   getInstance 3 IProcessorToken (Some 0) prodScoped = (Ok (VObject 2), st1) ∧
   getInstance 3 IProcessorToken (Some 0) st1 = (Ok (VObject 2), st1) ∧
   getInstance 3 IProcessorToken (Some 1) st1 = (Ok (VObject 3), st3) ∧
   VObject 3 ≠ VObject 2 ∧
   ∃ vs : list Value,
     heap st3 !! 2 = Some (mkObj "AdvancedProcessor" vs) ∧
     heap st3 !! 3 = Some (mkObj "AdvancedProcessor" vs)) ∧
  (let st1 := snd (getInstance 3 "Handler" (Some 0) sessionState) in
   let st3 := snd (getInstance 3 "Handler" (Some 1) st1) in
   getInstance 3 "Handler" (Some 0) sessionState = (Ok (VObject 2), st1) ∧
   getInstance 3 "Handler" (Some 1) st1 = (Ok (VObject 4), st3) ∧
   ∃ session1 session2 : Value,
     scopeOf st3 0 !! "Session" = Some session1 ∧
     scopeOf st3 1 !! "Session" = Some session2 ∧
     heap st3 !! 2 = Some (mkObj "Handler" [VObject 0; session1]) ∧
     heap st3 !! 4 = Some (mkObj "Handler" [VObject 0; session2])).
Proof.
  split.
  - intros st1 st3.
    assert (H1 : getInstance 3 IProcessorToken (Some 0) prodScoped
                 = (Ok (VObject 2), st1)) by (vm_compute; reflexivity).
    assert (H2 : getInstance 3 IProcessorToken (Some 0) st1
                 = (Ok (VObject 2), st1)) by (vm_compute; reflexivity).
    assert (H3 : getInstance 3 IProcessorToken (Some 1) st1
                 = (Ok (VObject 3), st3)) by (vm_compute; reflexivity).
    destruct (scoped_consumer_shares_singletons 3 IProcessorToken _ 0 1
                prodScoped st1 st1 st3 (VObject 2) (VObject 2) (VObject 3)
                eq_refl eq_refl eq_refl (plain_scopeless _ plain_prodState)
                ltac:(discriminate) eq_refl eq_refl H1 H2 H3)
      as (_ & Hne & d0 & n1 & n2 & c & vs1 & vs2 & sta & stb & _ & Hc & _ & _
          & _ & _ & _ & Hh1 & Hh2 & _ & _ & Hthis & Hsame).
    injection Hc as <-.
    destruct (Hthis (fun _ => I)) as [[= <-] [= <-]].
    rewrite <- Hsame in Hh2.
    + split; [exact H1|]. split; [exact H2|]. split; [exact H3|].
      split; [apply Hne; exact (fun _ => eq_refl)|].
      exists (vs1 ++ []). split; [exact Hh1|exact Hh2].
    + intros dep Hin. simpl in Hin.
      apply elem_of_cons in Hin as [->|Hin]; [eexists; split; reflexivity|].
      apply elem_of_cons in Hin as [->|Hin]; [eexists; split; reflexivity|].
      by apply elem_of_nil in Hin.
  - intros st1 st3.
    assert (H1 : getInstance 3 "Handler" (Some 0) sessionState
                 = (Ok (VObject 2), st1)) by (vm_compute; reflexivity).
    assert (H2 : getInstance 3 "Handler" (Some 0) st1
                 = (Ok (VObject 2), st1)) by (vm_compute; reflexivity).
    assert (H3 : getInstance 3 "Handler" (Some 1) st1
                 = (Ok (VObject 4), st3)) by (vm_compute; reflexivity).
    destruct (scoped_consumer_shares_singletons 3 "Handler" _ 0 1
                sessionState st1 st1 st3 (VObject 2) (VObject 2) (VObject 4)
                eq_refl eq_refl eq_refl (plain_scopeless _ plain_sessionState)
                ltac:(discriminate) eq_refl eq_refl H1 H2 H3)
      as (_ & _ & d0 & n1 & n2 & c & vs1 & vs2 & sta & stb & _ & Hc & _ & _
          & _ & _ & _ & Hh1 & Hh2 & HF1 & HF2 & Hthis & _).
    injection Hc as <-.
    destruct (Hthis (fun _ => I)) as [[= <-] [= <-]].
    split; [exact H1|]. split; [exact H3|].
    simpl in HF1, HF2.
    inversion HF1 as [|? a1 ? l1 Ha1 HF1' E1 E2]; subst.
    inversion HF1' as [|? b1 ? m1 Hb1 HF1'' E1 E2]; subst.
    inversion HF1''; subst.
    inversion HF2 as [|? a2 ? l2 Ha2 HF2' E1 E2]; subst.
    inversion HF2' as [|? b2 ? m2 Hb2 HF2'' E1 E2]; subst.
    inversion HF2''; subst.
    pose proof (Ha1 _ eq_refl) as Ea1. pose proof (Ha2 _ eq_refl) as Ea2.
    pose proof (Hb1 _ eq_refl) as Eb1. pose proof (Hb2 _ eq_refl) as Eb2.
    simpl in Ea1, Ea2, Eb1, Eb2.
    assert (a1 = VObject 0) as -> by (vm_compute in Ea1; congruence).
    assert (a2 = VObject 0) as -> by (vm_compute in Ea2; congruence).
    exists b1, b2. split; [exact Eb1|]. split; [exact Eb2|].
    split; [exact Hh1|exact Hh2].
Defined.

Lemma dependency_order_witness :
  let st1 := snd (getInstance 2 ILoggerToken None taggedState) in
  let st2 := snd (getInstance 2 IStorageToken None st1) in
  getInstance 2 ILoggerToken None taggedState = (Ok (VObject 0), st1) ∧
  getInstance 2 IStorageToken None st1 = (Ok (VObject 1), st2) ∧
  ∃ st' : State,
    createInstance (getInstance 2)
      (mkRegistration (Some (plainClass "TaggedProcessor")) PerRequest
                      [ILoggerToken; IStorageToken] [VString "tag"] None)
      None taggedState = (Ok (VObject 2), st') ∧
    calls st' = calls st2 ++
      [CallNew "TaggedProcessor" [VObject 0; VObject 1; VString "tag"]] ∧
    heap st' = heap st2 ++
      [mkObj "TaggedProcessor" [VObject 0; VObject 1; VString "tag"]].
Proof.
  intros st1 st2.
  assert (H1 : getInstance 2 ILoggerToken None taggedState
               = (Ok (VObject 0), st1)) by (vm_compute; reflexivity).
  assert (H2 : getInstance 2 IStorageToken None st1
               = (Ok (VObject 1), st2)) by (vm_compute; reflexivity).
  split; [exact H1|]. split; [exact H2|].
  destruct (dependency_order 2
              (mkRegistration (Some (plainClass "TaggedProcessor")) PerRequest
                              [ILoggerToken; IStorageToken] [VString "tag"] None)
              (plainClass "TaggedProcessor") ILoggerToken IStorageToken
              (VString "tag") None taggedState st1 st2 (VObject 0) (VObject 1)
              eq_refl eq_refl eq_refl eq_refl H1 H2)
    as (r & st' & Hrun & _ & _ & _ & _ & Hplain).
  destruct (Hplain eq_refl) as (-> & Hcalls & Hheap).
  exists st'. split; [exact Hrun|]. split; [exact Hcalls|exact Hheap].
Defined.

Lemma singleton_scope_independence_witness :
  singletons (snd (getInstance 2 IStorageToken None prodScoped)) !! IStorageToken
    = Some (VObject 0) ∧
  scopeFree 2 (container prodScoped) IStorageToken = true ∧
  getInstance 2 IStorageToken None prodScoped
    = getInstance 2 IStorageToken (Some 1) prodScoped.
Proof.
  split; [vm_compute; reflexivity|]. split; [vm_compute; reflexivity|].
  eapply (singleton_scope_independence 2 IStorageToken _ None (Some 1) prodScoped);
    vm_compute; reflexivity.
Defined.

(** ** Where the lifetimes are not what one may expect *)

(** Splits a conjunction of closed facts and evaluates each one. *)
Ltac evaluate :=
  repeat first [progress intros | match goal with |- _ ∧ _ => split end];
  vm_compute; reflexivity.

(** A Singleton factory that, on its first call, resolves its own token
    is called twice by one resolution and makes two instances: the
    nested resolution returns the first to the factory, the resolution
    that was asked for returns the second. *)
Lemma singleton_reentrant_factory_counterexample :
  let st0 := set_calls (fun l => l ++ [CallFactory]) reentrantState in
  let st1 := snd (getInstance 2 "X" None reentrantState) in
  (lifestyle <$> container reentrantState !! "X") = Some Singleton ∧
  singletons reentrantState !! "X" = None ∧
  getInstance 2 "X" None reentrantState = (Ok (VObject 1), st1) ∧
  fst (getInstance 1 "X" None st0) = Ok (VObject 0) ∧
  calls st1 = [CallFactory; CallFactory] ∧
  heap st1 = [mkObj "Node" []; mkObj "Node" [VObject 0]].
Proof. evaluate. Qed.

(** The entry the nested resolution cached is in the cache when the
    build of the resolution that was asked for returns, and is replaced
    by the result of that build. *)
Lemma singleton_entry_replaced_counterexample :
  let reg := mkRegistration None Singleton [] [] (Some reentrantFactory) in
  let stx := snd (createInstance (getInstance 1) reg None reentrantState) in
  let st1 := snd (getInstance 2 "X" None reentrantState) in
  container reentrantState !! "X" = Some reg ∧
  createInstance (getInstance 1) reg None reentrantState = (Ok (VObject 1), stx) ∧
  singletons stx !! "X" = Some (VObject 0) ∧
  getInstance 2 "X" None reentrantState = (Ok (VObject 1), st1) ∧
  st1 = set_singletons (insert "X" (VObject 1)) stx ∧
  singletons st1 !! "X" = Some (VObject 1).
Proof. evaluate. Qed.

(** A Scoped factory that hands back a captured object gives the same
    instance to two scopes made by two [createScope] calls; and a Scoped
    factory that, on its first call, resolves its own token through the
    scope makes two instances in that one scope. *)
Lemma scoped_shared_factory_counterexample :
  (let st := sharedState Scoped in
   let sta := snd (createScope st) in
   let stb := snd (createScope sta) in
   let st1 := snd (getInstance 1 "Shared" (Some 0) stb) in
   let st2 := snd (getInstance 1 "Shared" (Some 1) st1) in
   (lifestyle <$> container st !! "Shared") = Some Scoped ∧
   createScope st = (0, sta) ∧ createScope sta = (1, stb) ∧
   getInstance 1 "Shared" (Some 0) stb = (Ok (VObject 0), st1) ∧
   getInstance 1 "Shared" (Some 1) st1 = (Ok (VObject 0), st2)) ∧
  (let st0 := set_calls (fun l => l ++ [CallFactory]) reentrantScopedState in
   let st1 := snd (getInstance 2 "X" (Some 0) reentrantScopedState) in
   (lifestyle <$> container reentrantScopedState !! "X") = Some Scoped ∧
   getInstance 2 "X" (Some 0) reentrantScopedState = (Ok (VObject 1), st1) ∧
   fst (getInstance 1 "X" (Some 0) st0) = Ok (VObject 0) ∧
   heap st1 = [mkObj "Node" []; mkObj "Node" [VObject 0]]).
Proof. evaluate. Qed.

(** A Scoped class whose constructor returns a captured object is one
    instance in two scopes, although [new] is applied once in each; and
    when the factory of a Singleton dependency resolves the consumer
    through the other scope, the consumers of the two scopes hold
    different loggers. *)
Lemma scoped_pooled_constructor_counterexample :
  (let st1 := snd (getInstance 3 IProcessorToken (Some 0) pooledState) in
   let st3 := snd (getInstance 3 IProcessorToken (Some 1) st1) in
   (lifestyle <$> container pooledState !! IProcessorToken) = Some Scoped ∧
   (factory <$> container pooledState !! IProcessorToken) = Some None ∧
   (lifestyle <$> container pooledState !! ILoggerToken) = Some Singleton ∧
   (lifestyle <$> container pooledState !! IStorageToken) = Some Singleton ∧
   getInstance 3 IProcessorToken (Some 0) pooledState = (Ok (VObject 0), st1) ∧
   getInstance 3 IProcessorToken (Some 1) st1 = (Ok (VObject 0), st3) ∧
   calls st3 = [CallNew "FileLogger" [VString "prod.log"];
                CallNew "FileStorage" [VString "prod.db"];
                CallNew "PooledProcessor" [VObject 1; VObject 2];
                CallNew "PooledProcessor" [VObject 1; VObject 2]]) ∧
  (let st1 := snd (getInstance 4 "Consumer" (Some 0) crossScopeState) in
   let st3 := snd (getInstance 4 "Consumer" (Some 1) st1) in
   (lifestyle <$> container crossScopeState !! "Consumer") = Some Scoped ∧
   (lifestyle <$> container crossScopeState !! ILoggerToken) = Some Singleton ∧
   getInstance 4 "Consumer" (Some 0) crossScopeState = (Ok (VObject 3), st1) ∧
   getInstance 4 "Consumer" (Some 1) st1 = (Ok (VObject 1), st3) ∧
   heap st3 !! 3 = Some (mkObj "Consumer" [VObject 2]) ∧
   heap st3 !! 1 = Some (mkObj "Consumer" [VObject 0]) ∧
   singletons st3 !! ILoggerToken = Some (VObject 2)).
Proof. evaluate. Qed.

(** A PerRequest factory that hands back a captured object returns the
    same instance on two consecutive resolutions, and so does a
    PerRequest class whose constructor returns a captured object. *)
Lemma perRequest_shared_factory_counterexample :
  (let st := sharedState PerRequest in
   let st1 := snd (getInstance 1 "Shared" None st) in
   let st2 := snd (getInstance 1 "Shared" None st1) in
   (lifestyle <$> container st !! "Shared") = Some PerRequest ∧
   getInstance 1 "Shared" None st = (Ok (VObject 0), st1) ∧
   getInstance 1 "Shared" None st1 = (Ok (VObject 0), st2)) ∧
  (let st := pooledRequestState in
   let st1 := snd (getInstance 1 "Pooled" None st) in
   let st2 := snd (getInstance 1 "Pooled" None st1) in
   (lifestyle <$> container st !! "Pooled") = Some PerRequest ∧
   (factory <$> container st !! "Pooled") = Some None ∧
   getInstance 1 "Pooled" None st = (Ok (VObject 0), st1) ∧
   getInstance 1 "Pooled" None st1 = (Ok (VObject 0), st2) ∧
   calls st2 = [CallNew "PooledProcessor" []; CallNew "PooledProcessor" []]).
Proof. evaluate. Qed.


(** The first resolution of a Singleton that depends on a Scoped token
    fails without scope context and succeeds, filling the scope cache,
    with one. *)
Lemma singleton_uses_scope_counterexample :
  let st := snd (createScope danglingState) in
  let st' := snd (getInstance 2 "Cache" (Some 0) st) in
  (lifestyle <$> container st !! "Cache") = Some Singleton ∧
  getInstance 2 "Cache" None st = (Throw NoActiveScope, st) ∧
  getInstance 2 "Cache" (Some 0) st = (Ok (VObject 1), st') ∧
  scopeOf st 0 !! "Session" = None ∧
  scopeOf st' 0 !! "Session" = Some (VObject 0).
Proof. evaluate. Qed.

(** * Further properties of the injector *)

(** ** The depth of the stack *)

Lemma throw_ne {A C} (e : Error) :
  @Throw A e ≠ Throw StackOverflow → @Throw C e ≠ Throw StackOverflow.
Proof. intros H [= ->]. done. Qed.

Section Deeper.
Variable rec1 rec2 : string → option nat → M Value.
Hypothesis rec_deeper : ∀ t sc st r st',
  rec1 t sc st = (r, st') → r ≠ Throw StackOverflow → rec2 t sc st = (r, st').

Lemma runProg_deeper p st r st' :
  runProg rec1 p st = (r, st') → r ≠ Throw StackOverflow →
  runProg rec2 p st = (r, st').
Proof.
  revert st. induction p as [o|t sc k IH|k IH]; intros st H Hr; simpl in *.
  - done.
  - apply bind_inv in H as [(v & st1 & H1 & H2)|(e & H1 & ->)].
    + rewrite (bind_ok _ _ _ _ _ (rec_deeper _ _ _ _ _ H1 ltac:(done))).
      by apply IH.
    + by rewrite (bind_throw _ _ _ _ _ (rec_deeper _ _ _ _ _ H1 (throw_ne _ Hr))).
  - by apply IH.
Qed.

Lemma callFactory_deeper f st r st' :
  callFactory rec1 f st = (r, st') → r ≠ Throw StackOverflow →
  callFactory rec2 f st = (r, st').
Proof.
  rewrite !callFactory_eq.
  destruct (runProg rec1 f _) as [[o|e] st1] eqn:E; intros H Hr.
  - by rewrite (runProg_deeper _ _ _ _ E).
  - injection H as <- <-.
    by rewrite (runProg_deeper _ _ _ _ E (throw_ne _ Hr)).
Qed.

Lemma construct_deeper impl args st r st' :
  construct rec1 impl args st = (r, st') → r ≠ Throw StackOverflow →
  construct rec2 impl args st = (r, st').
Proof.
  destruct impl as [c|]; [|done]. rewrite !construct_eq.
  destruct (runProg rec1 (ctor c args) _) as [[o|e] st1] eqn:E; intros H Hr.
  - by rewrite (runProg_deeper _ _ _ _ E).
  - injection H as <- <-.
    by rewrite (runProg_deeper _ _ _ _ E (throw_ne _ Hr)).
Qed.

Lemma mapM_deeper sc ds st r st' :
  mapM (fun dep => rec1 dep sc) ds st = (r, st') → r ≠ Throw StackOverflow →
  mapM (fun dep => rec2 dep sc) ds st = (r, st').
Proof.
  revert st r st'. induction ds as [|dep ds IH]; intros st r st' H Hr;
    simpl in *; [done|].
  apply bind_inv in H as [(a & sta & H1 & H2)|(e & H1 & ->)].
  - rewrite (bind_ok _ _ _ _ _ (rec_deeper _ _ _ _ _ H1 ltac:(done))).
    apply bind_inv in H2 as [(b & stb & H2 & H3)|(e & H2 & ->)].
    + rewrite (bind_ok _ _ _ _ _ (IH _ _ _ H2 ltac:(done))). done.
    + by rewrite (bind_throw _ _ _ _ _ (IH _ _ _ H2 Hr)).
  - by rewrite (bind_throw _ _ _ _ _ (rec_deeper _ _ _ _ _ H1 (throw_ne _ Hr))).
Qed.

Lemma createInstance_deeper reg sc st r st' :
  createInstance rec1 reg sc st = (r, st') → r ≠ Throw StackOverflow →
  createInstance rec2 reg sc st = (r, st').
Proof.
  unfold createInstance. destruct (factory reg) as [f|];
    [apply callFactory_deeper|].
  intros H Hr. apply bind_inv in H as [(vs & st1 & H1 & H2)|(e & H1 & ->)].
  - rewrite (bind_ok _ _ _ _ _ (mapM_deeper _ _ _ _ _ H1 ltac:(done))).
    by apply construct_deeper.
  - by rewrite (bind_throw _ _ _ _ _ (mapM_deeper _ _ _ _ _ H1 (throw_ne _ Hr))).
Qed.

Lemma getInstanceBody_deeper t sc st r st' :
  getInstanceBody rec1 t sc st = (r, st') → r ≠ Throw StackOverflow →
  getInstanceBody rec2 t sc st = (r, st').
Proof.
  rewrite !getInstanceBody_eq.
  destruct (container st !! t) as [reg|]; [|done].
  destruct (lifestyle reg).
  - apply createInstance_deeper.
  - destruct sc as [s|]; [|done]. rewrite !resolveScoped_eq.
    destruct (scopeOf st s !! t); [done|].
    destruct (createInstance rec1 reg (Some s) st) as [[w|e] st1] eqn:Hb;
      intros H Hr; inversion H; subst r st'.
    + by rewrite (createInstance_deeper _ _ _ _ _ Hb).
    + by rewrite (createInstance_deeper _ _ _ _ _ Hb).
  - rewrite !resolveSingleton_eq.
    destruct (singletons st !! t); [done|].
    destruct (createInstance rec1 reg sc st) as [[w|e] st1] eqn:Hb;
      intros H Hr; inversion H; subst r st'.
    + by rewrite (createInstance_deeper _ _ _ _ _ Hb).
    + by rewrite (createInstance_deeper _ _ _ _ _ Hb).
Qed.
End Deeper.

Lemma getInstance_deeper d t sc st r st' :
  getInstance d t sc st = (r, st') → r ≠ Throw StackOverflow →
  getInstance (S d) t sc st = (r, st').
Proof.
  revert t sc st r st'. induction d as [|d IH]; intros t sc st r st' H Hr.
  - simpl in H. inversion H; subst. done.
  - change (getInstanceBody (getInstance (S d)) t sc st = (r, st')).
    eapply getInstanceBody_deeper; [exact IH|exact H|exact Hr].
Qed.


(** ** Dependency graphs without and with cycles *)

Section Ranked.
Variable rank : string → nat.
Variable regs : gmap string Registration.
Variable d : nat.
Variable rec : string → option nat → M Value.
Hypothesis ranked : ∀ b reg dep,
  regs !! b = Some reg → factory reg = None → dep ∈ dependencies reg →
  rank dep < rank b.
Hypothesis ranked_bodies : ∀ b reg p dep,
  regs !! b = Some reg → bodies reg p → asks dep p → rank dep < rank b.
Hypothesis rec_ext : ∀ t sc st r st', rec t sc st = (r, st') → ext st st'.
Hypothesis rec_ranked : ∀ t sc st r st',
  container st = regs → rank t < d → rec t sc st = (r, st') →
  r ≠ Throw StackOverflow.

Lemma runProg_ranked p st r st' :
  container st = regs → (∀ dep, asks dep p → rank dep < d) →
  runProg rec p st = (r, st') → r ≠ Throw StackOverflow.
Proof.
  revert st. induction p as [o|t sc k IH|k IH]; intros st Hst Hp H; simpl in H.
  - by injection H as <- <-.
  - apply bind_inv in H as [(v & st1 & H1 & H2)|(e & H1 & ->)].
    + eapply (IH v st1); [| |exact H2].
      * by rewrite (ext_container _ _ (rec_ext _ _ _ _ _ H1)).
      * intros dep Hdep. apply Hp. simpl. eauto.
    + apply (throw_ne (A:=Value)).
      eapply rec_ranked; [exact Hst| |exact H1]. apply Hp. simpl. by left.
  - eapply (IH (calls st) (heap st)); [exact Hst| |exact H].
    intros dep Hdep. apply Hp. simpl. eauto.
Qed.

Lemma mapM_ranked sc ds st r st' :
  container st = regs → (∀ dep, dep ∈ ds → rank dep < d) →
  mapM (fun dep => rec dep sc) ds st = (r, st') →
  r ≠ Throw StackOverflow.
Proof.
  revert st r st'. induction ds as [|dep ds IH]; intros st r st' Hst Hds H;
    simpl in H.
  - by inversion H.
  - apply bind_inv in H as [(a & sta & H1 & H2)|(e & H1 & ->)].
    + apply bind_inv in H2 as [(b & stb & H2 & H3)|(e & H2 & ->)].
      * by inversion H3.
      * eapply (IH sta); [|intros; apply Hds; by right|exact H2].
        by rewrite (ext_container _ _ (rec_ext _ _ _ _ _ H1)).
    + apply (throw_ne (A:=Value)).
      eapply rec_ranked; [exact Hst| |exact H1]. apply Hds. by left.
Qed.

Lemma createInstance_ranked t reg sc st r st' :
  container st = regs → regs !! t = Some reg → rank t < S d →
  createInstance rec reg sc st = (r, st') →
  r ≠ Throw StackOverflow.
Proof.
  intros Hst Hreg Hrk. unfold createInstance.
  assert (Hbody : ∀ p dep, bodies reg p → asks dep p → rank dep < d).
  { intros p dep Hb Ha. pose proof (ranked_bodies _ _ _ _ Hreg Hb Ha). lia. }
  destruct (factory reg) as [f|] eqn:Hf.
  - rewrite callFactory_eq.
    destruct (runProg rec f _) as [[o|e] st1] eqn:E.
    + destruct o; intros H; by injection H as <- <-.
    + intros H. injection H as <- <-. apply (throw_ne (A:=Outcome)).
      refine (runProg_ranked f (set_calls _ st) _ _ Hst _ E).
      intros dep. apply Hbody. unfold bodies. by rewrite Hf.
  - intros H. apply bind_inv in H as [(vs & st1 & H1 & H2)|(e & H1 & ->)].
    + destruct (implementation reg) as [c|] eqn:Hc;
        [|by injection H2 as <- <-].
      revert H2. rewrite construct_eq.
      destruct (runProg rec (ctor c _) _) as [[o|e] st2] eqn:E.
      * destruct o as [[]|ob|]; intros H; by injection H as <- <-.
      * intros H. injection H as <- <-. apply (throw_ne (A:=Outcome)).
        refine (runProg_ranked _ (set_heap _ (set_calls _ st1)) _ _ _ _ E).
        -- simpl. by rewrite (ext_container _ _ (mapM_ext _ rec_ext _ _ _ _ _ H1)).
        -- intros dep. apply Hbody. unfold bodies. rewrite Hf, Hc. eauto.
    + apply (throw_ne (A:=list Value)).
      eapply mapM_ranked; [exact Hst| |exact H1].
      intros dep Hin. pose proof (ranked _ _ _ Hreg Hf Hin). lia.
Qed.

Lemma getInstanceBody_ranked t sc st r st' :
  container st = regs → rank t < S d →
  getInstanceBody rec t sc st = (r, st') →
  r ≠ Throw StackOverflow.
Proof.
  intros Hst Hrk. rewrite getInstanceBody_eq, Hst.
  destruct (regs !! t) as [reg|] eqn:Hreg; [|intros H; by inversion H].
  pose proof (createInstance_ranked t reg) as Hb.
  destruct (lifestyle reg).
  - by apply Hb.
  - destruct sc as [s|]; [|intros H; by inversion H].
    rewrite resolveScoped_eq.
    destruct (scopeOf st s !! t); [intros H; by inversion H|].
    destruct (createInstance rec reg (Some s) st) as [[w|e] st1] eqn:Hc;
      intros H; inversion H; subst r st'; [done|].
    by eapply Hb.
  - rewrite resolveSingleton_eq.
    destruct (singletons st !! t); [intros H; by inversion H|].
    destruct (createInstance rec reg sc st) as [[w|e] st1] eqn:Hc;
      intros H; inversion H; subst r st'; [done|].
    by eapply Hb.
Qed.
End Ranked.

(** X3. When what the Registrations ask for forms no cycle, that is,
    some rank decreases along every declared dependency of a
    constructor-style Registration and along every token the body of a
    builder may resolve, a resolution with more stack than the rank of
    the requested token never overflows. *)
Theorem acyclic_never_overflows
    (rank : string → nat) (d : nat) (t : string) (sc : option nat)
    (st st' : State) (r : Result Value) :
  (∀ b reg dep,
     container st !! b = Some reg → factory reg = None →
     dep ∈ dependencies reg → rank dep < rank b) →
  (∀ b reg p dep,
     container st !! b = Some reg → bodies reg p → asks dep p →
     rank dep < rank b) →
  rank t < d →
  getInstance d t sc st = (r, st') →
  r ≠ Throw StackOverflow.
Proof.
  intros Hrank Hbodies. remember (container st) as regs eqn:Hregs.
  symmetry in Hregs. revert t sc st r st' Hregs.
  induction d as [|d IH]; intros t sc st r st' Hregs Hlt; [lia|].
  simpl. eapply (getInstanceBody_ranked rank regs d); eauto.
  - apply getInstance_rec_ext.
Qed.


(** X2. Whatever the shape of the cycle: when every token of a set has to
    be built by a constructor and depends on a token of the set, and the
    builders resolve through no scope but the one of the resolution, no
    resolution of a token of the set ever returns an instance, at any
    depth, and the tokens of the set stay uncached. *)
Theorem dependency_cycle_never_resolves
    (B : string → Prop) (sc : option nat) (d : nat) (t : string)
    (st st' : State) (r : Result Value) :
  (∀ s, builderScope (container st) s → sc = Some s) →
  cyclic B sc st → B t →
  getInstance d t sc st = (r, st') →
  (∀ v, r ≠ Ok v) ∧ cyclic B sc st'.
Proof.
  intros Hhere Hcyc Ht H.
  destruct (getInstance_blocked B sc d sc t st r st' Hhere (or_introl eq_refl)
              Hcyc H) as [Hcyc' Hnot].
  split; [by apply Hnot|done].
Qed.

(** ** Registrations a resolution does not come by *)

Lemma runProg_plain_set_container rec g p st :
  plainProg p →
  runProg rec p (set_container g st)
  = prod_map id (set_container g) (runProg rec p st).
Proof.
  induction p as [o|t sc k IH|k IH]; simpl; intros Hp; [done|done|].
  apply IH, Hp.
Qed.

Lemma callFactory_set_container rec g f st :
  plainProg f →
  callFactory rec f (set_container g st)
  = prod_map id (set_container g) (callFactory rec f st).
Proof.
  intros Hp. rewrite !callFactory_eq.
  change (set_calls (fun l => l ++ [CallFactory]) (set_container g st))
    with (set_container g (set_calls (fun l => l ++ [CallFactory]) st)).
  rewrite runProg_plain_set_container by done.
  by destruct (runProg rec f _) as [[[v|ob|]|e] st1].
Qed.

Lemma construct_set_container rec g impl args st :
  (∀ c, impl = Some c → plainProg (ctor c args)) →
  construct rec impl args (set_container g st)
  = prod_map id (set_container g) (construct rec impl args st).
Proof.
  intros Hp. destruct impl as [c|]; [|done]. rewrite !construct_eq.
  change (set_heap (fun _ => heap (set_container g st) ++ [mkObj (cname c) args])
            (set_calls (fun l => l ++ [CallNew (cname c) args])
               (set_container g st)))
    with (set_container g
            (set_heap (fun _ => heap st ++ [mkObj (cname c) args])
               (set_calls (fun l => l ++ [CallNew (cname c) args]) st))).
  rewrite runProg_plain_set_container by (by apply Hp).
  by destruct (runProg rec (ctor c args) _) as [[[[]|ob|]|e] st1].
Qed.

Section RegistrationFrame.
Variable T : string.
Variable g : gmap string Registration → gmap string Registration.
Variable regs : gmap string Registration.
Variable free : string → bool.
Variable rec : string → option nat → M Value.
Hypothesis plain_regs : plain regs.
Hypothesis g_other : ∀ m t, t ≠ T → g m !! t = m !! t.
Hypothesis rec_ext : ∀ t sc st r st', rec t sc st = (r, st') → ext st st'.
Hypothesis rec_frame : ∀ t sc st,
  container st = regs → free t = true →
  rec t sc (set_container g st) = prod_map id (set_container g) (rec t sc st).

Lemma mapM_frame sc ds st :
  container st = regs → forallb free ds = true →
  mapM (fun dep => rec dep sc) ds (set_container g st)
  = prod_map id (set_container g) (mapM (fun dep => rec dep sc) ds st).
Proof.
  revert st. induction ds as [|dep ds IH]; intros st Hst Hall; simpl; [done|].
  simpl in Hall. apply andb_true_iff in Hall as [Hdep Hall].
  unfold bind at 1 3. rewrite (rec_frame dep sc st Hst Hdep).
  destruct (rec dep sc st) as [[a|e] sta] eqn:E; simpl; [|done].
  unfold bind. rewrite IH; [|by rewrite (ext_container _ _ (rec_ext _ _ _ _ _ E))|done].
  by destruct (mapM (fun dep => rec dep sc) ds sta) as [[b|e] stb].
Qed.

Lemma createInstance_frame t reg sc st :
  container st = regs → regs !! t = Some reg →
  (factory reg = None → forallb free (dependencies reg) = true) →
  createInstance rec reg sc (set_container g st)
  = prod_map id (set_container g) (createInstance rec reg sc st).
Proof.
  intros Hst Hreg Hall. unfold createInstance.
  destruct (factory reg) as [f|] eqn:Hf.
  { apply callFactory_set_container. apply (plain_regs t reg); [done|].
    unfold bodies. by rewrite Hf. }
  unfold bind. rewrite mapM_frame by auto.
  destruct (mapM (fun dep => rec dep sc) (dependencies reg) st)
    as [[vs|e] st1]; simpl; [|done].
  apply construct_set_container. intros c Hc.
  apply (plain_regs t reg); [done|]. unfold bodies. rewrite Hf, Hc. eauto.
Qed.

Lemma getInstanceBody_frame t sc st :
  container st = regs → t ≠ T →
  (∀ reg, regs !! t = Some reg → factory reg = None →
          forallb free (dependencies reg) = true) →
  getInstanceBody rec t sc (set_container g st)
  = prod_map id (set_container g) (getInstanceBody rec t sc st).
Proof.
  intros Hst Hne Hall. rewrite !getInstanceBody_eq. simpl.
  rewrite (g_other _ _ Hne), Hst.
  destruct (regs !! t) as [reg|] eqn:Hreg; [|done].
  pose proof (fun sc0 => createInstance_frame t reg sc0 st Hst Hreg
                           (Hall reg eq_refl)) as Hb.
  destruct (lifestyle reg).
  - apply Hb.
  - destruct sc as [s|]; [|done]. rewrite !resolveScoped_eq.
    change (scopeOf (set_container g st) s) with (scopeOf st s).
    destruct (scopeOf st s !! t); [done|]. rewrite Hb.
    by destruct (createInstance rec reg (Some s) st) as [[w|e] st1].
  - rewrite !resolveSingleton_eq. simpl.
    destruct (singletons st !! t); [done|]. rewrite Hb.
    by destruct (createInstance rec reg sc st) as [[w|e] st1].
Qed.
End RegistrationFrame.

Lemma getInstance_set_container T g d t sc st :
  plain (container st) →
  (∀ m t', t' ≠ T → g m !! t' = m !! t') →
  avoids d (container st) T t = true →
  getInstance d t sc (set_container g st)
  = prod_map id (set_container g) (getInstance d t sc st).
Proof.
  intros Hp Hg. revert t sc st Hp.
  induction d as [|d IH]; intros t sc st Hp Hav; [done|].
  simpl in Hav. apply andb_true_iff in Hav as [Hne Hav].
  apply negb_true_iff, bool_decide_eq_false in Hne.
  simpl. apply (getInstanceBody_frame T g (container st) (avoids d (container st) T)).
  - done.
  - done.
  - apply getInstance_rec_ext.
  - intros t0 sc0 st0 Hst0 Ht0. apply IH; by rewrite Hst0.
  - done.
  - done.
  - intros reg Hreg Hf. by rewrite Hreg, Hf in Hav.
Qed.

(** X5. With builders that do not resolve through the injector,
    registering a token, with [register] or [registerFactory], does not
    change the resolution of a token whose declared dependencies never
    lead to it: the result is the same, and so is the resulting state up
    to the new Registration. *)
Theorem unrelated_registration_irrelevant
    (o : Op) (T : string) (d : nat) (t : string) (sc : option nat)
    (st : State) :
  plain (container st) →
  registeredToken o = Some T →
  avoids d (container st) T t = true →
  getInstance d t sc (step o st)
  = prod_map id (step o) (getInstance d t sc st).
Proof.
  intros Hp Ho Hav.
  destruct o as [t' c l ds ps|t' f l| |]; simpl in Ho; try done;
    injection Ho as ->; simpl; unfold register, registerFactory.
  - rewrite (getInstance_set_container T _ d t sc st); [|done|intros m t0 ?|done].
    + by destruct (getInstance d t sc st).
    + by rewrite lookup_insert_ne.
  - rewrite (getInstance_set_container T _ d t sc st); [|done|intros m t0 ?|done].
    + by destruct (getInstance d t sc st).
    + by rewrite lookup_insert_ne.
Qed.

(** ** Failed resolutions *)

(** X6. With builders that do not resolve through the injector, a
    resolution that fails leaves no cache entry for the requested token,
    neither in the singleton cache nor in any scope cache, so that the
    next resolution of the token builds again. *)
Theorem failed_resolution_caches_nothing
    (d : nat) (T : string) (sc : option nat) (st st' : State) (e : Error) :
  plain (container st) →
  getInstance d T sc st = (Throw e, st') →
  singletons st' !! T = singletons st !! T ∧
  ∀ s : nat, scopeOf st' s !! T = scopeOf st s !! T.
Proof.
  intros Hp H. pose proof (getInstance_ext _ _ _ _ _ _ H) as He.
  pose proof (plain_scopeless _ Hp) as Hless.
  destruct d as [|d0]; [by inversion H|].
  pose proof H as H0. simpl in H. rewrite getInstanceBody_eq in H.
  destruct (container st !! T) as [reg|] eqn:Hreg; [|by inversion H].
  destruct (lifestyle reg) eqn:Hl.
  - split; [|intros s].
    + eapply ext_singleton_unchanged; eauto. by rewrite Hl.
    + eapply ext_scoped_unchanged; eauto. by rewrite Hl.
  - split; [eapply ext_singleton_unchanged; eauto; by rewrite Hl|].
    destruct sc as [s|]; [|by inversion H].
    rewrite resolveScoped_eq in H.
    destruct (scopeOf st s !! T) as [w|] eqn:Ew; [done|].
    destruct (createInstance (getInstance d0) reg (Some s) st)
      as [[w|e0] st1] eqn:Hb; [done|].
    inversion H; subst e0 st1; clear H.
    intros s'. destruct (decide (s' = s)) as [->|Hne].
    + rewrite Ew.
      apply (build_caches_no_own_instance d0 T (InScope s T) (Some s) st
               (Throw e) st' reg); try done.
      * by left.
      * unfold uncached. rewrite Hl. by intros s0 [= <-].
      * intros st1 Hu. unfold uncached in Hu. rewrite Hl in Hu. by apply Hu.
    + destruct (scopeOf st s' !! T) as [w|] eqn:E.
      * by apply (ext_scopes _ _ He).
      * destruct (scopeOf st' s' !! T) as [w|] eqn:E'; [|done].
        destruct (getInstance_touch _ _ _ _ _ _ s' T H0 E) as [[= ->]|Hb'];
          [rewrite E'; eauto|done|by destruct (Hless s')].
  - split; [|intros s; eapply ext_scoped_unchanged; eauto; by rewrite Hl].
    rewrite resolveSingleton_eq in H.
    destruct (singletons st !! T) as [w|] eqn:Ew; [done|].
    destruct (createInstance (getInstance d0) reg sc st)
      as [[w|e0] st1] eqn:Hb; [done|].
    inversion H; subst e0 st1; clear H.
    apply (build_caches_no_own_instance d0 T (InSingletons T) sc st
             (Throw e) st' reg); try done.
    + by left.
    + unfold uncached. by rewrite Hl.
    + intros st1 Hu. unfold uncached in Hu. by rewrite Hl in Hu.
Qed.

(** ** A singleton keeps what it was first built from *)

(** X7. With builders that do not resolve through the injector, a
    Singleton whose constructor returns no object of its own and that is
    first resolved through a scope is built from the instances that
    scope resolves its dependencies to, a Scoped dependency included;
    every later resolution, through whatever scope or none, returns that
    same object, still holding the instances of the first scope. *)
Theorem singleton_keeps_first_scope
    (d : nat) (T : string) (reg : Registration) (s1 : nat)
    (st st1 : State) (v : Value) :
  plain (container st) →
  container st !! T = Some reg → lifestyle reg = Singleton →
  factory reg = None →
  (∀ c args, implementation reg = Some c → ends keepsThis (ctor c args)) →
  singletons st !! T = None →
  getInstance d T (Some s1) st = (Ok v, st1) →
  ∃ (a : nat) (c : ClassType) (vs : list Value),
    v = VObject a ∧ implementation reg = Some c ∧
    Forall2 (injected s1 st1) (dependencies reg) vs ∧
    ∀ (ops : list Op) (d' : nat) (sc' : option nat) (reg' : Registration),
      container (run ops st1) !! T = Some reg' → lifestyle reg' = Singleton →
      getInstance (S d') T sc' (run ops st1) = (Ok (VObject a), run ops st1) ∧
      heap (run ops st1) !! a
        = Some (mkObj (cname c) (vs ++ constructorParams reg)).
Proof.
  intros Hp Hreg Hl Hf Hk Hn H.
  destruct (getInstance_singleton_first _ _ _ _ _ _ _ Hp Hreg Hl Hn H)
    as (d0 & stx & -> & Hb & Hx & Est1).
  apply createInstance_ok_new in Hb as
    (c & vs & stm & Hc & Hm & Hnew & Hem & Hex & Hh);
    [|apply getInstance_rec_ext|done].
  pose proof (construct_ok_this _ _ _ _ _ _ (Hk c _ Hc) Hnew) as ->.
  exists (length (heap stm)), c, vs. split; [done|]. split; [done|]. split.
  - eapply Forall2_impl; [exact (mapM_injected _ _ _ _ _ _ Hm)|].
    intros dep w Hi. simpl in Hi. rewrite Est1.
    apply injected_cache_singleton; [done|].
    by apply (injected_ext _ stm).
  - intros ops d' sc' reg' Hreg' Hl'. split.
    + eapply getInstance_singleton_hit; eauto.
      apply (run_singletons ops st1). rewrite Est1. simpl.
      by rewrite lookup_insert_eq.
    + eapply prefix_lookup_Some; [|apply run_heap].
      rewrite Est1. simpl. exact Hh.
Qed.

(** ** The two configurations *)

(** X8. Each configuration writes the same three tokens, so configuring
    a container again replaces the earlier configuration completely:
    production after debug is production, debug after production is
    debug, whatever the container held before. *)
Theorem reconfiguration_overrides (st : State) :
  configureProduction (configureDebug st) = configureProduction st ∧
  configureDebug (configureProduction st) = configureDebug st.
Proof.
  split; unfold configureProduction, configureDebug, register, registerFactory,
    set_container; simpl; f_equal; apply map_eq; intros k;
    rewrite !lookup_insert; repeat case_decide; simplify_eq; done.
Qed.

(** A Singleton built by a constructor without dependencies that only
    stores its parameters. *)
Lemma getInstance_singleton_leaf d t sc st reg c :
  container st !! t = Some reg → lifestyle reg = Singleton →
  factory reg = None → implementation reg = Some c →
  dependencies reg = [] →
  ctor c (constructorParams reg) = Done (Yield VUndefined) →
  singletons st !! t = None →
  getInstance (S d) t sc st =
  (Ok (VObject (length (heap st))),
   set_singletons (insert t (VObject (length (heap st))))
     (set_heap (fun _ => heap st ++ [mkObj (cname c) (constructorParams reg)])
        (set_calls (fun l => l ++ [CallNew (cname c) (constructorParams reg)])
           st))).
Proof.
  intros Hreg Hl Hf Hc Hd Hok Hn. simpl.
  rewrite getInstanceBody_eq, Hreg, Hl, resolveSingleton_eq, Hn.
  unfold createInstance. rewrite Hf, Hd, Hc.
  change (mapM (fun depToken => getInstance d depToken sc) []) with (@ret (list Value) []).
  unfold bind at 1, ret at 1. cbn [app].
  rewrite construct_eq, Hok. done.
Qed.

(** X9. The production configuration wires the processor to the file
    logger and the file storage: on any container that holds no logger
    or storage singleton yet, resolving the processor through a scope
    without one succeeds from depth 2 on, appends the logger, the storage
    and the processor to the heap, and the processor, asked to process
    some data, logs to prod.log and saves to prod.db. *)
Theorem production_wiring
    (st : State) (s d : nat) (data : string) :
  singletons st !! ILoggerToken = None →
  singletons st !! IStorageToken = None →
  scopeOf st s !! IProcessorToken = None →
  ∃ st' : State,
    getInstance (S (S d)) IProcessorToken (Some s) (configureProduction st)
      = (Ok (VObject (length (heap st) + 2)), st') ∧
    heap st' = heap st ++
      [mkObj "FileLogger" [VString "prod.log"];
       mkObj "FileStorage" [VString "prod.db"];
       mkObj "AdvancedProcessor"
             [VObject (length (heap st)); VObject (length (heap st) + 1)]] ∧
    AdvancedProcessor_process (heap st') (VObject (length (heap st) + 2)) data
      = Some ["[File prod.log]: Advanced processing: " +:+ data;
              "Saving to file prod.db: [PROCESSED] " +:+ data].
Proof.
  intros HnL HnS HnP.
  set (stp := configureProduction st).
  set (regL := mkRegistration (Some (plainClass "FileLogger")) Singleton []
                              [VString "prod.log"] None).
  set (regS := mkRegistration (Some (plainClass "FileStorage")) Singleton []
                              [VString "prod.db"] None).
  set (regP := mkRegistration (Some (plainClass "AdvancedProcessor")) Scoped
                              [ILoggerToken; IStorageToken] [] None).
  assert (HcL : container stp !! ILoggerToken = Some regL).
  { unfold stp, configureProduction, register. simpl.
    rewrite lookup_insert_ne by done. by rewrite lookup_insert_eq. }
  assert (HcS : container stp !! IStorageToken = Some regS).
  { unfold stp, configureProduction, register. simpl.
    rewrite !lookup_insert_ne by done. by rewrite lookup_insert_eq. }
  assert (HcP : container stp !! IProcessorToken = Some regP).
  { unfold stp, configureProduction, register. simpl.
    by rewrite lookup_insert_eq. }
  pose proof (getInstance_singleton_leaf d ILoggerToken (Some s) stp
    regL (plainClass "FileLogger") HcL eq_refl eq_refl eq_refl eq_refl eq_refl
    HnL) as HL.
  set (stL := set_singletons (insert ILoggerToken (VObject (length (heap st))))
     (set_heap (fun _ => heap st ++ [mkObj "FileLogger" [VString "prod.log"]])
        (set_calls (fun l => l ++ [CallNew "FileLogger" [VString "prod.log"]])
           stp))) in *.
  assert (HnS' : singletons stL !! IStorageToken = None).
  { unfold stL. simpl. by rewrite lookup_insert_ne. }
  pose proof (getInstance_singleton_leaf d IStorageToken (Some s) stL
    regS (plainClass "FileStorage") HcS eq_refl eq_refl eq_refl
    eq_refl eq_refl HnS') as HS.
  assert (EhL : heap stL = heap st ++ [mkObj "FileLogger" [VString "prod.log"]])
    by done.
  assert (Hm : mapM (fun dep => getInstance (S d) dep (Some s))
                    [ILoggerToken; IStorageToken] stp
               = (Ok [VObject (length (heap st)); VObject (length (heap stL))],
                  snd (getInstance (S d) IStorageToken (Some s) stL))).
  { cbn [mapM]. rewrite (bind_ok _ _ _ _ _ HL).
    rewrite (bind_ok _ _ stL [VObject (length (heap stL))]
               (snd (getInstance (S d) IStorageToken (Some s) stL)));
      [done|].
    rewrite (bind_ok _ _ _ _ _ HS). by rewrite HS. }
  rewrite HS in Hm. cbn [snd] in Hm.
  eexists. split; [|split].
  - change (getInstance (S (S d)) IProcessorToken (Some s) stp)
      with (getInstanceBody (getInstance (S d)) IProcessorToken (Some s) stp).
    rewrite getInstanceBody_eq, HcP.
    cbn [lifestyle regP].
    rewrite resolveScoped_eq.
    change (scopeOf stp s) with (scopeOf st s). rewrite HnP.
    unfold createInstance.
    cbn [factory dependencies implementation constructorParams regP].
    rewrite (bind_ok _ _ stp [VObject (length (heap st)); VObject (length (heap stL))] _ Hm).
    rewrite construct_eq.
    cbn [ctor plainClass runProg ret].
    cbn [heap set_scopes set_heap set_calls set_singletons].
    simpl. rewrite ?length_app. simpl.
    replace (length (heap st) + 1 + 1) with (length (heap st) + 2) by lia.
    reflexivity.
  - cbn [heap set_scopes set_heap set_calls set_singletons].
    rewrite <- !(assoc app). reflexivity.
  - cbn [heap set_scopes set_heap set_calls set_singletons].
    rewrite <- !(assoc app). cbn [app].
    unfold AdvancedProcessor_process, ILogger_log, IStorage_save, objectAt.
    rewrite !lookup_app_r by lia.
    replace (length (heap st) + 2 - length (heap st)) with 2 by lia.
    cbn [lookup list_lookup className ctorArgs].
    rewrite decide_True by done. cbn [lookup list_lookup].
    rewrite !lookup_app_r by lia.
    replace (length (heap st) - length (heap st)) with 0 by lia.
    replace (length (heap st) + 1 - length (heap st)) with 1 by lia.
    reflexivity.
Qed.

(** * The logger *)

(** ** Substring filters *)

Lemma prefix_append p s :
  String.prefix p s = true ↔ ∃ post, s = p +:+ post.
Proof.
  revert s. induction p as [|a p IH]; intros s; simpl.
  - split; [intros _; by exists s|by destruct s].
  - destruct s as [|b s]; simpl.
    + split; [done|]. by intros [post ?].
    + destruct (Ascii.ascii_dec a b) as [->|Hne].
      * rewrite IH. split; intros [post Hp]; exists post.
        -- by subst.
        -- change (String b s = String b (p +:+ post)) in Hp. congruence.
      * split; [done|]. intros [post Hp].
        change (String b s = String a (p +:+ post)) in Hp. congruence.
Qed.

Lemma includes_nil pattern :
  includes "" pattern = String.prefix pattern "" || false.
Proof. done. Qed.

Lemma includes_cons a text pattern :
  includes (String a text) pattern
  = String.prefix pattern (String a text) || includes text pattern.
Proof. done. Qed.

Lemma includes_append text pattern :
  includes text pattern = true ↔ ∃ pre post, text = pre +:+ pattern +:+ post.
Proof.
  split.
  - induction text as [|a text IH]; intros H.
    + rewrite includes_nil, orb_false_r in H.
      apply prefix_append in H as [post ->]. by exists "", post.
    + rewrite includes_cons in H. apply orb_true_iff in H as [H|H].
      * apply prefix_append in H as [post ->]. by exists "", post.
      * destruct (IH H) as (pre & post & ->). by exists (String a pre), post.
  - intros (pre & post & ->). induction pre as [|a pre IH].
    + change ("" +:+ pattern +:+ post) with (pattern +:+ post).
      assert (Hp : String.prefix pattern (pattern +:+ post) = true)
        by (apply prefix_append; eauto).
      destruct (pattern +:+ post).
      * by rewrite includes_nil, Hp.
      * by rewrite includes_cons, Hp.
    + change (String a pre +:+ pattern +:+ post)
        with (String a (pre +:+ pattern +:+ post)).
      rewrite includes_cons, IH. apply orb_true_r.
Qed.

(** X13. A [SimpleLogFilter] matches exactly the messages that contain its
    pattern somewhere; with the empty pattern it matches every message. *)
Theorem simple_filter_matches_substrings (pattern text : string) :
  (match_ (SimpleLogFilter pattern) text = true ↔
   ∃ pre post, text = pre +:+ pattern +:+ post) ∧
  match_ (SimpleLogFilter "") text = true.
Proof.
  split; [apply includes_append|].
  simpl. apply includes_append. by exists "", text.
Qed.

(** ** Which messages are delivered *)

Lemma passed_spec l text :
  passed l text = true ↔
  filters l = [] ∨ ∃ f, f ∈ filters l ∧ match_ f text = true.
Proof.
  unfold passed. rewrite orb_true_iff, existsb_exists. split.
  - intros [H|(f & Hin & Hf)].
    + left. destruct (filters l); [done|discriminate].
    + right. exists f. by rewrite list_elem_of_In.
  - intros [->|(f & Hin & Hf)]; [by left|].
    right. exists f. by rewrite <- list_elem_of_In.
Qed.

(** Delivery to a list of handlers that goes through: what each handler
    did, in order. *)
Lemma deliver_completes hs text :
  (∀ h, h ∈ hs → snd (handle h text) ≠ ThrewNullish) →
  deliver hs text
  = (flat_map (fun handler => fst (tryHandle handler text)) hs, Completed).
Proof.
  induction hs as [|h hs IH]; intros Hall; simpl; [done|].
  assert (Hh : snd (handle h text) ≠ ThrewNullish) by (apply Hall; by left).
  rewrite IH by (intros h' Hin; apply Hall; by right).
  unfold tryHandle in *. by destruct (handle h text) as [out [|message|]].
Qed.

Lemma deliver_app hs1 hs2 text :
  deliver (hs1 ++ hs2) text
  = match deliver hs1 text with
    | (out1, Completed) =>
        (out1 ++ fst (deliver hs2 text), snd (deliver hs2 text))
    | (out1, Aborted) => (out1, Aborted)
    end.
Proof.
  induction hs1 as [|h hs1 IH]; simpl.
  - by destruct (deliver hs2 text).
  - destruct (tryHandle h text) as [out []]; [|done].
    rewrite IH. destruct (deliver hs1 text) as [out1 []]; simpl; [|done].
    by rewrite (assoc app).
Qed.


(** X12. Adding a filter to a logger that has filters never stops a
    message that was delivered before, it only lets more through; adding
    the first filter to a logger without filters narrows delivery to the
    messages that filter matches. *)
Theorem addFilter_widens_unless_first
    (filter : ILogFilter) (l : Logger) (text : string) :
  (filters l ≠ [] →
   passed (addFilter filter l) text = passed l text || match_ filter text) ∧
  (filters l = [] →
   passed (addFilter filter l) text = match_ filter text) ∧
  handlers (addFilter filter l) = handlers l.
Proof.
  unfold passed, addFilter. simpl. repeat split.
  - intros Hne. rewrite existsb_app. simpl. rewrite orb_false_r.
    destruct (filters l) as [|f fs]; [done|]. simpl. done.
  - intros ->. simpl. by rewrite orb_false_r.
Qed.

(** ** What the handlers do *)

(** X11. A delivered message goes through the handlers in the order they
    were given.  A handler that throws an error does not stop the ones
    after it: the message of the error is reported on the error console
    after what the handler did, and delivery goes on.  A handler that
    throws [null] or [undefined] stops the delivery: nothing is
    reported, the handlers after it do not run, and [log] does not
    return.  A handler added with [addHandler] comes last and changes
    nothing for a message that is filtered out. *)
Theorem handlers_run_in_order_and_isolated
    (fs : list ILogFilter) (hs1 hs2 : list ILogHandler) (h : ILogHandler)
    (text : string) :
  (passed (mkLogger fs (hs1 ++ h :: hs2)) text = true →
   ∀ out1 : list Output, deliver hs1 text = (out1, Completed) →
     (∀ (out : list Output) (message : string),
        handle h text = (out, Threw message) →
        log (mkLogger fs (hs1 ++ h :: hs2)) text =
          (out1 ++ out ++
           [ConsoleError ("[Logger] Ошибка обработчика: " +:+ message)] ++
           fst (deliver hs2 text),
           snd (deliver hs2 text))) ∧
     (∀ out : list Output,
        handle h text = (out, ThrewNullish) →
        log (mkLogger fs (hs1 ++ h :: hs2)) text = (out1 ++ out, Aborted))) ∧
  (passed (mkLogger fs hs1) text = true →
   ∀ out1 : list Output, deliver hs1 text = (out1, Aborted) →
     log (mkLogger fs (hs1 ++ h :: hs2)) text = (out1, Aborted)) ∧
  (passed (mkLogger fs hs1) text = true →
   ∀ out1 : list Output, deliver hs1 text = (out1, Completed) →
     log (addHandler h (mkLogger fs hs1)) text
     = (out1 ++ fst (tryHandle h text), snd (tryHandle h text))) ∧
  (passed (mkLogger fs hs1) text = false →
   log (addHandler h (mkLogger fs hs1)) text = log (mkLogger fs hs1) text).
Proof.
  unfold log, addHandler, passed. simpl. split; [|split; [|split]].
  - intros -> out1 H1. rewrite deliver_app, H1. simpl. unfold tryHandle.
    split.
    + intros out message ->. destruct (deliver hs2 text) as [out2 e2]. simpl.
      by rewrite <- !(assoc app).
    + by intros out ->.
  - intros -> out1 H1. by rewrite deliver_app, H1.
  - intros -> out1 H1. rewrite deliver_app, H1. simpl.
    destruct (tryHandle h text) as [out []]; simpl; [|done].
    by rewrite app_nil_r.
  - by intros ->.
Qed.

(** * The further properties at work *)

Lemma plainProg_asks t p : plainProg p → ¬ asks t p.
Proof.
  induction p as [o|t' sc k IH|k IH]; simpl; [tauto|tauto|].
  intros Hp (l & h & Ha). by apply (IH l h).
Qed.

Lemma plain_danglingState : plain (container danglingState).
Proof. unfold danglingState. repeat apply plain_register; done. Qed.

Lemma plain_loopState : plain (container loopState).
Proof. unfold loopState. repeat apply plain_register; done. Qed.

Lemma plain_brokenState : plain (container brokenState).
Proof. unfold brokenState. repeat apply plain_register; done. Qed.


Lemma acyclic_never_overflows_witness :
  prodRank IProcessorToken < 2 ∧
  fst (getInstance 2 IProcessorToken (Some 0) prodScoped) ≠ Throw StackOverflow.
Proof.
  split; [vm_compute; lia|].
  apply (acyclic_never_overflows prodRank 2 IProcessorToken (Some 0) prodScoped
           (snd (getInstance 2 IProcessorToken (Some 0) prodScoped))).
  - intros b reg dep Hreg Hf Hin.
    change (container prodScoped) with (container prodState) in Hreg.
    unfold prodState, configureProduction, register in Hreg. simpl in Hreg.
    rewrite !lookup_insert in Hreg.
    repeat case_decide; simplify_eq; simpl in Hin.
    + apply list_elem_of_In in Hin.
      destruct Hin as [<-|[<-|[]]]; vm_compute; lia.
    + by apply elem_of_nil in Hin.
    + by apply elem_of_nil in Hin.
  - intros b reg p dep Hreg Hb Ha.
    destruct (plainProg_asks dep p (plain_prodState b reg p Hreg Hb) Ha).
  - vm_compute; lia.
  - by destruct (getInstance 2 IProcessorToken (Some 0) prodScoped).
Defined.


Lemma dependency_cycle_never_resolves_witness :
  fst (getInstance 6 "Node" None loopState) = Throw StackOverflow ∧
  fst (getInstance 6 "Node" None loopState) ≠ Ok (VObject 1).
Proof.
  assert (Hcyc : cyclic (fun b => b = "Node") None loopState).
  { intros b ->. eexists _, "Node". split; [reflexivity|].
    split; [reflexivity|]. split; [exact I|].
    split; [apply list_elem_of_In; right; by left|reflexivity]. }
  assert (Hhere : ∀ s, builderScope (container loopState) s → None = Some s).
  { intros s Hs. destruct (plain_scopeless _ plain_loopState s Hs). }
  split; [vm_compute; reflexivity|].
  apply (dependency_cycle_never_resolves _ None 6 "Node" loopState
           (snd (getInstance 6 "Node" None loopState)) _ Hhere Hcyc eq_refl).
  by destruct (getInstance 6 "Node" None loopState).
Defined.

Lemma unrelated_registration_irrelevant_witness :
  let o := OpRegisterFactory "Metrics" reentrantFactory Singleton in
  registeredToken o = Some "Metrics" ∧
  avoids 3 (container prodScoped) "Metrics" IProcessorToken = true ∧
  getInstance 3 IProcessorToken (Some 0) (step o prodScoped)
    = prod_map id (step o) (getInstance 3 IProcessorToken (Some 0) prodScoped).
Proof.
  intros o. split; [reflexivity|]. split; [vm_compute; reflexivity|].
  apply (unrelated_registration_irrelevant o "Metrics");
    [exact plain_prodState|reflexivity|vm_compute; reflexivity].
Defined.

Lemma failed_resolution_caches_nothing_witness :
  let st1 := snd (getInstance 3 "Index" None brokenState) in
  getInstance 3 "Index" None brokenState
    = (Throw (NotRegistered "Missing"), st1) ∧
  singletons brokenState !! ILoggerToken = None ∧
  singletons st1 !! ILoggerToken = Some (VObject 0) ∧
  singletons st1 !! "Index" = None.
Proof.
  intros st1.
  assert (H : getInstance 3 "Index" None brokenState
              = (Throw (NotRegistered "Missing"), st1))
    by (vm_compute; reflexivity).
  split; [exact H|]. split; [reflexivity|]. split; [vm_compute; reflexivity|].
  destruct (failed_resolution_caches_nothing 3 "Index" None brokenState st1 _
              plain_brokenState H) as [Hs _].
  etrans; [exact Hs|reflexivity].
Defined.

Lemma singleton_keeps_first_scope_witness :
  let st := snd (createScope (snd (createScope danglingState))) in
  let st1 := snd (getInstance 2 "Cache" (Some 0) st) in
  getInstance 2 "Cache" (Some 0) st = (Ok (VObject 1), st1) ∧
  ∃ (a : nat) (vs : list Value),
    getInstance 1 "Cache" (Some 1) st1 = (Ok (VObject a), st1) ∧
    heap st1 !! a = Some (mkObj "Cache" vs) ∧
    Forall2 (injected 0 st1) ["Session"] vs.
Proof.
  intros st st1.
  assert (H : getInstance 2 "Cache" (Some 0) st = (Ok (VObject 1), st1))
    by (vm_compute; reflexivity).
  split; [exact H|].
  destruct (singleton_keeps_first_scope 2 "Cache" _ 0 st st1 (VObject 1)
              plain_danglingState eq_refl eq_refl eq_refl
              ltac:(intros c args [= <-]; exact I) eq_refl H)
    as (a & c & vs & Hv & Hc & Hinj & Hlater).
  exists a, vs.
  destruct (Hlater [] 0 (Some 1) _ ltac:(vm_compute; reflexivity)
              ltac:(vm_compute; reflexivity)) as [Hget Hheap].
  split; [exact Hget|]. split; [|exact Hinj].
  injection Hc as <-.
  rewrite app_nil_r in Hheap. exact Hheap.
Defined.

Lemma production_wiring_witness :
  ∃ st' : State,
    getInstance 2 IProcessorToken (Some 0) (configureProduction emptyState)
      = (Ok (VObject 2), st') ∧
    AdvancedProcessor_process (heap st') (VObject 2) "test data"
      = Some ["[File prod.log]: Advanced processing: test data";
              "Saving to file prod.db: [PROCESSED] test data"].
Proof.
  destruct (production_wiring emptyState 0 0 "test data"
              ltac:(vm_compute; reflexivity) ltac:(vm_compute; reflexivity)
              ltac:(vm_compute; reflexivity)) as (st' & Hget & _ & Hrun).
  exists st'. split; [exact Hget|exact Hrun].
Defined.


Lemma addFilter_widens_unless_first_witness :
  passed (addFilter (SimpleLogFilter "CRITICAL") errorLogger) "ERROR: Disk full"
    = true ∧
  passed (mkLogger [] [ConsoleHandler]) "INFO" = true ∧
  passed (addFilter (SimpleLogFilter "ERROR") (mkLogger [] [ConsoleHandler])) "INFO"
    = false.
Proof.
  destruct (addFilter_widens_unless_first (SimpleLogFilter "CRITICAL")
              errorLogger "ERROR: Disk full") as (Hwide & _ & _).
  destruct (addFilter_widens_unless_first (SimpleLogFilter "ERROR")
              (mkLogger [] [ConsoleHandler]) "INFO") as (_ & Hfirst & _).
  split; [|split].
  - rewrite Hwide; [reflexivity|discriminate].
  - reflexivity.
  - rewrite Hfirst; reflexivity.
Defined.

Lemma handlers_run_in_order_and_isolated_witness :
  log (mkLogger [] [ConsoleHandler; failingHandler; ConsoleHandler]) "boot"
    = ([ConsoleLog "[Console] boot"; Effect "file" "boot";
        ConsoleError "[Logger] Ошибка обработчика: disk full";
        ConsoleLog "[Console] boot"], Completed) ∧
  log abortingLogger "boot"
    = ([Effect "file" "boot";
        ConsoleError "[Logger] Ошибка обработчика: disk full";
        Effect "socket" "boot"], Aborted).
Proof.
  destruct (handlers_run_in_order_and_isolated [] [ConsoleHandler]
              [ConsoleHandler] failingHandler "boot") as (Hiso & _).
  destruct (handlers_run_in_order_and_isolated [] [failingHandler]
              [ConsoleHandler] nullHandler "boot") as (Hstop & _).
  split.
  - etrans; [exact (proj1 (Hiso eq_refl _ eq_refl)
                      [Effect "file" "boot"] "disk full" eq_refl)|].
    reflexivity.
  - etrans; [exact (proj2 (Hstop eq_refl _ eq_refl)
                      [Effect "socket" "boot"] eq_refl)|].
    reflexivity.
Defined.

Lemma simple_filter_matches_substrings_witness :
  match_ (SimpleLogFilter "ERROR") "CRITICAL: ERROR occurred" = true ∧
  match_ (SimpleLogFilter "") "DEBUG: Variable x = 42" = true.
Proof.
  destruct (simple_filter_matches_substrings "ERROR" "CRITICAL: ERROR occurred")
    as [[_ Hsub] _].
  destruct (simple_filter_matches_substrings "ERROR" "DEBUG: Variable x = 42")
    as [_ Hempty].
  split; [|exact Hempty].
  apply Hsub. by exists "CRITICAL: ", " occurred".
Defined.
